(** * The garbage-collected object heap of picrin (extlib/benz/gc.c)

    A shallow embedding of the collector's entry points, the root arena,
    the allocator shim, the mark phase with its weak-map fixed point and
    the sweep phase, followed by the properties proved about them. *)

From stdpp Require Import gmap strings list fin_maps.
From Stdlib Require Import ZArith Lia.

#[local] Set Warnings "-clear-no-such-hyp".

Open Scope Z_scope.

(** ** Machine integers and pointers *)

(** [size_t] is taken to be 64 bits wide; the wrap-around of unsigned
    arithmetic is written out with [size_wrap]. *)
Definition SIZE_BITS : Z := 64.
Definition SIZE_MOD : Z := 2 ^ SIZE_BITS.
Definition size_wrap (z : Z) : Z := z mod SIZE_MOD.

(** [sizeof(struct object * )] on the same platform. *)
Definition SIZEOF_OBJPTR : Z := 8.

(** Object pointers are never null in this type; a nullable object pointer
    is an [option addr].  Raw byte pointers are integers, [NULL] being 0. *)
Abbreviation addr := positive.
Abbreviation ptr := Z.
Definition NULL : ptr := 0.

(** ** Outcomes of a call

    [Panic] is [pic_panic]: control never comes back to the caller.
    [Undef] stands for behaviour that C leaves undefined (a store outside
    the arena, a read of a field that was never initialised, the
    [PIC_UNREACHABLE] arms).  [Timeout] is only produced by the recursion
    budget of the tracer below. *)
Inductive outcome (A : Type) : Type :=
| Ret (a : A)
| Panic (msg : string)
| Undef
| Timeout.
Arguments Ret {A} a.
Arguments Panic {A} msg.
Arguments Undef {A}.
Arguments Timeout {A}.

#[global] Instance outcome_ret : MRet outcome := fun A a => Ret a.
#[global] Instance outcome_bind : MBind outcome := fun A B f m =>
  match m with
  | Ret a => f a
  | Panic msg => Panic msg
  | Undef => Undef
  | Timeout => Timeout
  end.

(** Modelled from the spec: [pic_panic] is declared in picrin.h, which is
    not among the sources; the spec says that it reports the message to the
    host and terminates the interpreter instance. *)
Definition pic_panic {A : Type} (msg : string) : outcome A := Panic msg.

(** How a call that does not return ends. *)
Inductive failure : Type :=
| FPanic (msg : string)
| FUndef
| FTimeout.

Definition failure_of {A : Type} (m : outcome A) : option failure :=
  match m with
  | Ret _ => None
  | Panic msg => Some (FPanic msg)
  | Undef => Some FUndef
  | Timeout => Some FTimeout
  end.

(** ** Values and objects *)

(** Modelled from the spec: the value representation lives in
    picrin/private/object.h; a value is an immediate or a pointer to a heap
    object. *)
Inductive pic_value : Type :=
| pic_nil_value
| pic_bool_value (b : bool)
| pic_int_value (n : Z)
| pic_char_value (c : Z)
| pic_float_value (bits : Z)
| pic_undef_value
| pic_invalid_value
| pic_obj_value (a : addr).

Definition pic_obj_p (v : pic_value) : bool :=
  match v with pic_obj_value _ => true | _ => false end.

Definition pic_obj_ptr (v : pic_value) : option addr :=
  match v with pic_obj_value a => Some a | _ => None end.

(** The type tags that gc.c switches on; every other tag value is
    [PIC_TYPE_OTHER]. *)
Inductive pic_type : Type :=
| PIC_TYPE_PAIR | PIC_TYPE_CXT | PIC_TYPE_FUNC | PIC_TYPE_IREP
| PIC_TYPE_PORT | PIC_TYPE_ERROR | PIC_TYPE_STRING | PIC_TYPE_VECTOR
| PIC_TYPE_BLOB | PIC_TYPE_ID | PIC_TYPE_ENV | PIC_TYPE_DATA
| PIC_TYPE_DICT | PIC_TYPE_RECORD | PIC_TYPE_SYMBOL | PIC_TYPE_WEAK
| PIC_TYPE_CP
| PIC_TYPE_OTHER (code : Z).

(** The vtable of a DATA object.  The [mark] hook is embedder code; by its
    contract it passes each value the object owns to the callback it is
    given, so it is represented by the list of those values. *)
Record pic_data_type : Type := {
  dt_name : string;
  dt_dtor : bool;
  dt_mark : option (list pic_value)
}.

(** The members of [struct object]'s union, with the fields that gc.c
    reads.  khash tables are kept as the list of their occupied buckets in
    iteration order.  [ObjFresh tag] is a cell whose tag has been written
    but whose payload has not. *)
Inductive object : Type :=
| ObjPair (car cdr : pic_value)
| ObjCxt (regs : list pic_value) (up : option addr)
| ObjFunc (locals : list pic_value)
| ObjIrep (irep : Z) (cxt : option addr)
| ObjPort
| ObjError (type msg : addr) (irrs : pic_value) (stack : addr)
| ObjString (rope : Z)
| ObjVector (data : ptr) (elems : list pic_value)
| ObjBlob (data : ptr)
| ObjId (id : addr) (env : addr)
| ObjEnv (map : list (addr * addr)) (up : option addr)
| ObjData (type : pic_data_type) (data : ptr)
| ObjDict (hash : list (pic_value * pic_value))
| ObjRecord (type datum : pic_value)
| ObjSymbol (str : addr)
| ObjWeak (hash : list (addr * pic_value)) (prev : option addr)
| ObjCp (prev in_ out : option addr)
| ObjFresh (tag : pic_type).

Definition obj_tt (o : object) : pic_type :=
  match o with
  | ObjPair _ _ => PIC_TYPE_PAIR
  | ObjCxt _ _ => PIC_TYPE_CXT
  | ObjFunc _ => PIC_TYPE_FUNC
  | ObjIrep _ _ => PIC_TYPE_IREP
  | ObjPort => PIC_TYPE_PORT
  | ObjError _ _ _ _ => PIC_TYPE_ERROR
  | ObjString _ => PIC_TYPE_STRING
  | ObjVector _ _ => PIC_TYPE_VECTOR
  | ObjBlob _ => PIC_TYPE_BLOB
  | ObjId _ _ => PIC_TYPE_ID
  | ObjEnv _ _ => PIC_TYPE_ENV
  | ObjData _ _ => PIC_TYPE_DATA
  | ObjDict _ => PIC_TYPE_DICT
  | ObjRecord _ _ => PIC_TYPE_RECORD
  | ObjSymbol _ => PIC_TYPE_SYMBOL
  | ObjWeak _ _ => PIC_TYPE_WEAK
  | ObjCp _ _ _ => PIC_TYPE_CP
  | ObjFresh tag => tag
  end.

(** The operations of a client of the root arena: a push, and a scope
    bracketed by [pic_enter] and [pic_leave]. *)
#[warnings="-register-all"] Inductive arena_op : Type :=
| Protect (v : pic_value)
| Scope (body : list arena_op).

(** The calls that a finalizer makes into code outside gc.c:
    [pic_rope_decref], [kh_destroy] on each of the three tables, the
    destructor of a DATA object, [pic_irep_decref]. *)
Inductive release : Type :=
| Rope_decref (rope : Z)
| Kh_destroy_env
| Kh_destroy_dict
| Kh_destroy_weak
| Data_dtor (name : string) (data : ptr)
| Irep_decref (irep : Z).

(** ** The heap back-end

    gc.c includes one of gc/markandsweep.c and gc/bitmap.c, neither of
    which is among the sources.  Their common interface is taken as a
    parameter, together with the configuration macros that gc.c uses.  The
    cell allocator and the page request act on the back-end's own data
    (cells, free list or bitmaps, mark bits); the only fact used about the
    mark bits is that [mark] sets the bit of one object.

    Of the page sweeper the back-end gives the two parts that are its
    own: [page_objects], the objects that a page holds, in the order in
    which the sweeper meets them, and [page_sweep], what the sweeper does
    to the back-end's data (cells back to the free list or bitmap bits
    cleared, marks of the survivors reset) together with the number of
    units in use that it returns.  The sweeper itself, which hands the
    unmarked ones among the objects to [gc_finalize_object], is
    [gc_sweep_page] below. *)
Class Backend : Type := {
  heap_t : Type;
  heap_page : Type;
  GC_STRESS : bool;
  PIC_USE_BITMAPGC : bool;
  PAGE_UNITS : Z;
  PIC_PAGE_REQUEST_THRESHOLD : Z → Z;
  heap_pages : heap_t → list heap_page;
  heap_alloc : heap_t → Z → option addr * heap_t;
  heap_morecore : heap_t → outcome heap_t;
  gc_init : heap_t → heap_t;
  page_objects : heap_t → heap_page → list addr;
  page_sweep : heap_t → heap_page → Z * heap_t;
  is_marked : heap_t → addr → bool;
  mark : heap_t → addr → heap_t;
  set_white : heap_t → addr → heap_t;
  is_marked_mark : ∀ h a b,
    is_marked (mark h a) b = bool_decide (a = b) || is_marked h b
}.

(** ** The interpreter state *)

Section State.
Context `{Backend}.

(** The fields of [pic_state] and of [struct heap] that gc.c touches.
    [U] is the type of the embedder's [userdata].  [released] is not a
    field of the C structure: it is the log of the calls that the
    finalizers have made into code outside gc.c, oldest first; what those
    calls do to the interpreter is not in the sources and is not
    modelled. *)
Record pic_state {U : Type} : Type := mk_pic_state {
  allocf : U → ptr → Z → ptr * U;
  userdata : U;
  memory : gmap Z Z;                     (* raw bytes, for [memset] *)
  gc_enable : bool;
  arena_base : ptr;                      (* pic->arena *)
  arena : list (option addr);            (* the slots behind pic->arena *)
  arena_size : Z;
  arena_idx : Z;
  cp : option addr;
  stack : list pic_value;                (* [stbase, sp) *)
  ci : list (option addr);               (* cxt of ci, ci-1, ..., cibase+1 *)
  ireps : list (list addr);              (* the pool of each registered irep *)
  globals : pic_value;
  macros : pic_value;
  err : pic_value;
  features : pic_value;
  ltable : list (addr * addr * addr);    (* name, env, exports *)
  oblist : list (string * option addr);
  objects : gmap addr object;            (* the cells of the heap pages *)
  weaks : option addr;                   (* heap->weaks *)
  heap : heap_t;
  released : list release
}.
Arguments pic_state U : clear implicits.

Context {U : Type}.
Implicit Types (pic : pic_state U) (obj : addr) (v : pic_value).

Definition set_userdata (u : U) pic : pic_state U :=
  mk_pic_state U (allocf pic) u (memory pic) (gc_enable pic) (arena_base pic)
    (arena pic) (arena_size pic) (arena_idx pic) (cp pic) (stack pic) (ci pic)
    (ireps pic) (globals pic) (macros pic) (err pic) (features pic)
    (ltable pic) (oblist pic) (objects pic) (weaks pic) (heap pic)
    (released pic).

Definition set_memory (m : gmap Z Z) pic : pic_state U :=
  mk_pic_state U (allocf pic) (userdata pic) m (gc_enable pic)
    (arena_base pic) (arena pic) (arena_size pic) (arena_idx pic) (cp pic)
    (stack pic) (ci pic) (ireps pic) (globals pic) (macros pic) (err pic)
    (features pic) (ltable pic) (oblist pic) (objects pic) (weaks pic)
    (heap pic) (released pic).

Definition set_arena (base : ptr) (slots : list (option addr)) (size : Z) pic
  : pic_state U :=
  mk_pic_state U (allocf pic) (userdata pic) (memory pic) (gc_enable pic) base
    slots size (arena_idx pic) (cp pic) (stack pic) (ci pic) (ireps pic)
    (globals pic) (macros pic) (err pic) (features pic) (ltable pic)
    (oblist pic) (objects pic) (weaks pic) (heap pic) (released pic).

Definition set_arena_slots (slots : list (option addr)) pic : pic_state U :=
  set_arena (arena_base pic) slots (arena_size pic) pic.

Definition set_arena_idx (idx : Z) pic : pic_state U :=
  mk_pic_state U (allocf pic) (userdata pic) (memory pic) (gc_enable pic)
    (arena_base pic) (arena pic) (arena_size pic) idx (cp pic) (stack pic)
    (ci pic) (ireps pic) (globals pic) (macros pic) (err pic) (features pic)
    (ltable pic) (oblist pic) (objects pic) (weaks pic) (heap pic)
    (released pic).

Definition set_oblist (s : list (string * option addr)) pic : pic_state U :=
  mk_pic_state U (allocf pic) (userdata pic) (memory pic) (gc_enable pic)
    (arena_base pic) (arena pic) (arena_size pic) (arena_idx pic) (cp pic)
    (stack pic) (ci pic) (ireps pic) (globals pic) (macros pic) (err pic)
    (features pic) (ltable pic) s (objects pic) (weaks pic) (heap pic)
    (released pic).

Definition set_objects (m : gmap addr object) pic : pic_state U :=
  mk_pic_state U (allocf pic) (userdata pic) (memory pic) (gc_enable pic)
    (arena_base pic) (arena pic) (arena_size pic) (arena_idx pic) (cp pic)
    (stack pic) (ci pic) (ireps pic) (globals pic) (macros pic) (err pic)
    (features pic) (ltable pic) (oblist pic) m (weaks pic) (heap pic)
    (released pic).

Definition set_weaks (w : option addr) pic : pic_state U :=
  mk_pic_state U (allocf pic) (userdata pic) (memory pic) (gc_enable pic)
    (arena_base pic) (arena pic) (arena_size pic) (arena_idx pic) (cp pic)
    (stack pic) (ci pic) (ireps pic) (globals pic) (macros pic) (err pic)
    (features pic) (ltable pic) (oblist pic) (objects pic) w (heap pic)
    (released pic).

Definition set_heap (h : heap_t) pic : pic_state U :=
  mk_pic_state U (allocf pic) (userdata pic) (memory pic) (gc_enable pic)
    (arena_base pic) (arena pic) (arena_size pic) (arena_idx pic) (cp pic)
    (stack pic) (ci pic) (ireps pic) (globals pic) (macros pic) (err pic)
    (features pic) (ltable pic) (oblist pic) (objects pic) (weaks pic) h
    (released pic).

Definition set_released (r : list release) pic : pic_state U :=
  mk_pic_state U (allocf pic) (userdata pic) (memory pic) (gc_enable pic)
    (arena_base pic) (arena pic) (arena_size pic) (arena_idx pic) (cp pic)
    (stack pic) (ci pic) (ireps pic) (globals pic) (macros pic) (err pic)
    (features pic) (ltable pic) (oblist pic) (objects pic) (weaks pic)
    (heap pic) r.

(** ** Allocator shim: pic_malloc, pic_realloc, pic_calloc, pic_free *)

(** [pic->allocf(pic->userdata, p, size)]. *)
Definition call_allocf pic (p : ptr) (size : Z) : ptr * pic_state U :=
  let '(q, u) := allocf pic (userdata pic) p size in (q, set_userdata u pic).

Definition pic_malloc pic (size : Z) : outcome (ptr * pic_state U) :=
  let '(p, pic) := call_allocf pic NULL size in
  if (p =? NULL) && (0 <? size) then pic_panic "memory exhausted"
  else Ret (p, pic).

Definition pic_realloc pic (p : ptr) (size : Z) : outcome (ptr * pic_state U) :=
  let '(p, pic) := call_allocf pic p size in
  if (p =? NULL) && (0 <? size) then pic_panic "memory exhausted"
  else Ret (p, pic).

(** [memset(p, 0, n)] on the raw bytes. *)
Definition memset_zero (p : ptr) (n : Z) (m : gmap Z Z) : gmap Z Z :=
  foldr (fun a m => <[a := 0]> m) m (seqZ p n).

Definition pic_calloc pic (count size : Z) : outcome (ptr * pic_state U) :=
  let size := size_wrap (size * count) in
  let '(p, pic) := call_allocf pic NULL size in
  if (p =? NULL) && (0 <? size) then pic_panic "memory exhausted"
  else Ret (p, set_memory (memset_zero p size (memory pic)) pic).

Definition pic_free pic (p : ptr) : pic_state U :=
  snd (call_allocf pic p 0).

(** ** Root arena: gc_protect, pic_protect, pic_enter, pic_leave *)

Definition gc_protect pic obj : outcome (pic_state U) :=
  pic ← (if arena_size pic <=? arena_idx pic then
           let size := size_wrap (arena_size pic * 2 + 1) in
           let bytes := size_wrap (SIZEOF_OBJPTR * size) in
           '(p, pic) ← pic_realloc pic (arena_base pic) bytes;
           Ret (set_arena p
                  (resize (Z.to_nat (bytes / SIZEOF_OBJPTR)) None (arena pic))
                  size pic)
         else Ret pic);
  if arena_idx pic <? Z.of_nat (length (arena pic)) then
    Ret (set_arena_idx (size_wrap (arena_idx pic + 1))
           (set_arena_slots
              (<[Z.to_nat (arena_idx pic) := Some obj]> (arena pic)) pic))
  else Undef.

Definition pic_protect pic v : outcome (pic_value * pic_state U) :=
  match pic_obj_ptr v with
  | None => Ret (v, pic)
  | Some obj => pic ← gc_protect pic obj; Ret (v, pic)
  end.

Definition pic_enter pic : Z := arena_idx pic.

Definition pic_leave pic (state : Z) : pic_state U := set_arena_idx state pic.

(** ** Mark phase *)

(** A [for] loop over a list, threading the state. *)
Definition for_each {A S : Type} (f : S → A → outcome S)
  : list A → S → outcome S :=
  fix go (l : list A) (s : S) : outcome S :=
    match l with
    | [] => Ret s
    | x :: l => s ← f s x; go l s
    end.

(** [gc_mark] over the marking of an object pointer [rec]. *)
Definition gc_mark_with (rec : pic_state U → addr → outcome (pic_state U))
    pic v : outcome (pic_state U) :=
  match pic_obj_ptr v with
  | None => Ret pic
  | Some obj => rec pic obj
  end.

(** [if (p) gc_mark_object(pic, p)] for a nullable object pointer. *)
Definition mark_nullable (rec : pic_state U → addr → outcome (pic_state U))
    pic (p : option addr) : outcome (pic_state U) :=
  match p with
  | None => Ret pic
  | Some obj => rec pic obj
  end.

(** [gc_mark_object].  Both the recursive calls and the [LOOP] jumps are
    calls here; [fuel] bounds their nesting. *)
Fixpoint gc_mark_object (fuel : nat) pic obj : outcome (pic_state U) :=
  match fuel with
  | O => Timeout
  | S fuel =>
    if is_marked (heap pic) obj then Ret pic
    else
      let pic := set_heap (mark (heap pic) obj) pic in
      let rec := gc_mark_object fuel in
      let gc_mark := gc_mark_with rec in
      match objects pic !! obj with
      | None => Undef
      | Some o =>
        match o with
        | ObjPair car cdr =>
            pic ← gc_mark pic car;
            gc_mark pic cdr
        | ObjCxt regs up =>
            pic ← for_each gc_mark regs pic;
            mark_nullable rec pic up
        | ObjFunc locals =>
            for_each gc_mark locals pic
        | ObjIrep _ cxt =>
            mark_nullable rec pic cxt
        | ObjPort => Ret pic
        | ObjError type msg irrs stack =>
            pic ← rec pic type;
            pic ← rec pic msg;
            pic ← gc_mark pic irrs;
            rec pic stack
        | ObjString _ => Ret pic
        | ObjVector _ elems =>
            for_each gc_mark elems pic
        | ObjBlob _ => Ret pic
        | ObjId id env =>
            pic ← rec pic id;
            rec pic env
        | ObjEnv map up =>
            pic ← for_each (fun pic kv =>
                     pic ← rec pic kv.1; rec pic kv.2) map pic;
            mark_nullable rec pic up
        | ObjData type _ =>
            match dt_mark type with
            | Some owned => for_each gc_mark owned pic
            | None => Ret pic
            end
        | ObjDict hash =>
            for_each (fun pic kv =>
              pic ← gc_mark pic kv.1; gc_mark pic kv.2) hash pic
        | ObjRecord type datum =>
            pic ← gc_mark pic type;
            gc_mark pic datum
        | ObjSymbol str =>
            rec pic str
        | ObjWeak hash _ =>
            Ret (set_weaks (Some obj)
                   (set_objects
                      (<[obj := ObjWeak hash (weaks pic)]> (objects pic)) pic))
        | ObjCp prev in_ out =>
            pic ← mark_nullable rec pic prev;
            pic ← mark_nullable rec pic in_;
            mark_nullable rec pic out
        | ObjFresh PIC_TYPE_PORT
        | ObjFresh PIC_TYPE_STRING
        | ObjFresh PIC_TYPE_BLOB => Ret pic
        | ObjFresh _ => Undef
        end
      end
  end.

Definition gc_mark (fuel : nat) pic v : outcome (pic_state U) :=
  gc_mark_with (gc_mark_object fuel) pic v.

(** One occupied bucket of a weak map in the fixed-point loop; [j] counts
    the values marked in this pass. *)
Definition weak_entry (fuel : nat) (st : pic_state U * Z)
    (e : addr * pic_value) : outcome (pic_state U * Z) :=
  let '(pic, j) := st in
  let '(key, val) := e in
  if is_marked (heap pic) key then
    match pic_obj_ptr val with
    | Some p =>
        if negb (is_marked (heap pic) p) then
          pic ← gc_mark fuel pic val;
          Ret (pic, size_wrap (j + 1))
        else Ret (pic, j)
    | None => Ret (pic, j)
    end
  else Ret (pic, j).

(** The [while (weak != NULL)] walk down the chain. *)
Fixpoint weak_pass (n : nat) (fuel : nat) pic (weak : option addr) (j : Z)
  : outcome (pic_state U * Z) :=
  match weak with
  | None => Ret (pic, j)
  | Some w =>
    match n with
    | O => Timeout
    | S n =>
      match objects pic !! w with
      | Some (ObjWeak h _) =>
          '(pic, j) ← for_each (weak_entry fuel) h (pic, j);
          match objects pic !! w with
          | Some (ObjWeak _ prev) => weak_pass n fuel pic prev j
          | _ => Undef
          end
      | _ => Undef
      end
    end
  end.

(** The [do ... while (j > 0)] loop. *)
Fixpoint weak_fixpoint (n : nat) (fuel : nat) pic : outcome (pic_state U) :=
  match n with
  | O => Timeout
  | S n =>
      '(pic, j) ← weak_pass fuel fuel pic (weaks pic) 0;
      if 0 <? j then weak_fixpoint n fuel pic else Ret pic
  end.

(** The roots, in the order in which [gc_mark_phase] visits them. *)
Definition mark_roots (fuel : nat) pic : outcome (pic_state U) :=
  let rec := gc_mark_object fuel in
  (* checkpoint *)
  pic ← mark_nullable rec pic (cp pic);
  (* stack *)
  pic ← for_each (gc_mark fuel) (stack pic) pic;
  (* callinfo *)
  pic ← for_each (mark_nullable rec) (ci pic) pic;
  (* arena *)
  pic ← for_each (fun pic j =>
           match arena pic !! Z.to_nat j with
           | Some (Some obj) => rec pic obj
           | _ => Undef
           end) (seqZ 0 (arena_idx pic)) pic;
  (* ireps *)
  pic ← for_each (fun pic pool => for_each rec pool pic) (ireps pic) pic;
  (* global variables, macro objects, error object, features *)
  pic ← gc_mark fuel pic (globals pic);
  pic ← gc_mark fuel pic (macros pic);
  pic ← gc_mark fuel pic (err pic);
  pic ← gc_mark fuel pic (features pic);
  (* library table *)
  for_each (fun pic lib =>
    pic ← rec pic lib.1.1;
    pic ← rec pic lib.1.2;
    rec pic lib.2) (ltable pic) pic.

Definition gc_mark_phase (fuel : nat) pic : outcome (pic_state U) :=
  match weaks pic with
  | Some _ => Undef                      (* assert(pic->heap->weaks == NULL) *)
  | None =>
      pic ← mark_roots fuel pic;
      weak_fixpoint fuel fuel pic
  end.

(** ** Sweep phase *)

Definition gc_finalize_object pic obj : outcome (list release * pic_state U) :=
  match objects pic !! obj with
  | None => Undef
  | Some o =>
    match o with
    | ObjVector data _ => Ret ([], pic_free pic data)
    | ObjBlob data => Ret ([], pic_free pic data)
    | ObjString rope => Ret ([Rope_decref rope], pic)
    | ObjEnv _ _ => Ret ([Kh_destroy_env], pic)
    | ObjData type data =>
        if dt_dtor type then Ret ([Data_dtor (dt_name type) data], pic)
        else Ret ([], pic)
    | ObjDict _ => Ret ([Kh_destroy_dict], pic)
    | ObjSymbol _ => Ret ([], pic)
    | ObjWeak _ _ => Ret ([Kh_destroy_weak], pic)
    | ObjIrep irep _ => Ret ([Irep_decref irep], pic)
    | ObjPair _ _ | ObjCxt _ _ | ObjPort | ObjError _ _ _ _ | ObjId _ _
    | ObjRecord _ _ | ObjCp _ _ _ | ObjFunc _ => Ret ([], pic)
    | ObjFresh PIC_TYPE_SYMBOL | ObjFresh PIC_TYPE_PAIR
    | ObjFresh PIC_TYPE_CXT | ObjFresh PIC_TYPE_PORT
    | ObjFresh PIC_TYPE_ERROR | ObjFresh PIC_TYPE_ID
    | ObjFresh PIC_TYPE_RECORD | ObjFresh PIC_TYPE_CP
    | ObjFresh PIC_TYPE_FUNC => Ret ([], pic)
    | ObjFresh _ => Undef
    end
  end.

(** [kh_del] on every bucket of [h] whose key is unmarked. *)
Definition purge_weak_hash (h0 : heap_t) (h : list (addr * pic_value))
  : list (addr * pic_value) :=
  filter (fun e => is_marked h0 e.1 = true) h.

(** The [while (pic->heap->weaks != NULL)] loop of the sweep. *)
Fixpoint sweep_weaks (n : nat) pic : outcome (pic_state U) :=
  match weaks pic with
  | None => Ret pic
  | Some w =>
    match n with
    | O => Timeout
    | S n =>
      match objects pic !! w with
      | Some (ObjWeak h prev) =>
          sweep_weaks n
            (set_weaks prev
               (set_objects
                  (<[w := ObjWeak (purge_weak_hash (heap pic) h) prev]>
                     (objects pic)) pic))
      | _ => Undef
      end
    end
  end.

(** The symbol-table loop: an entry goes when its symbol is non-null and
    unmarked. *)
Definition symbol_kept (h0 : heap_t) (e : string * option addr) : bool :=
  match e.2 with
  | Some sym => is_marked h0 sym
  | None => true
  end.

Definition sweep_oblist pic : pic_state U :=
  set_oblist (filter (fun e => symbol_kept (heap pic) e = true) (oblist pic)) pic.

(** One call of the finalizer from the page sweeper: its external calls
    are appended to [released]. *)
Definition finalize pic obj : outcome (pic_state U) :=
  '(rel, pic) ← gc_finalize_object pic obj;
  Ret (set_released (released pic ++ rel) pic).

(** What the page sweeper does with one object of the page. *)
Definition finalize_unmarked pic obj : outcome (pic_state U) :=
  if is_marked (heap pic) obj then Ret pic else finalize pic obj.

(** Modelled from the spec: [gc_sweep_page] is in the back-end, not among
    the sources.  By sections 4.6 and 4.7 of the spec it visits the
    objects of the page and finalizes every one that is unmarked, with
    [gc_finalize_object]; the cells are then reclaimed and the marks of
    the survivors reset, which is [page_sweep] on the back-end's data, and
    the units in use are returned.  The bytes of a reclaimed cell are not
    part of the back-end's data here: the cell keeps its contents until
    [pic_obj_alloc_unsafe] writes its header again. *)
Definition gc_sweep_page pic (page : heap_page) : outcome (Z * pic_state U) :=
  pic ← for_each finalize_unmarked (page_objects (heap pic) page) pic;
  let '(n, h) := page_sweep (heap pic) page in
  Ret (n, set_heap h pic).

(** The page loop; the result carries [inuse] and [total]. *)
Definition sweep_pages pic : outcome (Z * Z * pic_state U) :=
  for_each (fun '(inuse, total, pic) page =>
              '(n, pic) ← gc_sweep_page pic page;
              Ret (size_wrap (inuse + n), size_wrap (total + PAGE_UNITS), pic))
           (heap_pages (heap pic)) (0, 0, pic).

(** The final [if] of [gc_sweep_phase]. *)
Definition growth_check (inuse total : Z) pic : outcome (pic_state U) :=
  if PIC_PAGE_REQUEST_THRESHOLD total <=? inuse then
    h ← heap_morecore (heap pic); Ret (set_heap h pic)
  else Ret pic.

Definition gc_sweep_phase (fuel : nat) pic : outcome (pic_state U) :=
  (* weak maps *)
  pic ← sweep_weaks fuel pic;
  (* symbol table *)
  let pic := sweep_oblist pic in
  '(inuse, total, pic) ← sweep_pages pic;
  growth_check inuse total pic.

(** ** Entry points *)

Definition pic_gc (fuel : nat) pic : outcome (pic_state U) :=
  if negb (gc_enable pic) then Ret pic
  else
    let pic := set_heap (gc_init (heap pic)) pic in
    pic ← gc_mark_phase fuel pic;
    gc_sweep_phase fuel pic.

(** [heap_alloc(pic, size)] on the state. *)
Definition call_heap_alloc pic (size : Z) : option addr * pic_state U :=
  let '(o, h) := heap_alloc (heap pic) size in (o, set_heap h pic).

(** [heap_morecore(pic)] on the state. *)
Definition call_heap_morecore pic : outcome (pic_state U) :=
  h ← heap_morecore (heap pic); Ret (set_heap h pic).

(** The two header stores at the end of [pic_obj_alloc_unsafe]: the colour
    (only without the bitmap back-end) and the type tag. *)
Definition init_header pic obj (type : pic_type) : pic_state U :=
  let pic := if PIC_USE_BITMAPGC then pic
             else set_heap (set_white (heap pic) obj) pic in
  set_objects (<[obj := ObjFresh type]> (objects pic)) pic.

Definition pic_obj_alloc_unsafe (fuel : nat) pic (size : Z) (type : pic_type)
  : outcome (addr * pic_state U) :=
  pic ← (if GC_STRESS then pic_gc fuel pic else Ret pic);
  '(obj, pic) ←
    match call_heap_alloc pic size with
    | (Some obj, pic) => Ret (obj, pic)
    | (None, pic) =>
        pic ← pic_gc fuel pic;
        match call_heap_alloc pic size with
        | (Some obj, pic) => Ret (obj, pic)
        | (None, pic) =>
            pic ← call_heap_morecore pic;
            match call_heap_alloc pic size with
            | (Some obj, pic) => Ret (obj, pic)
            | (None, pic) => pic_panic "GC memory exhausted"
            end
        end
    end;
  Ret (obj, init_header pic obj type).

Definition pic_obj_alloc (fuel : nat) pic (size : Z) (type : pic_type)
  : outcome (addr * pic_state U) :=
  '(obj, pic) ← pic_obj_alloc_unsafe fuel pic size type;
  pic ← gc_protect pic obj;
  Ret (obj, pic).

(** ** The object graph

    The object pointers that [gc_mark_object] follows out of an object,
    in the order of its [switch] arm; a weak map has none, its entries
    are handled by the fixed-point loop. *)
Definition value_ptrs (vs : list pic_value) : list addr := omap pic_obj_ptr vs.

Definition trace_children (o : object) : list addr :=
  match o with
  | ObjPair car cdr => value_ptrs [car; cdr]
  | ObjCxt regs up => value_ptrs regs ++ option_list up
  | ObjFunc locals => value_ptrs locals
  | ObjIrep _ cxt => option_list cxt
  | ObjError type msg irrs stack => [type; msg] ++ value_ptrs [irrs] ++ [stack]
  | ObjVector _ elems => value_ptrs elems
  | ObjId id env => [id; env]
  | ObjEnv map up => flat_map (fun kv => [kv.1; kv.2]) map ++ option_list up
  | ObjData type _ =>
      match dt_mark type with Some owned => value_ptrs owned | None => [] end
  | ObjDict hash => flat_map (fun kv => value_ptrs [kv.1; kv.2]) hash
  | ObjRecord type datum => value_ptrs [type; datum]
  | ObjSymbol str => [str]
  | ObjCp prev in_ out => option_list prev ++ option_list in_ ++ option_list out
  | ObjPort | ObjString _ | ObjBlob _ | ObjWeak _ _ | ObjFresh _ => []
  end.

(** The cells whose arm of the tracer reads no field that was never
    written. *)
Definition traceable (o : object) : bool :=
  match o with
  | ObjFresh PIC_TYPE_PORT | ObjFresh PIC_TYPE_STRING
  | ObjFresh PIC_TYPE_BLOB => true
  | ObjFresh _ => false
  | _ => true
  end.

(** The root pointers, in the order in which [gc_mark_phase] visits
    them. *)
Definition arena_roots pic : list addr :=
  omap id (take (Z.to_nat (arena_idx pic)) (arena pic)).

Definition roots pic : list addr :=
  option_list (cp pic)
  ++ value_ptrs (stack pic)
  ++ omap id (ci pic)
  ++ arena_roots pic
  ++ concat (ireps pic)
  ++ value_ptrs [globals pic; macros pic; err pic; features pic]
  ++ flat_map (fun lib => [lib.1.1; lib.1.2; lib.2]) (ltable pic).

(** Liveness with ephemerons: the roots are live, what a live object
    points to is live, and the value of an entry of a live weak map is
    live once its key is. *)
Inductive live pic : addr → Prop :=
| live_root a :
    a ∈ roots pic → live pic a
| live_child a o c :
    live pic a → objects pic !! a = Some o → c ∈ trace_children o →
    live pic c
| live_weak w hash prev k p :
    live pic w → objects pic !! w = Some (ObjWeak hash prev) →
    (k, pic_obj_value p) ∈ hash → live pic k →
    live pic p.

(** ** The tracer as a relation

    [marks_object pic obj pic'] describes a terminated call
    [gc_mark_object(pic, obj)] without its recursion budget: either the
    object is marked already, or it is a weak map, which is marked and
    pushed on the chain, or it is marked and its children are traced one
    after the other. *)
Definition marked_state pic obj : pic_state U :=
  set_heap (mark (heap pic) obj) pic.

Definition pushed_state pic obj (hash : list (addr * pic_value)) : pic_state U :=
  set_weaks (Some obj)
    (set_objects (<[obj := ObjWeak hash (weaks pic)]> (objects pic)) pic).

Definition is_weak (o : object) : bool :=
  match o with ObjWeak _ _ => true | _ => false end.

Inductive marks_object : pic_state U → addr → pic_state U → Prop :=
| marks_seen pic obj :
    is_marked (heap pic) obj = true →
    marks_object pic obj pic
| marks_weak pic obj hash prev :
    is_marked (heap pic) obj = false →
    objects pic !! obj = Some (ObjWeak hash prev) →
    marks_object pic obj (pushed_state (marked_state pic obj) obj hash)
| marks_trace pic obj o pic' :
    is_marked (heap pic) obj = false →
    objects pic !! obj = Some o →
    is_weak o = false →
    traceable o = true →
    marks_list (marked_state pic obj) (trace_children o) pic' →
    marks_object pic obj pic'
with marks_list : pic_state U → list addr → pic_state U → Prop :=
| marks_nil pic :
    marks_list pic [] pic
| marks_cons pic obj pic1 l pic' :
    marks_object pic obj pic1 →
    marks_list pic1 l pic' →
    marks_list pic (obj :: l) pic'.

(** An object up to the transient [prev] link of a weak map, the only
    field that marking writes. *)
Definition shape (o : object) : object :=
  match o with
  | ObjWeak hash _ => ObjWeak hash None
  | _ => o
  end.

Definition same_shape (m m' : gmap addr object) : Prop :=
  ∀ x, shape <$> (m !! x) = shape <$> (m' !! x).

(** The fields that marking leaves alone: all but the mark bits, the
    cells and the chain head. *)
Definition same_frame pic pic' : Prop :=
  ∃ h m w, pic' = set_weaks w (set_objects m (set_heap h pic)).

(** [chain m head ws]: following [prev] from [head] visits the weak maps
    [ws] and ends in a null pointer. *)
Inductive chain (m : gmap addr object) : option addr → list addr → Prop :=
| chain_nil : chain m None []
| chain_cons w hash prev ws :
    m !! w = Some (ObjWeak hash prev) →
    chain m prev ws →
    chain m (Some w) (w :: ws).

(** The number of cells that are not marked. *)
Definition unmarked_count pic : nat :=
  size (filter (fun x => is_marked (heap pic) x = false) (dom (objects pic))).

(** What a terminated marking call does to the state: the frame stays,
    the cells keep their shape, marks are only added, a cell that was
    marked before is not written, and every new mark is on a cell. *)
Definition mark_ext pic pic' : Prop :=
  same_frame pic pic'
  ∧ same_shape (objects pic) (objects pic')
  ∧ (∀ x, is_marked (heap pic) x = true →
          is_marked (heap pic') x = true
          ∧ objects pic' !! x = objects pic !! x)
  ∧ (∀ x, is_marked (heap pic') x = true →
          is_marked (heap pic) x = true ∨ x ∈ dom (objects pic)).

(** An edge of the object graph. *)
Definition edge (m : gmap addr object) (a c : addr) : Prop :=
  ∃ o, m !! a = Some o ∧ c ∈ trace_children o.

(** Every marked cell outside [P] has all its children marked. *)
Definition closed_except (P : gset addr) pic : Prop :=
  ∀ x o c, is_marked (heap pic) x = true → x ∉ P →
    objects pic !! x = Some o → c ∈ trace_children o →
    is_marked (heap pic) c = true.

(** The chain holds exactly the marked weak maps, each once. *)
Definition chain_ok pic : Prop :=
  ∃ ws, chain (objects pic) (weaks pic) ws
        ∧ NoDup ws
        ∧ ∀ w, w ∈ ws ↔
               is_marked (heap pic) w = true
               ∧ ∃ hash prev, objects pic !! w = Some (ObjWeak hash prev).

(** The invariant of the mark phase that started in [pic0]: only live
    objects are marked, the marked part is closed under the edges of the
    graph, the roots are marked, and the chain is in step. *)
Definition mark_inv pic0 pic : Prop :=
  mark_ext pic0 pic
  ∧ (∀ x, is_marked (heap pic) x = true → live pic0 x)
  ∧ closed_except ∅ pic
  ∧ (∀ r, r ∈ roots pic0 → is_marked (heap pic) r = true)
  ∧ chain_ok pic
  ∧ (∀ x, is_marked (heap pic) x = true → x ∈ dom (objects pic)).

(** Every entry of a marked weak map whose key is marked has its value
    marked. *)
Definition ephemeron_closed pic : Prop :=
  ∀ w hash prev k p,
    is_marked (heap pic) w = true →
    objects pic !! w = Some (ObjWeak hash prev) →
    (k, pic_obj_value p) ∈ hash →
    is_marked (heap pic) k = true →
    is_marked (heap pic) p = true.

(** The same for the entries in a list, in a given state. *)
Definition entries_closed pic (es : list (addr * pic_value)) : Prop :=
  ∀ k p, (k, pic_obj_value p) ∈ es →
    is_marked (heap pic) k = true → is_marked (heap pic) p = true.

(** Well-formed heaps: no cell that the tracer cannot read, no pointer
    out of the cells, and an arena window of initialised slots. *)
Definition graph_wf (m : gmap addr object) : Prop :=
  (∀ x o, m !! x = Some o →
     traceable o = true ∧ ∀ c, c ∈ trace_children o → c ∈ dom m)
  ∧ (∀ w hash prev k p, m !! w = Some (ObjWeak hash prev) →
       (k, pic_obj_value p) ∈ hash → p ∈ dom m).

Definition roots_wf pic : Prop :=
  (∀ r, r ∈ roots pic → r ∈ dom (objects pic))
  ∧ (∀ i, (i < Z.to_nat (arena_idx pic))%nat →
       ∃ obj, arena pic !! i = Some (Some obj)).

(** Executable forms of the two conditions. *)
Definition cell_ok (m : gmap addr object) (o : object) : bool :=
  traceable o
  && forallb (fun c => bool_decide (is_Some (m !! c))) (trace_children o)
  && match o with
     | ObjWeak hash _ =>
         forallb (fun e : addr * pic_value =>
                    match pic_obj_ptr e.2 with
                    | Some p => bool_decide (is_Some (m !! p))
                    | None => true
                    end) hash
     | _ => true
     end.

Definition graph_wfb (m : gmap addr object) : bool :=
  forallb (fun xo : addr * object => cell_ok m xo.2) (map_to_list m).

Definition roots_wfb pic : bool :=
  forallb (fun r => bool_decide (is_Some (objects pic !! r))) (roots pic)
  && (Z.to_nat (arena_idx pic) <=? length (arena pic))%nat
  && forallb (fun slot : option addr => bool_decide (is_Some slot))
       (take (Z.to_nat (arena_idx pic)) (arena pic)).

(** The claim that the value of every entry of every weak map is retained,
    and the entry kept, exactly when the key is live, stated on the marks
    that the page sweep sees and on the entries after the purge. *)
Definition weak_value_iff_key (fuel : nat) pic : Prop :=
  ∀ pic_m pic_s w hash prev k p,
    gc_mark_phase fuel pic = Ret pic_m →
    sweep_weaks fuel pic_m = Ret pic_s →
    objects pic !! w = Some (ObjWeak hash prev) →
    (k, pic_obj_value p) ∈ hash →
    (is_marked (heap pic_m) p = true
     ∧ (∃ hash' prev', objects pic_s !! w = Some (ObjWeak hash' prev')
                       ∧ (k, pic_obj_value p) ∈ hash'))
    ↔ live pic k.

(** The condition under which [pic_obj_alloc_unsafe] gives up: after the
    optional stress collection, the first attempt fails, the collection
    returns, the second attempt fails, the page request returns, and the
    third attempt fails. *)
Definition alloc_exhausted (fuel : nat) pic (size : Z) : Prop :=
  ∃ pic0 pic1 pic2 pic3 pic4 pic5,
    (if GC_STRESS then pic_gc fuel pic else Ret pic) = Ret pic0
    ∧ call_heap_alloc pic0 size = (None, pic1)
    ∧ pic_gc fuel pic1 = Ret pic2
    ∧ call_heap_alloc pic2 size = (None, pic3)
    ∧ call_heap_morecore pic3 = Ret pic4
    ∧ call_heap_alloc pic4 size = (None, pic5).

(** ** Clients of the arena

    The window of arena slots that the mark phase scans, and the programs
    that a client of the arena runs: pushes, and scopes bracketed by
    [pic_enter] and [pic_leave]. *)
Definition arena_window pic : list (option addr) :=
  take (Z.to_nat (arena_idx pic)) (arena pic).

Fixpoint run_op (op : arena_op) pic : outcome (pic_state U) :=
  match op with
  | Protect v => '(_, pic) ← pic_protect pic v; Ret pic
  | Scope body =>
      let m := pic_enter pic in
      pic ← for_each (fun pic op => run_op op pic) body pic;
      Ret (pic_leave pic m)
  end.

Definition run_ops (ops : list arena_op) pic : outcome (pic_state U) :=
  for_each (fun pic op => run_op op pic) ops pic.

(** The arena window lies within the slots, and the slots within the
    address space. *)
Definition arena_ok pic : Prop :=
  0 ≤ arena_idx pic ≤ Z.of_nat (length (arena pic))
  ∧ Z.of_nat (length (arena pic)) < SIZE_MOD.

(** What a client program does to the arena: the window it started with
    is still there, below whatever it pushed. *)
Definition extends_window pic pic' : Prop :=
  arena_ok pic'
  ∧ arena_idx pic ≤ arena_idx pic'
  ∧ take (Z.to_nat (arena_idx pic)) (arena pic')
    = take (Z.to_nat (arena_idx pic)) (arena pic).

(** ** Further notions used below *)

(** A call in which [pic_panic] is not reached. *)
Definition no_panic {A : Type} (m : outcome A) : Prop :=
  ∀ msg, m ≠ Panic msg.


(** [reach_unmarked pic a x]: a path of edges from [a] to [x] all of whose
    objects are unmarked in [pic]. *)
Inductive reach_unmarked pic : addr → addr → Prop :=
| reach_here a :
    is_marked (heap pic) a = false → reach_unmarked pic a a
| reach_step a c x :
    is_marked (heap pic) a = false → edge (objects pic) a c →
    reach_unmarked pic c x → reach_unmarked pic a x.

(** The fields that neither a collection nor an allocation writes: all
    but the mark bits and pages, the cells, the chain head, the symbol
    table, the allocator's data and the log of the finalizers. *)
Definition same_roots pic pic' : Prop :=
  ∃ u r h m w s,
    pic' = set_oblist s (set_weaks w (set_objects m (set_heap h
             (set_released r (set_userdata u pic))))).

(** ** The page loop, taken apart

    What the page loop does to the back-end's data, and the objects that
    it hands to the finalizer. *)

(** [inuse], [total] and the heap after the loop. *)
Definition sweep_heap (h : heap_t) (pages : list heap_page) : Z * Z * heap_t :=
  foldl (fun '(inuse, total, h) page =>
           let '(n, h) := page_sweep h page in
           (size_wrap (inuse + n), size_wrap (total + PAGE_UNITS), h))
        (0, 0, h) pages.

(** The objects that the loop finalizes, in its order: of each page the
    objects that carry no mark when the page is reached. *)
Fixpoint sweep_dead (h : heap_t) (pages : list heap_page) : list addr :=
  match pages with
  | [] => []
  | page :: pages =>
      filter (fun x => is_marked h x = false) (page_objects h page)
      ++ sweep_dead (page_sweep h page).2 pages
  end.

(** The heap when the loop has gone through [pages]. *)
Definition heap_after (h : heap_t) (pages : list heap_page) : heap_t :=
  foldl (fun h page => (page_sweep h page).2) h pages.

(** The external calls of the finalizer of [obj]. *)
Definition finalizer_calls pic obj : list release :=
  match gc_finalize_object pic obj with
  | Ret (rel, _) => rel
  | _ => []
  end.

(** The cells on which the finalizer reaches no [PIC_UNREACHABLE] and
    reads no field that was never written. *)
Definition finalizable (o : object) : bool :=
  match o with
  | ObjFresh PIC_TYPE_SYMBOL | ObjFresh PIC_TYPE_PAIR
  | ObjFresh PIC_TYPE_CXT | ObjFresh PIC_TYPE_PORT
  | ObjFresh PIC_TYPE_ERROR | ObjFresh PIC_TYPE_ID
  | ObjFresh PIC_TYPE_RECORD | ObjFresh PIC_TYPE_CP
  | ObjFresh PIC_TYPE_FUNC => true
  | ObjFresh _ => false
  | _ => true
  end.

(** The claim that [pic_obj_alloc_unsafe] panics only after a third
    failed attempt. *)
Definition panic_needs_three_failures (fuel : nat) pic (size : Z)
    (type : pic_type) : Prop :=
  ∀ msg, pic_obj_alloc_unsafe fuel pic size type = Panic msg →
         alloc_exhausted fuel pic size.

End State.
Arguments pic_state {_} U.

(** ** A small back-end to run the definitions on

    Cells are whole objects of [CELL_UNITS] units; a page is the list of
    its cells; a mark is membership in a list, cleared by [gc_init] as the
    bitmap back-end clears its bitmaps.  New pages come from a finite
    supply, after which the page request panics like [pic_malloc]. *)
Module CellHeap.

Record t : Type := mk {
  marks : list addr;
  free : list addr;
  pages : list (list addr);
  supply : list (list addr)
}.

Definition CELL_UNITS : Z := 4.

Definition memb (a : addr) (l : list addr) : bool := existsb (Pos.eqb a) l.

Definition alloc (h : t) (size : Z) : option addr * t :=
  if CELL_UNITS <? size then (None, h)
  else match free h with
       | a :: rest => (Some a, mk (marks h) rest (pages h) (supply h))
       | [] => (None, h)
       end.

Definition morecore (h : t) : outcome t :=
  match supply h with
  | p :: rest => Ret (mk (marks h) (p ++ free h) (p :: pages h) rest)
  | [] => Panic "memory exhausted"
  end.

Definition init (h : t) : t := mk [] (free h) (pages h) (supply h).

Definition sweep_page (h : t) (page : list addr) : Z * t :=
  let live := filter (fun a => memb a (marks h) = true) page in
  let dead := filter (fun a => memb a (marks h) = false
                               ∧ memb a (free h) = false) page in
  (CELL_UNITS * Z.of_nat (length live),
   mk (filter (fun a => memb a page = false) (marks h))
      (dead ++ free h) (pages h) (supply h)).

Definition objects_of (h : t) (page : list addr) : list addr :=
  filter (fun a => memb a (free h) = false) page.

Definition set_mark (h : t) (a : addr) : t :=
  mk (a :: marks h) (free h) (pages h) (supply h).

Definition clear_mark (h : t) (a : addr) : t :=
  mk (filter (fun b => Pos.eqb a b = false) (marks h))
     (free h) (pages h) (supply h).

End CellHeap.

Definition cell_backend : Backend.
Proof.
  refine {|
    heap_t := CellHeap.t;
    heap_page := list addr;
    GC_STRESS := false;
    PIC_USE_BITMAPGC := true;
    PAGE_UNITS := 2 * CellHeap.CELL_UNITS;
    PIC_PAGE_REQUEST_THRESHOLD := fun total => total * 77 / 100;
    heap_pages := CellHeap.pages;
    heap_alloc := CellHeap.alloc;
    heap_morecore := CellHeap.morecore;
    gc_init := CellHeap.init;
    page_objects := CellHeap.objects_of;
    page_sweep := CellHeap.sweep_page;
    is_marked := fun h a => CellHeap.memb a (CellHeap.marks h);
    mark := CellHeap.set_mark;
    set_white := CellHeap.clear_mark
  |}.
  intros h a b. unfold CellHeap.memb; simpl. f_equal.
  destruct (Pos.eqb_spec b a) as [->|Hne].
  - by rewrite bool_decide_eq_true_2.
  - by rewrite bool_decide_eq_false_2.
Defined.

#[local] Existing Instance cell_backend.

(** A bump allocator for [allocf]: [userdata] is the next free address and
    the break above which requests fail. *)
Definition bump_allocf (u : Z * Z) (p : ptr) (size : Z) : ptr * (Z * Z) :=
  if size =? 0 then (NULL, u)
  else if u.1 + size <=? u.2 then (u.1, (u.1 + size, u.2))
  else (NULL, u).

(** An interpreter with an empty heap of one two-cell page, both cells
    free, one more page in supply, and an empty arena of capacity 0. *)
Definition empty_pic : pic_state (Z * Z) := {|
  allocf := bump_allocf;
  userdata := (4096, 8192);
  memory := ∅;
  gc_enable := true;
  arena_base := NULL;
  arena := [];
  arena_size := 0;
  arena_idx := 0;
  cp := None;
  stack := [];
  ci := [];
  ireps := [];
  globals := pic_nil_value;
  macros := pic_nil_value;
  err := pic_nil_value;
  features := pic_nil_value;
  ltable := [];
  oblist := [];
  objects := ∅;
  weaks := None;
  heap := CellHeap.mk [] [1; 2]%positive [[1; 2]%positive] [[3; 4]%positive];
  released := []
|}.

(** An interpreter whose heap holds the cells [objs], with the arena
    holding [protected] and no other root. *)
Definition example_pic (objs : list (addr * object)) (protected : list addr)
    (h : CellHeap.t) : pic_state (Z * Z) :=
  set_heap h
    (set_objects (list_to_map objs)
       (set_arena_idx (Z.of_nat (length protected))
          (set_arena 4096 (Some <$> protected)
             (Z.of_nat (length protected)) empty_pic))).

(** Both cells of the only page in use and protected. *)
Definition full_pic : pic_state (Z * Z) :=
  example_pic [(1, ObjString 0); (2, ObjString 0)]%positive [1; 2]%positive
    (CellHeap.mk [] [] [[1; 2]%positive] [[3; 4]%positive]).

(** The same with the collector switched off. *)
Definition full_pic_nogc : pic_state (Z * Z) :=
  mk_pic_state (Z * Z) (allocf full_pic) (userdata full_pic) (memory full_pic)
    false (arena_base full_pic) (arena full_pic) (arena_size full_pic)
    (arena_idx full_pic) (cp full_pic) (stack full_pic) (ci full_pic)
    (ireps full_pic) (globals full_pic) (macros full_pic) (err full_pic)
    (features full_pic) (ltable full_pic) (oblist full_pic) (objects full_pic)
    (weaks full_pic) (heap full_pic) (released full_pic).

(** [full_pic] as the mark phase leaves it. *)
Definition full_pic_marked : pic_state (Z * Z) :=
  set_heap (CellHeap.mk [2; 1]%positive [] [[1; 2]%positive] [[3; 4]%positive])
    full_pic.

(** A weak map 1 with the chain of entries 2 -> 3, 3 -> 4, 4 -> 5 and the
    entry 6 -> 7; only the map and the key 2 are protected. *)
Definition ephemeron_pic : pic_state (Z * Z) :=
  example_pic
    [(1, ObjWeak [(2, pic_obj_value 3); (3, pic_obj_value 4);
                  (4, pic_obj_value 5); (6, pic_obj_value 7)] None);
     (2, ObjString 0); (3, ObjString 0); (4, ObjString 0);
     (5, ObjString 0); (6, ObjString 0); (7, ObjString 0)]%positive
    [1; 2]%positive
    (CellHeap.mk [] [] [[1; 2; 3; 4; 5; 6; 7]%positive] []).

(** A weak map 1 with the entry 2 -> 3 that nothing points to; only the
    key 2 is protected. *)
Definition dead_weak_pic : pic_state (Z * Z) :=
  example_pic
    [(1, ObjWeak [(2, pic_obj_value 3)] None);
     (2, ObjString 0); (3, ObjString 0)]%positive
    [2]%positive
    (CellHeap.mk [] [] [[1; 2; 3]%positive] []).

(** Two interned symbols, of which only "bar" is protected. *)
Definition symbols_pic : pic_state (Z * Z) :=
  set_oblist [("foo"%string, Some 2%positive); ("bar"%string, Some 4%positive)]
    (example_pic
       [(1, ObjString 0); (2, ObjSymbol 1);
        (3, ObjString 1); (4, ObjSymbol 3)]%positive
       [4]%positive
       (CellHeap.mk [] [] [[1; 2; 3; 4]%positive] [[5; 6]%positive])).

(** A graph with a cycle: the pairs 1 and 2 point to each other, 1 also
    points to the pair 3, which points to the string 4; nothing points to
    the string 5. *)
Definition cyclic_objs : list (addr * object) :=
  [(1, ObjPair (pic_obj_value 2) (pic_obj_value 3));
   (2, ObjPair (pic_obj_value 1) pic_nil_value);
   (3, ObjPair (pic_obj_value 4) pic_nil_value);
   (4, ObjString 0); (5, ObjString 0)]%positive.

(** The graph with no cell protected. *)
Definition cyclic_pic : pic_state (Z * Z) :=
  example_pic cyclic_objs []
    (CellHeap.mk [] [] [[1; 2; 3; 4; 5]%positive] []).

(** The graph with the pair 1 protected. *)
Definition cyclic_rooted_pic : pic_state (Z * Z) :=
  example_pic cyclic_objs [1]%positive
    (CellHeap.mk [] [] [[1; 2; 3; 4; 5]%positive] []).

(** The graph in the middle of a mark phase, with a mark on 3 only. *)
Definition cyclic_pic_marked3 : pic_state (Z * Z) :=
  set_heap (CellHeap.mk [3]%positive [] [[1; 2; 3; 4; 5]%positive] [])
    cyclic_pic.

(** A heap of four pages with a live weak map, live and dead keys, a
    live and a dead symbol, a dead vector and a dead DATA object with a
    destructor; one page in supply.  The weak map 1, the key 2 and the
    symbol 4 are protected. *)
Definition buf_type : pic_data_type :=
  {| dt_name := "buf"; dt_dtor := true; dt_mark := None |}.

Definition mixed_pic : pic_state (Z * Z) :=
  set_oblist [("foo"%string, Some 8%positive); ("bar"%string, Some 4%positive)]
    (example_pic
       [(1, ObjWeak [(2, pic_obj_value 3); (6, pic_obj_value 7)] None);
        (2, ObjString 10); (3, ObjString 11); (4, ObjSymbol 2);
        (5, ObjVector 4100 [pic_obj_value 6]); (6, ObjString 12);
        (7, ObjData buf_type 4200); (8, ObjSymbol 6)]%positive
       [1; 2; 4]%positive
       (CellHeap.mk [] []
          [[1; 2]; [3; 4]; [5; 6]; [7; 8]]%positive [[9; 10]%positive])).

(** [mixed_pic] as the mark phase leaves it. *)
Definition mixed_pic_marked : pic_state (Z * Z) :=
  set_weaks (Some 1%positive)
    (set_heap (CellHeap.mk [3; 4; 2; 1]%positive []
                 [[1; 2]; [3; 4]; [5; 6]; [7; 8]]%positive [[9; 10]%positive])
       mixed_pic).

(** Both cells of the only page live, and no page left in supply: the
    memory is exhausted. *)
Definition exhausted_pic : pic_state (Z * Z) :=
  example_pic [(1, ObjString 0); (2, ObjString 0)]%positive [1; 2]%positive
    (CellHeap.mk [] [] [[1; 2]%positive] []).

(** A dead cell whose tag is written and whose payload is not. *)
Definition fresh_string_pic : pic_state (Z * Z) :=
  example_pic [(1, ObjString 0); (2, ObjFresh PIC_TYPE_STRING)]%positive
    [1]%positive
    (CellHeap.mk [] [] [[1; 2]%positive] [[3; 4]%positive]).

(** * Properties *)

Section Properties.
Context {B : Backend} {U : Type}.
Implicit Types (pic : pic_state U) (obj : addr) (v : pic_value).

(** ** Arithmetic of [size_t] *)

Lemma size_wrap_small (z : Z) : 0 ≤ z < SIZE_MOD → size_wrap z = z.
Proof. intros Hz. unfold size_wrap. by apply Z.mod_small. Qed.

Lemma size_wrap_range (z : Z) : 0 ≤ size_wrap z < SIZE_MOD.
Proof. unfold size_wrap. apply Z.mod_pos_bound. by vm_compute. Qed.

(** ** The outcome monad *)

Lemma bind_Ret_inv {A C : Type} (m : outcome A) (f : A → outcome C) (c : C) :
  m ≫= f = Ret c → ∃ a, m = Ret a ∧ f a = Ret c.
Proof. destruct m; simpl; try discriminate. eauto. Qed.

Lemma for_each_app {A S : Type} (f : S → A → outcome S) (l1 l2 : list A) (s : S) :
  for_each f (l1 ++ l2) s = for_each f l1 s ≫= for_each f l2.
Proof.
  revert s. induction l1 as [|x l1 IH]; intros s; simpl; [done|].
  destruct (f s x); simpl; auto.
Qed.

(** ** The allocator shim *)

Lemma pic_realloc_inv pic (p : ptr) (size : Z) (q : ptr) pic' :
  pic_realloc pic p size = Ret (q, pic') →
  ∃ u, allocf pic (userdata pic) p size = (q, u)
       ∧ pic' = set_userdata u pic
       ∧ (q = NULL → size ≤ 0).
Proof.
  unfold pic_realloc, call_allocf.
  destruct (allocf pic (userdata pic) p size) as [q0 u] eqn:Ha.
  destruct ((q0 =? NULL) && (0 <? size)) eqn:Hc; [discriminate|].
  intros Hr; inversion Hr; subst. exists u. repeat split.
  intros ->. rewrite Z.eqb_refl in Hc. simpl in Hc. by apply Z.ltb_ge.
Qed.

(** ** The root arena *)

Lemma gc_protect_inv pic obj pic' :
  arena_ok pic →
  gc_protect pic obj = Ret pic' →
  arena_ok pic'
  ∧ arena_idx pic' = arena_idx pic + 1
  ∧ arena pic' !! Z.to_nat (arena_idx pic) = Some (Some obj)
  ∧ take (Z.to_nat (arena_idx pic)) (arena pic')
    = take (Z.to_nat (arena_idx pic)) (arena pic).
Proof.
  intros [Hidx Hlen] Hrun. unfold gc_protect in Hrun.
  apply bind_Ret_inv in Hrun as (pic1 & Hgrow & Hstore).
  assert (arena_idx pic1 = arena_idx pic
          ∧ Z.of_nat (length (arena pic1)) < SIZE_MOD
          ∧ (arena_idx pic1 < Z.of_nat (length (arena pic1)) →
             take (Z.to_nat (arena_idx pic)) (arena pic1)
             = take (Z.to_nat (arena_idx pic)) (arena pic))) as (Hi & Hl & Ht).
  { destruct (arena_size pic <=? arena_idx pic);
      [|inversion Hgrow; subst pic1; by repeat split].
    apply bind_Ret_inv in Hgrow as ([p pic0] & Hre & Hgrow).
    apply pic_realloc_inv in Hre as (u & _ & -> & _).
    inversion Hgrow; subst pic1; clear Hgrow. simpl.
    rewrite length_resize.
    pose proof (size_wrap_range
      (SIZEOF_OBJPTR * size_wrap (arena_size pic * 2 + 1))) as Hb.
    set (bytes := size_wrap _) in *.
    assert (0 ≤ bytes / SIZEOF_OBJPTR < SIZE_MOD) as Hq.
    { unfold SIZEOF_OBJPTR. split; [apply Z.div_pos; lia|].
      apply Z.div_lt_upper_bound; lia. }
    split; [done|]. split; [lia|]. intros Hlt.
    rewrite take_resize_le by lia.
    rewrite resize_le by lia. done. }
  destruct (arena_idx pic1 <? Z.of_nat (length (arena pic1))) eqn:Hlt;
    [|discriminate].
  apply Z.ltb_lt in Hlt. inversion Hstore; subst pic'; clear Hstore.
  unfold arena_ok; simpl. rewrite length_insert, Hi in *.
  rewrite size_wrap_small by lia.
  repeat split; try lia.
  - apply list_lookup_insert_eq. lia.
  - rewrite take_insert_ge by lia. apply Ht. lia.
Qed.

(** C4: [pic_protect] hands its argument back whenever it returns; an
    immediate leaves the state as it is; a heap object is stored at the
    current arena index, and when the index equals the capacity [n] the
    capacity first becomes [2n+1]. *)
Theorem pic_protect_spec pic v :
  (∀ v' pic', pic_protect pic v = Ret (v', pic') → v' = v)
  ∧ (pic_obj_p v = false → pic_protect pic v = Ret (v, pic))
  ∧ (∀ obj, v = pic_obj_value obj →
       0 ≤ arena_idx pic < arena_size pic →
       arena_idx pic < Z.of_nat (length (arena pic)) →
       arena_size pic < SIZE_MOD →
       ∃ pic', pic_protect pic v = Ret (v, pic')
         ∧ arena_size pic' = arena_size pic
         ∧ arena_idx pic' = arena_idx pic + 1
         ∧ arena pic' = <[Z.to_nat (arena_idx pic) := Some obj]> (arena pic))
  ∧ (∀ obj n p u, v = pic_obj_value obj →
       0 ≤ n → arena_idx pic = n → arena_size pic = n →
       length (arena pic) = Z.to_nat n →
       SIZEOF_OBJPTR * (2 * n + 1) < SIZE_MOD →
       allocf pic (userdata pic) (arena_base pic)
         (SIZEOF_OBJPTR * (2 * n + 1)) = (p, u) →
       p ≠ NULL →
       ∃ pic', pic_protect pic v = Ret (v, pic')
         ∧ arena_size pic' = 2 * n + 1
         ∧ length (arena pic') = Z.to_nat (2 * n + 1)
         ∧ arena_idx pic' = n + 1
         ∧ arena pic'
           = arena pic ++ Some obj :: replicate (Z.to_nat n) None).
Proof.
  split; [|split; [|split]].
  - intros v' pic'. unfold pic_protect.
    destruct (pic_obj_ptr v); [|by inversion 1].
    intros Hrun. apply bind_Ret_inv in Hrun as (? & _ & Hrun).
    by inversion Hrun.
  - intros Himm. unfold pic_protect. by destruct v.
  - intros obj -> Hidx Hlen Hsz. unfold pic_protect, gc_protect; simpl.
    replace (arena_size pic <=? arena_idx pic) with false
      by (symmetry; apply Z.leb_gt; lia).
    simpl. replace (arena_idx pic <? Z.of_nat (length (arena pic))) with true
      by (symmetry; apply Z.ltb_lt; lia).
    simpl. eexists. split; [reflexivity|]. simpl.
    rewrite size_wrap_small by lia. done.
  - intros obj n p u -> Hn Hidx Hsz Hlen Hfit Halloc Hp.
    assert (SIZE_MOD = 18446744073709551616) as HM by reflexivity.
    unfold pic_protect, gc_protect; simpl.
    unfold SIZEOF_OBJPTR in *.
    rewrite Hidx, Hsz. rewrite Z.leb_refl.
    replace (n * 2 + 1) with (2 * n + 1) by lia.
    rewrite (size_wrap_small (2 * n + 1)) by lia.
    rewrite (size_wrap_small (8 * (2 * n + 1))) by lia.
    unfold pic_realloc, call_allocf. rewrite Halloc.
    replace (p =? NULL) with false by (symmetry; by apply Z.eqb_neq).
    simpl. rewrite length_resize.
    replace (8 * (2 * n + 1) / 8) with (2 * n + 1)
      by (symmetry; rewrite Z.mul_comm; apply Z.div_mul; lia).
    rewrite Hidx.
    replace (n <? Z.of_nat (Z.to_nat (2 * n + 1))) with true
      by (symmetry; apply Z.ltb_lt; lia).
    eexists. split; [reflexivity|]. simpl.
    rewrite length_insert, length_resize.
    rewrite size_wrap_small by lia.
    repeat split.
    rewrite resize_ge by lia. rewrite Hlen.
    rewrite insert_app_r_alt by lia.
    rewrite Hlen, Nat.sub_diag.
    replace (Z.to_nat (2 * n + 1) - Z.to_nat n)%nat with (S (Z.to_nat n)) by lia.
    done.
Qed.

Lemma arena_op_ind' (P : arena_op → Prop) :
  (∀ v, P (Protect v)) →
  (∀ body, Forall P body → P (Scope body)) →
  ∀ op, P op.
Proof.
  intros HP HS. fix IH 1. intros [v|body]; [apply HP|].
  apply HS. induction body; constructor; auto.
Qed.

Lemma extends_window_refl pic : arena_ok pic → extends_window pic pic.
Proof. intros Hok. split; [done|]. split; [lia|done]. Qed.

Lemma extends_window_trans pic1 pic2 pic3 :
  arena_ok pic1 →
  extends_window pic1 pic2 → extends_window pic2 pic3 →
  extends_window pic1 pic3.
Proof.
  intros [H1 _] (Hok2 & Hle12 & Ht12) (Hok3 & Hle23 & Ht23).
  split; [done|]. split; [lia|].
  rewrite <- Ht12.
  replace (Z.to_nat (arena_idx pic1))
    with (Z.to_nat (arena_idx pic1) `min` Z.to_nat (arena_idx pic2))%nat by lia.
  rewrite <- !take_take. by rewrite Ht23.
Qed.

Lemma run_ops_extends (ops : list arena_op) :
  Forall (fun op => ∀ pic pic', arena_ok pic → run_op op pic = Ret pic' →
                      extends_window pic pic') ops →
  ∀ pic pic', arena_ok pic → run_ops ops pic = Ret pic' →
    extends_window pic pic'.
Proof.
  unfold run_ops. induction 1 as [|op ops Hop _ IH]; intros pic pic' Hok Hrun.
  - inversion Hrun; subst. by apply extends_window_refl.
  - simpl in Hrun. apply bind_Ret_inv in Hrun as (pic1 & H1 & Hrest).
    pose proof (Hop _ _ Hok H1) as Hext.
    eapply extends_window_trans; [done..|].
    apply IH; [apply Hext | done].
Qed.

Lemma run_op_extends (op : arena_op) pic pic' :
  arena_ok pic → run_op op pic = Ret pic' → extends_window pic pic'.
Proof.
  revert pic pic'. induction op as [v|body IH] using arena_op_ind';
    intros pic pic' Hok Hrun.
  - simpl in Hrun. apply bind_Ret_inv in Hrun as ([v' pic1] & Hp & Hr).
    inversion Hr; subst pic1; clear Hr. unfold pic_protect in Hp.
    destruct (pic_obj_ptr v) as [obj|].
    + apply bind_Ret_inv in Hp as (pic1 & Hp & Hr). inversion Hr; subst.
      destruct (gc_protect_inv _ _ _ Hok Hp) as (? & ? & ? & ?).
      split; [done|]. split; [lia|done].
    + inversion Hp; subst. by apply extends_window_refl.
  - simpl in Hrun. apply bind_Ret_inv in Hrun as (pic1 & Hb & Hr).
    inversion Hr; subst pic'; clear Hr.
    destruct (run_ops_extends body IH pic pic1 Hok Hb) as ([Hi Hl] & Hle & Ht).
    destruct Hok as [Hi0 Hl0].
    unfold extends_window, arena_ok, pic_leave, pic_enter; simpl.
    repeat split; try lia. done.
Qed.

(** C5: [pic_enter] returns the arena index, [pic_leave] sets it and
    touches nothing else, which truncates the window when the mark is
    within it; leaving at the mark just taken changes nothing; a scope,
    whatever is pushed and however scopes nest inside it, ends with the
    index and the window it began with. *)
Theorem arena_discipline pic :
  pic_enter pic = arena_idx pic
  ∧ (∀ m, arena_idx (pic_leave pic m) = m
          ∧ arena (pic_leave pic m) = arena pic)
  ∧ (∀ m, 0 ≤ m ≤ arena_idx pic →
          arena_window (pic_leave pic m) = take (Z.to_nat m) (arena_window pic))
  ∧ pic_leave pic (pic_enter pic) = pic
  ∧ (∀ body pic', arena_ok pic → run_op (Scope body) pic = Ret pic' →
          arena_idx pic' = arena_idx pic
          ∧ arena_window pic' = arena_window pic).
Proof.
  split; [done|]. split; [done|]. split; [|split].
  - intros m Hm. unfold arena_window, pic_leave; simpl.
    rewrite take_take. f_equal. lia.
  - by destruct pic.
  - intros body pic' Hok Hrun.
    pose proof (run_op_extends _ _ _ Hok Hrun) as (_ & _ & Ht).
    simpl in Hrun. apply bind_Ret_inv in Hrun as (pic1 & _ & Hr).
    inversion Hr; subst pic'. unfold arena_window. by split.
Qed.

(** ** [pic_calloc] *)

Lemma memset_zero_lookup (p n : Z) (m : gmap Z Z) (a : Z) :
  memset_zero p n m !! a = if decide (p ≤ a < p + n) then Some 0 else m !! a.
Proof.
  unfold memset_zero.
  assert (∀ l : list Z,
    foldr (fun a m => <[a := 0]> m) m l !! a
    = if decide (a ∈ l) then Some 0 else m !! a) as Hl.
  { induction l as [|x l IH]; simpl.
    - destruct (decide (a ∈ [])) as [Hin|_]; [|done].
      by apply not_elem_of_nil in Hin.
    - destruct (decide (x = a)) as [->|Hne].
      + rewrite lookup_insert_eq.
        destruct (decide (a ∈ a :: l)) as [_|Hin]; [done|].
        exfalso. apply Hin. by left.
      + rewrite lookup_insert_ne by done. rewrite IH.
        destruct (decide (a ∈ l)) as [Hin|Hin],
                 (decide (a ∈ x :: l)) as [Hin'|Hin']; try done.
        * exfalso. apply Hin'. by right.
        * exfalso. apply elem_of_cons in Hin' as [?|?]; by subst. }
  rewrite Hl.
  destruct (decide (a ∈ seqZ p n)) as [Hin|Hin],
           (decide (p ≤ a < p + n)) as [Hr|Hr]; try done.
  - exfalso. apply elem_of_seqZ in Hin. lia.
  - exfalso. apply Hin. apply elem_of_seqZ. lia.
Qed.

(** ** Entry points *)

(** C7: with the collector disabled [pic_gc] returns the state it was
    given; enabled, it runs [gc_init], then the mark phase on the result,
    then the sweep phase on what the mark phase returns. *)
Theorem pic_gc_phases (fuel : nat) pic :
  (gc_enable pic = false → pic_gc fuel pic = Ret pic)
  ∧ (gc_enable pic = true →
       pic_gc fuel pic
       = gc_mark_phase fuel (set_heap (gc_init (heap pic)) pic)
           ≫= gc_sweep_phase fuel).
Proof. unfold pic_gc. split; intros ->; done. Qed.

(** ** The tracer as a walk over [trace_children] *)

Lemma bind_Ret_r {A : Type} (m : outcome A) : m ≫= Ret = m.
Proof. by destruct m. Qed.

Lemma bind_assoc {A C D : Type} (m : outcome A) (f : A → outcome C)
    (g : C → outcome D) :
  (m ≫= f) ≫= g = m ≫= (fun a => f a ≫= g).
Proof. by destruct m. Qed.

Lemma bind_ext {A C : Type} (m : outcome A) (f g : A → outcome C) :
  (∀ a, f a = g a) → m ≫= f = m ≫= g.
Proof. intros Hfg. destruct m; simpl; auto. Qed.

Lemma bind_ext_2 {A C : Type} (m m' : outcome A) (f g : A → outcome C) :
  m = m' → (∀ a, f a = g a) → m ≫= f = m' ≫= g.
Proof. intros -> Hfg. by apply bind_ext. Qed.

Lemma for_each_ext {A S : Type} (f g : S → A → outcome S) (l : list A) (s : S) :
  (∀ s x, f s x = g s x) → for_each f l s = for_each g l s.
Proof.
  intros Hfg. revert s. induction l as [|x l IH]; intros s; simpl; [done|].
  rewrite Hfg. by apply bind_ext.
Qed.

Lemma for_each_omap {A C S : Type} (rec : S → C → outcome S) (g : A → option C)
    (l : list A) (s : S) :
  for_each (fun s x => match g x with Some y => rec s y | None => Ret s end) l s
  = for_each rec (omap g l) s.
Proof.
  revert s. induction l as [|x l IH]; intros s; simpl; [done|].
  destruct (g x); simpl; [by apply bind_ext|auto].
Qed.

Lemma for_each_flat_map {A C S : Type} (rec : S → C → outcome S)
    (g : A → list C) (l : list A) (s : S) :
  for_each (fun s x => for_each rec (g x) s) l s
  = for_each rec (flat_map g l) s.
Proof.
  revert s. induction l as [|x l IH]; intros s; simpl; [done|].
  rewrite for_each_app. by apply bind_ext.
Qed.

Lemma value_ptrs_cons v (vs : list pic_value) :
  value_ptrs (v :: vs) = value_ptrs [v] ++ value_ptrs vs.
Proof. unfold value_ptrs. simpl. by destruct (pic_obj_ptr v). Qed.

Lemma for_each_values (rec : pic_state U → addr → outcome (pic_state U))
    (vs : list pic_value) pic :
  for_each (gc_mark_with rec) vs pic = for_each rec (value_ptrs vs) pic.
Proof. unfold value_ptrs. rewrite <- for_each_omap. by apply for_each_ext. Qed.

Lemma gc_mark_with_values (rec : pic_state U → addr → outcome (pic_state U))
    v pic :
  gc_mark_with rec pic v = for_each rec (value_ptrs [v]) pic.
Proof.
  unfold gc_mark_with, value_ptrs. simpl.
  destruct (pic_obj_ptr v); simpl; [by rewrite bind_Ret_r|done].
Qed.

Lemma mark_nullable_list (rec : pic_state U → addr → outcome (pic_state U))
    (p : option addr) pic :
  mark_nullable rec pic p = for_each rec (option_list p) pic.
Proof. destruct p; simpl; [by rewrite bind_Ret_r|done]. Qed.

Lemma for_each_single {A S : Type} (f : S → A → outcome S) (x : A) (s : S) :
  f s x = for_each f [x] s.
Proof. simpl. by rewrite bind_Ret_r. Qed.

Ltac monad_eq :=
  repeat first
    [ done
    | rewrite bind_Ret_r
    | rewrite bind_assoc
    | rewrite for_each_app
    | apply bind_ext; intros ? ].

Lemma gc_mark_object_unfold (fuel : nat) pic obj :
  gc_mark_object (S fuel) pic obj =
    if is_marked (heap pic) obj then Ret pic
    else match objects pic !! obj with
         | None => Undef
         | Some (ObjWeak hash _) =>
             Ret (pushed_state (marked_state pic obj) obj hash)
         | Some o =>
             if traceable o then
               for_each (gc_mark_object fuel) (trace_children o)
                 (marked_state pic obj)
             else Undef
         end.
Proof.
  cbn [gc_mark_object]. destruct (is_marked (heap pic) obj); [done|].
  change (objects (set_heap (mark (heap pic) obj) pic)) with (objects pic).
  destruct (objects pic !! obj) as [o|]; [|done].
  set (rec := gc_mark_object fuel).
  fold (marked_state pic obj). set (pic1 := marked_state pic obj).
  destruct o; cbn [traceable trace_children].
  - (* PAIR *)
    rewrite (value_ptrs_cons car), for_each_app.
    rewrite (gc_mark_with_values rec car). apply bind_ext; intros ?.
    apply gc_mark_with_values.
  - (* CXT *)
    rewrite for_each_app, for_each_values. apply bind_ext; intros ?.
    apply mark_nullable_list.
  - (* FUNC *) apply for_each_values.
  - (* IREP *) apply mark_nullable_list.
  - (* PORT *) done.
  - (* ERROR *)
    cbn [app for_each]. apply bind_ext; intros ?. apply bind_ext; intros ?.
    rewrite for_each_app, gc_mark_with_values. apply bind_ext; intros ?.
    apply for_each_single.
  - (* STRING *) done.
  - (* VECTOR *) apply for_each_values.
  - (* BLOB *) done.
  - (* ID *)
    cbn [for_each]. apply bind_ext; intros ?. by rewrite bind_Ret_r.
  - (* ENV *)
    rewrite for_each_app, <- for_each_flat_map. apply bind_ext_2.
    + apply for_each_ext. intros ? ?. cbn [for_each]. monad_eq.
    + intros ?. apply mark_nullable_list.
  - (* DATA *)
    destruct (dt_mark type); [apply for_each_values|done].
  - (* DICT *)
    rewrite <- for_each_flat_map. apply for_each_ext. intros ? kv.
    rewrite (value_ptrs_cons kv.1), for_each_app.
    rewrite (gc_mark_with_values rec kv.1). apply bind_ext; intros ?.
    apply gc_mark_with_values.
  - (* RECORD *)
    rewrite (value_ptrs_cons type), for_each_app.
    rewrite (gc_mark_with_values rec type). apply bind_ext; intros ?.
    apply gc_mark_with_values.
  - (* SYMBOL *) apply for_each_single.
  - (* WEAK *) done.
  - (* CP *)
    rewrite for_each_app, mark_nullable_list. apply bind_ext; intros ?.
    rewrite for_each_app, mark_nullable_list. apply bind_ext; intros ?.
    apply mark_nullable_list.
  - (* a cell with only its tag *)
    by destruct tag.
Qed.

Scheme marks_object_mut := Minimality for marks_object Sort Prop
  with marks_list_mut := Minimality for marks_list Sort Prop.
Combined Scheme marks_mutind from marks_object_mut, marks_list_mut.

Lemma for_each_marks_list (rec : pic_state U → addr → outcome (pic_state U)) :
  (∀ pic obj pic', rec pic obj = Ret pic' → marks_object pic obj pic') →
  ∀ l pic pic', for_each rec l pic = Ret pic' → marks_list pic l pic'.
Proof.
  intros Hrec. induction l as [|x l IH]; intros pic pic' Hrun; simpl in Hrun.
  - inversion Hrun; subst. constructor.
  - apply bind_Ret_inv in Hrun as (pic1 & Hx & Hl).
    econstructor; eauto.
Qed.

Lemma gc_mark_object_marks (fuel : nat) pic obj pic' :
  gc_mark_object fuel pic obj = Ret pic' → marks_object pic obj pic'.
Proof.
  revert pic obj pic'. induction fuel as [|fuel IH]; intros pic obj pic' Hrun;
    [discriminate|].
  rewrite gc_mark_object_unfold in Hrun.
  destruct (is_marked (heap pic) obj) eqn:Hm.
  { inversion Hrun; subst. by constructor. }
  destruct (objects pic !! obj) as [o|] eqn:Ho; [|discriminate].
  destruct (is_weak o) eqn:Hw.
  { destruct o; try discriminate. inversion Hrun; subst.
    by econstructor. }
  assert (traceable o = true
          ∧ for_each (gc_mark_object fuel) (trace_children o)
              (marked_state pic obj) = Ret pic') as [Ht Hl].
  { destruct o; try discriminate Hw; try (split; [done|exact Hrun]).
    destruct (traceable (ObjFresh tag)); [done|discriminate]. }
  eapply marks_trace; eauto.
  eapply for_each_marks_list; eauto.
Qed.

(** ** What marking preserves *)

Lemma same_frame_refl pic : same_frame pic pic.
Proof. exists (heap pic), (objects pic), (weaks pic). by destruct pic. Qed.

Lemma same_frame_trans pic1 pic2 pic3 :
  same_frame pic1 pic2 → same_frame pic2 pic3 → same_frame pic1 pic3.
Proof.
  intros (h1 & m1 & w1 & ->) (h2 & m2 & w2 & ->). by exists h2, m2, w2.
Qed.

Lemma same_shape_refl (m : gmap addr object) : same_shape m m.
Proof. by intros x. Qed.

Lemma same_shape_trans (m1 m2 m3 : gmap addr object) :
  same_shape m1 m2 → same_shape m2 m3 → same_shape m1 m3.
Proof. intros H12 H23 x. by rewrite H12. Qed.

Lemma same_shape_sym (m1 m2 : gmap addr object) :
  same_shape m1 m2 → same_shape m2 m1.
Proof. intros H12 x. by rewrite H12. Qed.

Lemma same_shape_dom (m1 m2 : gmap addr object) :
  same_shape m1 m2 → dom m1 = dom m2.
Proof.
  intros Hs. apply set_eq. intros x. rewrite !elem_of_dom.
  specialize (Hs x). destruct (m1 !! x), (m2 !! x); naive_solver.
Qed.

Lemma same_shape_lookup (m1 m2 : gmap addr object) (x : addr) (o : object) :
  same_shape m1 m2 → m1 !! x = Some o →
  ∃ o', m2 !! x = Some o' ∧ shape o' = shape o.
Proof.
  intros Hs Hx. specialize (Hs x). rewrite Hx in Hs.
  destruct (m2 !! x) as [o'|]; [|discriminate]. inversion Hs. eauto.
Qed.

Lemma trace_children_shape (o : object) :
  trace_children (shape o) = trace_children o.
Proof. by destruct o. Qed.

Lemma shape_children (o o' : object) :
  shape o' = shape o → trace_children o' = trace_children o.
Proof.
  intros Hs. by rewrite <- (trace_children_shape o'), Hs, trace_children_shape.
Qed.

Lemma shape_is_weak (o o' : object) :
  shape o' = shape o → is_weak o' = is_weak o.
Proof. destruct o, o'; simpl; congruence. Qed.

Lemma shape_weak_hash (o' : object) hash prev :
  shape o' = shape (ObjWeak hash prev) → ∃ prev', o' = ObjWeak hash prev'.
Proof. destruct o'; simpl; intros Hs; inversion Hs; eauto. Qed.

Lemma edge_shape (m1 m2 : gmap addr object) (a c : addr) :
  same_shape m1 m2 → edge m1 a c → edge m2 a c.
Proof.
  intros Hs (o & Ho & Hc).
  destruct (same_shape_lookup _ _ _ _ Hs Ho) as (o' & Ho' & Hsh).
  exists o'. split; [done|]. by rewrite (shape_children _ _ Hsh).
Qed.

Lemma mark_ext_refl pic : mark_ext pic pic.
Proof.
  split; [apply same_frame_refl|]. split; [apply same_shape_refl|].
  split; [done|]. by left.
Qed.

Lemma mark_ext_trans pic1 pic2 pic3 :
  mark_ext pic1 pic2 → mark_ext pic2 pic3 → mark_ext pic1 pic3.
Proof.
  intros (Hf1 & Hs1 & Hm1 & Hd1) (Hf2 & Hs2 & Hm2 & Hd2).
  split; [by eapply same_frame_trans|].
  split; [by eapply same_shape_trans|]. split.
  - intros x Hx. destruct (Hm1 x Hx) as [Hx2 Ho2].
    destruct (Hm2 x Hx2) as [Hx3 Ho3]. split; [done|congruence].
  - intros x Hx. destruct (Hd2 x Hx) as [Hx2|Hx2].
    + by apply Hd1.
    + right. by rewrite (same_shape_dom _ _ Hs1).
Qed.

Lemma mark_ext_marked_state pic obj :
  obj ∈ dom (objects pic) → mark_ext pic (marked_state pic obj).
Proof.
  intros Hdom. split.
  { exists (mark (heap pic) obj), (objects pic), (weaks pic). by destruct pic. } split; [apply same_shape_refl|].
  unfold marked_state; simpl. split.
  - intros x Hx. rewrite is_marked_mark, Hx. by rewrite orb_true_r.
  - intros x. rewrite is_marked_mark. intros [Hx|Hx]%orb_true_iff.
    + apply bool_decide_eq_true in Hx as <-. by right.
    + by left.
Qed.

Lemma mark_ext_pushed_state pic obj hash prev :
  is_marked (heap pic) obj = false →
  objects pic !! obj = Some (ObjWeak hash prev) →
  mark_ext pic (pushed_state (marked_state pic obj) obj hash).
Proof.
  intros Hm Ho. split; [by eexists _, _, _|]. unfold pushed_state; simpl. split.
  - intros x. destruct (decide (x = obj)) as [->|Hne].
    + by rewrite lookup_insert_eq, Ho.
    + by rewrite lookup_insert_ne.
  - split.
    + intros x Hx. rewrite is_marked_mark, Hx, orb_true_r. split; [done|].
      rewrite lookup_insert_ne; [done|]. intros ->. congruence.
    + intros x. rewrite is_marked_mark. intros [Hx|Hx]%orb_true_iff.
      * apply bool_decide_eq_true in Hx as <-. right.
        apply elem_of_dom. eauto.
      * by left.
Qed.

Lemma marks_mark_ext :
  (∀ pic obj pic', marks_object pic obj pic' → mark_ext pic pic')
  ∧ (∀ pic l pic', marks_list pic l pic' → mark_ext pic pic').
Proof.
  apply marks_mutind.
  - intros. apply mark_ext_refl.
  - intros. by eapply mark_ext_pushed_state.
  - intros pic obj o pic' Hm Ho _ _ _ IH.
    eapply mark_ext_trans; [|exact IH].
    apply mark_ext_marked_state. apply elem_of_dom. eauto.
  - intros. apply mark_ext_refl.
  - intros. by eapply mark_ext_trans.
Qed.

Lemma marks_object_ext pic obj pic' :
  marks_object pic obj pic' → mark_ext pic pic'.
Proof. apply marks_mark_ext. Qed.

Lemma marks_list_ext pic l pic' :
  marks_list pic l pic' → mark_ext pic pic'.
Proof. apply marks_mark_ext. Qed.

Lemma mark_ext_mono pic pic' x :
  mark_ext pic pic' → is_marked (heap pic) x = true →
  is_marked (heap pic') x = true.
Proof. intros (_ & _ & Hm & _) Hx. by apply Hm. Qed.

Lemma is_marked_marked_state pic obj :
  is_marked (heap (marked_state pic obj)) obj = true.
Proof.
  unfold marked_state; simpl. rewrite is_marked_mark.
  by rewrite bool_decide_eq_true_2.
Qed.

(** The object that is traced ends up marked. *)
Lemma marks_target :
  (∀ pic obj pic', marks_object pic obj pic' →
     is_marked (heap pic') obj = true)
  ∧ (∀ pic l pic', marks_list pic l pic' →
     ∀ a, a ∈ l → is_marked (heap pic') a = true).
Proof.
  apply marks_mutind.
  - done.
  - intros. apply is_marked_marked_state.
  - intros pic obj o pic' _ _ _ _ Hl _.
    eapply mark_ext_mono; [eapply marks_list_ext; eassumption|].
    apply is_marked_marked_state.
  - intros pic a Ha. by apply elem_of_nil in Ha.
  - intros pic obj pic1 l pic' _ IH1 Hl IH2 a Ha.
    apply elem_of_cons in Ha as [->|Ha]; [|by apply IH2].
    eapply mark_ext_mono; [eapply marks_list_ext; eassumption|done].
Qed.

(** Every new mark is on an object that the traced one reaches. *)
Lemma marks_sound :
  (∀ pic obj pic', marks_object pic obj pic' →
     ∀ x, is_marked (heap pic') x = true →
       is_marked (heap pic) x = true ∨ rtc (edge (objects pic)) obj x)
  ∧ (∀ pic l pic', marks_list pic l pic' →
     ∀ x, is_marked (heap pic') x = true →
       is_marked (heap pic) x = true
       ∨ ∃ a, a ∈ l ∧ rtc (edge (objects pic)) a x).
Proof.
  apply marks_mutind.
  - intros. by left.
  - intros pic obj hash prev _ _ x. unfold pushed_state; simpl.
    rewrite is_marked_mark. intros [Hx|Hx]%orb_true_iff; [|by left].
    apply bool_decide_eq_true in Hx as <-. by right.
  - intros pic obj o pic' _ Ho _ _ _ IH x Hx.
    destruct (IH x Hx) as [Hx1|(c & Hc & Hreach)].
    + unfold marked_state in Hx1; simpl in Hx1.
      rewrite is_marked_mark in Hx1.
      apply orb_true_iff in Hx1 as [Hx1|Hx1]; [|by left].
      apply bool_decide_eq_true in Hx1 as <-. by right.
    + right. eapply rtc_l; [|exact Hreach]. by exists o.
  - intros. by left.
  - intros pic obj pic1 l pic' Hobj IH1 _ IH2 x Hx.
    destruct (IH2 x Hx) as [Hx1|(c & Hc & Hreach)].
    + destruct (IH1 x Hx1) as [?|?]; [by left|].
      right. exists obj. split; [by left|done].
    + right. exists c. split; [by right|].
      apply marks_object_ext in Hobj as (_ & Hs & _).
      eapply rtc_subrel; [|exact Hreach].
      intros a b. apply edge_shape. by apply same_shape_sym.
Qed.

(** Tracing keeps the marked part of the graph closed, apart from the
    objects whose children are still being traced. *)
Lemma marks_closed :
  (∀ pic obj pic', marks_object pic obj pic' →
     ∀ P, closed_except P pic → closed_except P pic')
  ∧ (∀ pic l pic', marks_list pic l pic' →
     ∀ P, closed_except P pic → closed_except P pic').
Proof.
  apply marks_mutind.
  - done.
  - intros pic obj hash prev Hm Ho P Hcl x o c.
    unfold pushed_state; simpl. rewrite !is_marked_mark.
    destruct (decide (x = obj)) as [->|Hne].
    + rewrite lookup_insert_eq. intros _ _ Hx Hc. inversion Hx; subst o.
      by apply elem_of_nil in Hc.
    + rewrite lookup_insert_ne by done.
      rewrite (bool_decide_eq_false_2 (obj = x)) by done. simpl.
      intros Hx HP Hox Hc. rewrite (Hcl x o c); auto using orb_true_r.
  - intros pic obj o pic' Hm Ho _ _ Hl IH P Hcl.
    assert (closed_except (P ∪ {[obj]}) (marked_state pic obj)) as Hcl1.
    { intros x ox c. unfold marked_state; simpl. rewrite !is_marked_mark.
      intros Hx HP Hox Hc.
      rewrite (bool_decide_eq_false_2 (obj = x)) in Hx by set_solver.
      rewrite (Hcl x ox c); auto using orb_true_r. set_solver. }
    specialize (IH _ Hcl1). intros x ox c Hx HP Hox Hc.
    destruct (decide (x = obj)) as [->|Hne].
    + destruct marks_target as [_ Ht]. apply (Ht _ _ _ Hl).
      apply marks_list_ext in Hl as (_ & Hs & _).
      destruct (same_shape_lookup _ _ _ _ (same_shape_sym _ _ Hs) Hox)
        as (o' & Ho' & Hsh).
      simpl in Ho'. rewrite Ho in Ho'. inversion Ho'; subst o'.
      by rewrite (shape_children _ _ Hsh).
    + apply (IH x ox c); auto. set_solver.
  - done.
  - intros pic obj pic1 l pic' _ IH1 _ IH2 P Hcl. by apply IH2, IH1.
Qed.

Lemma chain_insert (m : gmap addr object) (head : option addr)
    (ws : list addr) (w : addr) (o : object) :
  w ∉ ws → chain m head ws → chain (<[w := o]> m) head ws.
Proof.
  intros Hw Hc. induction Hc as [|w' hash prev ws Hl Hc IH]; [constructor|].
  apply not_elem_of_cons in Hw as [Hne Hw].
  econstructor; [|by apply IH]. by rewrite lookup_insert_ne.
Qed.

(** Tracing keeps the chain in step with the marked weak maps. *)
Lemma marks_chain :
  (∀ pic obj pic', marks_object pic obj pic' → chain_ok pic → chain_ok pic')
  ∧ (∀ pic l pic', marks_list pic l pic' → chain_ok pic → chain_ok pic').
Proof.
  apply marks_mutind.
  - done.
  - intros pic obj hash prev Hm Ho (ws & Hc & Hnd & Hws).
    assert (obj ∉ ws) as Hnotin.
    { intros Hin. apply Hws in Hin as [Hin _]. congruence. }
    exists (obj :: ws). unfold pushed_state; simpl. split; [|split].
    + econstructor; [apply lookup_insert_eq|]. by apply chain_insert.
    + by constructor.
    + intros w. rewrite elem_of_cons, is_marked_mark.
      destruct (decide (w = obj)) as [->|Hne].
      * rewrite lookup_insert_eq, bool_decide_eq_true_2 by done.
        naive_solver.
      * rewrite lookup_insert_ne by done.
        rewrite (bool_decide_eq_false_2 (obj = w)) by done. simpl.
        rewrite Hws. naive_solver.
  - intros pic obj o pic' Hm Ho Hw _ _ IH (ws & Hc & Hnd & Hws). apply IH.
    exists ws. unfold marked_state; simpl. split; [done|]. split; [done|].
    intros w. rewrite is_marked_mark, Hws.
    destruct (decide (obj = w)) as [->|Hne].
    + rewrite Hm, Ho. split; [naive_solver|].
      intros (_ & hash & prev & Heq). inversion Heq; subst. discriminate.
    + by rewrite (bool_decide_eq_false_2 (obj = w)).
  - done.
  - intros pic obj pic1 l pic' _ IH1 _ IH2 Hc. by apply IH2, IH1.
Qed.

(** Marking never increases the number of unmarked cells, and marking a
    cell that was not marked decreases it. *)
Lemma mark_ext_count pic pic' :
  mark_ext pic pic' → (unmarked_count pic' ≤ unmarked_count pic)%nat.
Proof.
  intros (_ & Hs & Hm & _). unfold unmarked_count.
  apply subseteq_size. intros x.
  rewrite !elem_of_filter, (same_shape_dom _ _ Hs).
  intros [Hx Hd]. split; [|done].
  destruct (is_marked (heap pic) x) eqn:Hx0; [|done].
  apply Hm in Hx0 as [? _]. congruence.
Qed.

Lemma mark_ext_count_lt pic pic' obj :
  mark_ext pic pic' →
  obj ∈ dom (objects pic) →
  is_marked (heap pic) obj = false →
  is_marked (heap pic') obj = true →
  (unmarked_count pic' < unmarked_count pic)%nat.
Proof.
  intros (_ & Hs & Hm & _) Hd H0 H1. unfold unmarked_count.
  apply subset_size. apply strict_spec_alt. split.
  - intros x. rewrite !elem_of_filter, (same_shape_dom _ _ Hs).
    intros [Hx Hdx]. split; [|done].
    destruct (is_marked (heap pic) x) eqn:Hx0; [|done].
    apply Hm in Hx0 as [? _]. congruence.
  - intros Heq. assert (obj ∈ filter (fun x => is_marked (heap pic) x = false)
                                (dom (objects pic))) as Hin
      by (by apply elem_of_filter).
    rewrite <- Heq in Hin. apply elem_of_filter in Hin as [Hin _]. congruence.
Qed.

(** ** The weak-map fixed point *)

Lemma live_reach pic (a x : addr) :
  live pic a → rtc (edge (objects pic)) a x → live pic x.
Proof.
  intros Ha Hr. induction Hr as [|a b x (o & Ho & Hc) _ IH]; [done|].
  apply IH. by eapply live_child.
Qed.

Lemma marks_object_dom pic obj pic' :
  marks_object pic obj pic' → is_marked (heap pic) obj = false →
  obj ∈ dom (objects pic).
Proof.
  intros Hm Hu. apply elem_of_dom. inversion Hm; subst; eauto. congruence.
Qed.

Lemma mark_inv_step pic0 pic p pic' :
  mark_inv pic0 pic → live pic0 p → marks_object pic p pic' →
  mark_inv pic0 pic'.
Proof.
  intros (Hext & Hsound & Hcl & Hroots & Hch & Hdom) Hp Hm.
  pose proof (marks_object_ext _ _ _ Hm) as Hext'.
  split; [by eapply mark_ext_trans|]. split; [|split; [|split; [|split]]].
  - intros x Hx.
    destruct (proj1 marks_sound _ _ _ Hm x Hx) as [Hx0|Hr]; [by apply Hsound|].
    apply (live_reach pic0 p); [done|].
    eapply rtc_subrel; [|exact Hr]. intros a b. apply edge_shape.
    apply same_shape_sym. apply Hext.
  - by apply (proj1 marks_closed _ _ _ Hm).
  - intros r Hr. eapply mark_ext_mono; eauto.
  - by apply (proj1 marks_chain _ _ _ Hm).
  - intros x Hx. destruct Hext' as (_ & Hs & _ & Hd).
    rewrite <- (same_shape_dom _ _ Hs). destruct (Hd x Hx); auto.
Qed.

Lemma mark_ext_weak pic pic' w hash prev :
  mark_ext pic pic' → is_marked (heap pic) w = true →
  objects pic !! w = Some (ObjWeak hash prev) →
  is_marked (heap pic') w = true
  ∧ objects pic' !! w = Some (ObjWeak hash prev).
Proof.
  intros (_ & _ & Hm & _) Hw Ho. destruct (Hm w Hw) as [? Heq].
  split; [done|congruence].
Qed.

Lemma weak_entry_inv (fuel : nat) pic0 pic (j : Z) k v pic' (j' : Z)
    w hash prev :
  mark_inv pic0 pic →
  is_marked (heap pic) w = true →
  objects pic !! w = Some (ObjWeak hash prev) →
  (k, v) ∈ hash →
  weak_entry fuel (pic, j) (k, v) = Ret (pic', j') →
  mark_inv pic0 pic' ∧ mark_ext pic pic'
  ∧ ((pic' = pic ∧ j' = j ∧ entries_closed pic [(k, v)])
     ∨ (j' = size_wrap (j + 1)
        ∧ (unmarked_count pic' < unmarked_count pic)%nat)).
Proof.
  intros Hinv Hw Ho Hin Hrun. unfold weak_entry in Hrun.
  assert ((is_marked (heap pic) k = true →
            ∀ p, v = pic_obj_value p → is_marked (heap pic) p = true) →
          entries_closed pic [(k, v)]) as Hclosed.
  { intros Hc k' p' Hin' Hk'. apply list_elem_of_singleton in Hin'.
    inversion Hin'; subst. by eapply Hc. }
  destruct (is_marked (heap pic) k) eqn:Hk.
  2:{ inversion Hrun; subst. split; [done|]. split; [apply mark_ext_refl|].
      left. repeat split. apply Hclosed. congruence. }
  destruct (pic_obj_ptr v) as [p|] eqn:Hv.
  2:{ inversion Hrun; subst. split; [done|]. split; [apply mark_ext_refl|].
      left. repeat split. apply Hclosed. intros _ p ->. discriminate. }
  destruct v; try discriminate. inversion Hv; subst a.
  destruct (is_marked (heap pic) p) eqn:Hp; simpl in Hrun.
  { inversion Hrun; subst. split; [done|]. split; [apply mark_ext_refl|].
    left. repeat split. apply Hclosed. intros _ p' Heq.
    by inversion Heq; subst. }
  apply bind_Ret_inv in Hrun as (pic1 & Hmark & Hr).
  inversion Hr; subst pic1 j'; clear Hr.
  unfold gc_mark, gc_mark_with in Hmark; simpl in Hmark.
  apply gc_mark_object_marks in Hmark.
  assert (live pic0 p) as Hlive.
  { destruct Hinv as (Hext & Hsound & _).
    destruct Hext as (_ & Hs & _).
    destruct (same_shape_lookup _ _ _ _ (same_shape_sym _ _ Hs) Ho)
      as (o0 & Ho0 & Hsh).
    apply shape_weak_hash in Hsh as [prev0 ->].
    apply (live_weak pic0 w hash prev0 k p); auto. }
  split; [by eapply mark_inv_step|].
  split; [by eapply marks_object_ext|]. right. split; [done|].
  eapply mark_ext_count_lt.
  - by eapply marks_object_ext.
  - by eapply marks_object_dom.
  - done.
  - by apply (proj1 marks_target _ _ _ Hmark).
Qed.

Lemma entries_closed_cons pic e (es : list (addr * pic_value)) :
  entries_closed pic [e] → entries_closed pic es →
  entries_closed pic (e :: es).
Proof.
  intros He Hes k p Hin. apply elem_of_cons in Hin as [<-|Hin].
  - apply He. by left.
  - by apply Hes.
Qed.

(** The [for] loop over the buckets of one weak map [w] of the chain.  The
    counter grows by one for each value marked, and stays put only if the
    state does. *)
Lemma weak_entries_inv (fuel : nat) pic0 w hash prev
    (es : list (addr * pic_value)) :
  ∀ pic (j : Z) pic' (j' : Z),
    (∀ e, e ∈ es → e ∈ hash) →
    mark_inv pic0 pic →
    is_marked (heap pic) w = true →
    objects pic !! w = Some (ObjWeak hash prev) →
    0 ≤ j → j + Z.of_nat (unmarked_count pic) < SIZE_MOD →
    for_each (weak_entry fuel) es (pic, j) = Ret (pic', j') →
    mark_inv pic0 pic' ∧ mark_ext pic pic'
    ∧ j ≤ j'
    ∧ j' + Z.of_nat (unmarked_count pic') ≤ j + Z.of_nat (unmarked_count pic)
    ∧ (j' = j → pic' = pic ∧ entries_closed pic es).
Proof.
  induction es as [|[k v] es IH]; intros pic j pic' j' Hsub Hinv Hw Ho Hj Hb Hrun.
  - inversion Hrun; subst. split; [done|]. split; [apply mark_ext_refl|].
    split; [lia|]. split; [lia|]. intros _. split; [done|].
    intros k p Hin. by apply elem_of_nil in Hin.
  - simpl in Hrun. apply bind_Ret_inv in Hrun as ([pic1 j1] & Hstep & Hrest).
    assert ((k, v) ∈ hash) as Hin by (apply Hsub; by left).
    destruct (weak_entry_inv _ _ _ _ _ _ _ _ _ _ _ Hinv Hw Ho Hin Hstep)
      as (Hinv1 & Hext1 & Hcase).
    destruct (mark_ext_weak _ _ _ _ _ Hext1 Hw Ho) as [Hw1 Ho1].
    assert (∀ e, e ∈ es → e ∈ hash) as Hsub' by (intros e He; apply Hsub; by right).
    destruct Hcase as [(-> & -> & Hcl)|[-> Hlt]].
    + destruct (IH _ _ _ _ Hsub' Hinv Hw Ho Hj Hb Hrest)
        as (Hinv' & Hext' & Hle & Hbound & Hsame).
      do 4 (split; [done|]). intros Heq.
      destruct (Hsame Heq) as [-> Hcl']. split; [done|].
      by apply entries_closed_cons.
    + rewrite size_wrap_small in * by lia.
      destruct (IH pic1 (j + 1) pic' j' Hsub' Hinv1 Hw1 Ho1
                  ltac:(lia) ltac:(lia) Hrest)
        as (Hinv' & Hext' & Hle & Hbound & Hsame).
      split; [done|]. split; [by eapply mark_ext_trans|].
      split; [lia|]. split; [lia|]. intros Heq. lia.
Qed.

Lemma chain_mark_ext pic pic' (head : option addr) (ws : list addr) :
  mark_ext pic pic' →
  (∀ w, w ∈ ws → is_marked (heap pic) w = true) →
  chain (objects pic) head ws → chain (objects pic') head ws.
Proof.
  intros (_ & _ & Hm & _) Hall Hc.
  induction Hc as [|w hash prev ws Hl Hc IH]; [constructor|].
  econstructor.
  - destruct (Hm w) as [_ ->]; [|done]. apply Hall. by left.
  - apply IH. intros w' Hw'. apply Hall. by right.
Qed.

(** The walk down the chain from [weak]. *)
Lemma weak_pass_inv (fuel : nat) pic0 (n : nat) :
  ∀ pic (weak : option addr) (ws : list addr) (j : Z) pic' (j' : Z),
    chain (objects pic) weak ws →
    (∀ w, w ∈ ws → is_marked (heap pic) w = true) →
    mark_inv pic0 pic →
    0 ≤ j → j + Z.of_nat (unmarked_count pic) < SIZE_MOD →
    weak_pass n fuel pic weak j = Ret (pic', j') →
    mark_inv pic0 pic' ∧ mark_ext pic pic'
    ∧ j ≤ j'
    ∧ j' + Z.of_nat (unmarked_count pic') ≤ j + Z.of_nat (unmarked_count pic)
    ∧ (j' = j →
       pic' = pic
       ∧ ∀ w hash prev, w ∈ ws →
           objects pic !! w = Some (ObjWeak hash prev) →
           entries_closed pic hash).
Proof.
  induction n as [|n IH]; intros pic weak ws j pic' j' Hc Hall Hinv Hj Hb Hrun.
  - destruct weak; [discriminate|]. inversion Hrun; subst.
    inversion Hc; subst.
    split; [done|]. split; [apply mark_ext_refl|].
    split; [lia|]. split; [lia|]. intros _. split; [done|].
    intros w hash prev Hin. by apply elem_of_nil in Hin.
  - destruct weak as [w|]; simpl in Hrun.
    2:{ inversion Hrun; subst. inversion Hc; subst.
        split; [done|]. split; [apply mark_ext_refl|].
        split; [lia|]. split; [lia|]. intros _. split; [done|].
        intros w hash prev Hin. by apply elem_of_nil in Hin. }
    inversion Hc as [|w0 hash prev ws' Ho Hc' Heq1 Heq2]; subst.
    rewrite Ho in Hrun.
    apply bind_Ret_inv in Hrun as ([pic1 j1] & Hes & Hrest).
    assert (is_marked (heap pic) w = true) as Hw by (apply Hall; by left).
    destruct (weak_entries_inv fuel pic0 w hash prev hash pic j pic1 j1
                ltac:(done) Hinv Hw Ho Hj Hb Hes)
      as (Hinv1 & Hext1 & Hle1 & Hb1 & Hsame1).
    destruct (mark_ext_weak _ _ _ _ _ Hext1 Hw Ho) as [Hw1 Ho1].
    rewrite Ho1 in Hrest.
    assert (∀ w', w' ∈ ws' → is_marked (heap pic) w' = true) as Hall'
      by (intros w' Hw'; apply Hall; by right).
    destruct (IH pic1 prev ws' j1 pic' j'
                (chain_mark_ext _ _ _ _ Hext1 Hall' Hc')
                ltac:(intros w' Hw'; eapply mark_ext_mono; eauto)
                Hinv1 ltac:(lia) ltac:(lia) Hrest)
      as (Hinv' & Hext' & Hle' & Hb' & Hsame').
    split; [done|]. split; [by eapply mark_ext_trans|].
    split; [lia|]. split; [lia|]. intros Heq.
    assert (j1 = j) as Hj1 by lia. destruct (Hsame1 Hj1) as [-> Hcl].
    subst j1. destruct (Hsame' Heq) as [-> Hrestcl]. split; [done|].
    intros w' hash' prev' Hin Ho'.
    apply elem_of_cons in Hin as [->|Hin].
    + rewrite Ho in Ho'. inversion Ho'; subst. done.
    + by eapply Hrestcl.
Qed.

(** The [do ... while] loop ends with the invariant intact and the
    ephemeron rule saturated. *)
Lemma weak_fixpoint_inv (fuel : nat) pic0 (n : nat) :
  ∀ pic pic',
    mark_inv pic0 pic →
    Z.of_nat (unmarked_count pic) < SIZE_MOD →
    weak_fixpoint n fuel pic = Ret pic' →
    mark_inv pic0 pic' ∧ ephemeron_closed pic'.
Proof.
  induction n as [|n IH]; intros pic pic' Hinv Hb Hrun; [discriminate|].
  simpl in Hrun. apply bind_Ret_inv in Hrun as ([pic1 j1] & Hpass & Hrest).
  pose proof Hinv as (_ & _ & _ & _ & (ws & Hc & Hnd & Hws) & _).
  destruct (weak_pass_inv fuel pic0 fuel pic (weaks pic) ws 0 pic1 j1 Hc
              ltac:(intros w Hw; by apply Hws in Hw as [? _])
              Hinv ltac:(lia) ltac:(lia) Hpass)
    as (Hinv1 & Hext1 & Hle & Hb1 & Hsame).
  destruct (0 <? j1) eqn:Hj1.
  - apply (IH pic1 pic' Hinv1); [lia|done].
  - apply Z.ltb_ge in Hj1. inversion Hrest; subst pic'.
    destruct (Hsame ltac:(lia)) as [-> Hcl]. split; [done|].
    intros w hash prev k p Hw Ho Hin Hk.
    apply (Hcl w hash prev ltac:(apply Hws; eauto) Ho k p Hin Hk).
Qed.

(** ** The roots *)

Lemma marks_list_app pic l1 pic1 l2 pic2 :
  marks_list pic l1 pic1 → marks_list pic1 l2 pic2 →
  marks_list pic (l1 ++ l2) pic2.
Proof.
  intros H1 H2. induction H1; [done|]. simpl. econstructor; eauto.
Qed.

Lemma for_each_gc_mark_object (fuel : nat) (l : list addr) pic pic' :
  for_each (gc_mark_object fuel) l pic = Ret pic' → marks_list pic l pic'.
Proof. apply for_each_marks_list. apply gc_mark_object_marks. Qed.

Lemma marks_list_frame pic l pic' :
  marks_list pic l pic' → same_frame pic pic'.
Proof. intros Hl. by apply marks_list_ext in Hl as [? _]. Qed.

(** The arena loop, from slot [start] on. *)
Lemma arena_loop_marks (fuel : nat) (len : nat) :
  ∀ (start : nat) pic pic',
    for_each (fun pic j =>
        match arena pic !! Z.to_nat j with
        | Some (Some obj) => gc_mark_object fuel pic obj
        | _ => Undef
        end) ((fun i : nat => Z.of_nat i + 0) <$> seq start len) pic = Ret pic' →
    marks_list pic (omap id (take len (drop start (arena pic)))) pic'.
Proof.
  induction len as [|len IH]; intros start pic pic' Hrun.
  - inversion Hrun; subst. rewrite take_0. constructor.
  - simpl in Hrun. apply bind_Ret_inv in Hrun as (pic1 & Hslot & Hrest).
    replace (Z.to_nat (Z.of_nat start + 0)) with start in Hslot by lia.
    destruct (arena pic !! start) as [[obj|]|] eqn:Hl; try discriminate.
    apply gc_mark_object_marks in Hslot.
    pose proof (IH (S start) pic1 pic' Hrest) as Hlist.
    assert (arena pic1 = arena pic) as Harena.
    { apply marks_object_ext in Hslot as [(h & m & w & ->) _]. done. }
    rewrite Harena in Hlist.
    rewrite (drop_S _ _ _ Hl). simpl.
    econstructor; eauto.
Qed.

Lemma mark_roots_marks (fuel : nat) pic pic' :
  mark_roots fuel pic = Ret pic' → marks_list pic (roots pic) pic'.
Proof.
  unfold mark_roots, roots, gc_mark. intros Hrun.
  apply bind_Ret_inv in Hrun as (pic1 & H1 & Hrun).
  rewrite mark_nullable_list in H1. apply for_each_gc_mark_object in H1.
  pose proof (marks_list_frame _ _ _ H1) as (h1 & m1 & w1 & Hf1).
  apply bind_Ret_inv in Hrun as (pic2 & H2 & Hrun).
  rewrite for_each_values in H2. apply for_each_gc_mark_object in H2.
  pose proof (marks_list_frame _ _ _ H2) as (h2 & m2 & w2 & Hf2).
  apply bind_Ret_inv in Hrun as (pic3 & H3 & Hrun).
  unfold mark_nullable in H3. rewrite (for_each_omap _ id) in H3.
  apply for_each_gc_mark_object in H3.
  pose proof (marks_list_frame _ _ _ H3) as (h3 & m3 & w3 & Hf3).
  apply bind_Ret_inv in Hrun as (pic4 & H4 & Hrun).
  unfold seqZ in H4. apply arena_loop_marks in H4.
  rewrite drop_0 in H4.
  pose proof (marks_list_frame _ _ _ H4) as (h4 & m4 & w4 & Hf4).
  apply bind_Ret_inv in Hrun as (pic5 & H5 & Hrun).
  rewrite (for_each_flat_map _ id) in H5. apply for_each_gc_mark_object in H5.
  pose proof (marks_list_frame _ _ _ H5) as (h5 & m5 & w5 & Hf5).
  apply bind_Ret_inv in Hrun as (pic6 & H6 & Hrun).
  rewrite gc_mark_with_values in H6. apply for_each_gc_mark_object in H6.
  pose proof (marks_list_frame _ _ _ H6) as (h6 & m6 & w6 & Hf6).
  apply bind_Ret_inv in Hrun as (pic7 & H7 & Hrun).
  rewrite gc_mark_with_values in H7. apply for_each_gc_mark_object in H7.
  pose proof (marks_list_frame _ _ _ H7) as (h7 & m7 & w7 & Hf7).
  apply bind_Ret_inv in Hrun as (pic8 & H8 & Hrun).
  rewrite gc_mark_with_values in H8. apply for_each_gc_mark_object in H8.
  pose proof (marks_list_frame _ _ _ H8) as (h8 & m8 & w8 & Hf8).
  apply bind_Ret_inv in Hrun as (pic9 & H9 & Hrun).
  rewrite gc_mark_with_values in H9. apply for_each_gc_mark_object in H9.
  pose proof (marks_list_frame _ _ _ H9) as (h9 & m9 & w9 & Hf9).
  assert (for_each (gc_mark_object fuel)
            (flat_map (fun lib => [lib.1.1; lib.1.2; lib.2]) (ltable pic9))
            pic9 = Ret pic') as H10.
  { rewrite <- for_each_flat_map. rewrite <- Hrun. apply for_each_ext.
    intros s lib. simpl. monad_eq. }
  apply for_each_gc_mark_object in H10.
  subst pic1 pic2 pic3 pic4 pic5 pic6 pic7 pic8 pic9.
  cbn [stack ci arena arena_idx ireps globals macros err features ltable
       set_weaks set_objects set_heap] in *.
  eapply marks_list_app; [exact H1|].
  eapply marks_list_app; [exact H2|].
  eapply marks_list_app; [exact H3|].
  eapply marks_list_app; [exact H4|].
  eapply marks_list_app; [rewrite flat_map_concat_map, map_id in H5; exact H5|].
  rewrite 3!(value_ptrs_cons _ (_ :: _)).
  rewrite <- !app_assoc.
  eapply marks_list_app; [exact H6|].
  eapply marks_list_app; [exact H7|].
  eapply marks_list_app; [exact H8|].
  eapply marks_list_app; [exact H9|].
  exact H10.
Qed.

(** ** The mark phase as a whole *)

Lemma unmarked_count_le pic : (unmarked_count pic ≤ size (objects pic))%nat.
Proof.
  unfold unmarked_count. rewrite <- size_dom.
  apply subseteq_size. intros x Hx. by apply elem_of_filter in Hx as [_ ?].
Qed.

Lemma mark_roots_inv (fuel : nat) pic pic' :
  (∀ x, is_marked (heap pic) x = false) →
  weaks pic = None →
  mark_roots fuel pic = Ret pic' →
  mark_inv pic pic'.
Proof.
  intros Hnone Hweaks Hrun. apply mark_roots_marks in Hrun.
  pose proof (marks_list_ext _ _ _ Hrun) as Hext.
  split; [done|]. split; [|split; [|split; [|split]]].
  - intros x Hx.
    destruct (proj2 marks_sound _ _ _ Hrun x Hx) as [Hx0|(r & Hr & Hreach)].
    + by rewrite Hnone in Hx0.
    + apply (live_reach pic r); [by apply live_root|done].
  - apply (proj2 marks_closed _ _ _ Hrun). intros x o c Hx. by rewrite Hnone in Hx.
  - intros r Hr. by apply (proj2 marks_target _ _ _ Hrun).
  - apply (proj2 marks_chain _ _ _ Hrun). exists []. rewrite Hweaks.
    split; [constructor|]. split; [constructor|].
    intros w. rewrite Hnone. split; [by intros ?%elem_of_nil|by intros [? _]].
  - intros x Hx. destruct Hext as (_ & Hs & _ & Hd).
    rewrite <- (same_shape_dom _ _ Hs). destruct (Hd x Hx) as [Hx0|?]; [|done].
    by rewrite Hnone in Hx0.
Qed.

Lemma gc_mark_phase_inv (fuel : nat) pic pic' :
  (∀ x, is_marked (heap pic) x = false) →
  Z.of_nat (size (objects pic)) < SIZE_MOD →
  gc_mark_phase fuel pic = Ret pic' →
  mark_inv pic pic' ∧ ephemeron_closed pic'.
Proof.
  intros Hnone Hsize Hrun. unfold gc_mark_phase in Hrun.
  destruct (weaks pic) eqn:Hweaks; [discriminate|].
  apply bind_Ret_inv in Hrun as (pic1 & Hroots & Hfix).
  pose proof (mark_roots_inv _ _ _ Hnone Hweaks Hroots) as Hinv.
  apply (weak_fixpoint_inv fuel pic fuel pic1 pic' Hinv); [|done].
  pose proof (mark_ext_count _ _ (proj1 Hinv)).
  pose proof (unmarked_count_le pic). lia.
Qed.

(** At the end of the mark phase the marked objects are exactly the live
    ones. *)
Lemma gc_mark_phase_live (fuel : nat) pic pic' :
  (∀ x, is_marked (heap pic) x = false) →
  Z.of_nat (size (objects pic)) < SIZE_MOD →
  gc_mark_phase fuel pic = Ret pic' →
  ∀ x, is_marked (heap pic') x = true ↔ live pic x.
Proof.
  intros Hnone Hsize Hrun.
  destruct (gc_mark_phase_inv _ _ _ Hnone Hsize Hrun)
    as ((Hext & Hsound & Hcl & Hroots & _ & _) & Heph).
  intros x. split; [apply Hsound|].
  destruct Hext as (_ & Hs & _).
  induction 1 as [a Ha|a o c Ha IHa Ho Hc|w hash prev k p Hw IHw Ho Hin Hk IHk].
  - by apply Hroots.
  - destruct (same_shape_lookup _ _ _ _ Hs Ho) as (o' & Ho' & Hsh).
    apply (Hcl a o' c); [done|set_solver|done|].
    by rewrite (shape_children _ _ Hsh).
  - destruct (same_shape_lookup _ _ _ _ Hs Ho) as (o' & Ho' & Hsh).
    apply shape_weak_hash in Hsh as [prev' ->].
    by apply (Heph w hash prev' k p).
Qed.

(** ** The weak purge of the sweep *)

Lemma sweep_weaks_frame (n : nat) :
  ∀ pic pic', sweep_weaks n pic = Ret pic' →
    heap pic' = heap pic ∧ same_frame pic pic'.
Proof.
  induction n as [|n IH]; intros pic pic' Hrun; simpl in Hrun.
  - destruct (weaks pic); [discriminate|]. inversion Hrun; subst.
    split; [done|apply same_frame_refl].
  - destruct (weaks pic) as [w|].
    2:{ inversion Hrun; subst. split; [done|apply same_frame_refl]. }
    destruct (objects pic !! w) as [[]|]; try discriminate.
    apply IH in Hrun as [Hh Hf]. split; [done|].
    eapply same_frame_trans; [|exact Hf]. by eexists (heap pic), _, _.
Qed.

Lemma sweep_weaks_spec (n : nat) :
  ∀ pic (ws : list addr),
    chain (objects pic) (weaks pic) ws → NoDup ws → (length ws ≤ n)%nat →
    ∃ pic', sweep_weaks n pic = Ret pic'
      ∧ weaks pic' = None
      ∧ (∀ w, w ∉ ws → objects pic' !! w = objects pic !! w)
      ∧ (∀ w hash prev, w ∈ ws →
           objects pic !! w = Some (ObjWeak hash prev) →
           objects pic' !! w
           = Some (ObjWeak (purge_weak_hash (heap pic) hash) prev)).
Proof.
  induction n as [|n IH]; intros pic ws Hc Hnd Hlen.
  - destruct ws; [|simpl in Hlen; lia]. inversion Hc as [Hw|]; subst.
    exists pic. simpl. rewrite <- Hw. repeat split; auto.
    intros w hash prev Hin. by apply elem_of_nil in Hin.
  - inversion Hc as [Hw|w hash prev ws' Ho Hc' Hw Heq]; subst.
    { exists pic. simpl. rewrite <- Hw. repeat split; auto.
      intros w hash prev Hin. by apply elem_of_nil in Hin. }
    simpl. rewrite <- Hw, Ho.
    apply NoDup_cons in Hnd as [Hnotin Hnd'].
    set (pic1 := set_weaks prev (set_objects _ pic)).
    destruct (IH pic1 ws') as (pic' & Hrun & Hnone & Hother & Hin).
    { simpl. by apply chain_insert. }
    { done. }
    { simpl in Hlen. lia. }
    exists pic'. split; [done|]. split; [done|]. split.
    + intros w' Hw'. apply not_elem_of_cons in Hw' as [Hne Hw'].
      rewrite (Hother w' Hw'). simpl. by rewrite lookup_insert_ne.
    + intros w' hash' prev' Hw' Ho'.
      apply elem_of_cons in Hw' as [->|Hw'].
      * rewrite (Hother w Hnotin). simpl. rewrite lookup_insert_eq.
        rewrite Ho in Ho'. by inversion Ho'; subst.
      * apply (Hin w' hash' prev' Hw'). simpl.
        rewrite lookup_insert_ne; [done|]. intros ->. done.
Qed.

(** ** Termination of the mark phase

    On a well-formed heap a recursion budget above the number of cells is
    enough for every loop of the mark phase. *)

Lemma graph_wf_shape (m m' : gmap addr object) :
  same_shape m m' → graph_wf m → graph_wf m'.
Proof.
  intros Hs [Hobj Hweak]. pose proof (same_shape_dom _ _ Hs) as Hd. split.
  - intros x o' Ho'.
    destruct (same_shape_lookup _ _ _ _ (same_shape_sym _ _ Hs) Ho')
      as (o & Ho & Hsh).
    destruct (Hobj x o Ho) as [Ht Hc]. split.
    + destruct o, o'; simpl in Hsh; try discriminate; try done;
        inversion Hsh; subst; done.
    + intros c Hin. rewrite <- Hd. apply Hc.
      by rewrite (shape_children _ _ Hsh).
  - intros w hash prev k p Ho' Hin.
    destruct (same_shape_lookup _ _ _ _ (same_shape_sym _ _ Hs) Ho')
      as (o & Ho & Hsh).
    assert (shape (ObjWeak hash prev) = shape o) as Hsh' by done.
    symmetry in Hsh'. apply shape_weak_hash in Hsh' as [prev0 ->].
    rewrite <- Hd. by eapply Hweak.
Qed.

(** What a marking step keeps of the state it started from. *)
Lemma mark_ext_budget pic pic' (fuel : nat) :
  mark_ext pic pic' →
  graph_wf (objects pic) → (unmarked_count pic < fuel)%nat →
  graph_wf (objects pic') ∧ (unmarked_count pic' < fuel)%nat
  ∧ dom (objects pic') = dom (objects pic).
Proof.
  intros Hext Hwf Hfuel. pose proof (mark_ext_count _ _ Hext).
  destruct Hext as (_ & Hs & _).
  split; [by eapply graph_wf_shape|]. split; [lia|].
  symmetry. by apply same_shape_dom.
Qed.

Lemma for_each_mark_total (fuel : nat)
    (rec : pic_state U → addr → outcome (pic_state U)) :
  (∀ pic obj pic', rec pic obj = Ret pic' → marks_object pic obj pic') →
  (∀ pic obj, graph_wf (objects pic) → obj ∈ dom (objects pic) →
     (unmarked_count pic < fuel)%nat → ∃ pic', rec pic obj = Ret pic') →
  ∀ (l : list addr) pic,
    graph_wf (objects pic) → (∀ a, a ∈ l → a ∈ dom (objects pic)) →
    (unmarked_count pic < fuel)%nat →
    ∃ pic', for_each rec l pic = Ret pic'.
Proof.
  intros Hmarks Hrec. induction l as [|a l IH]; intros pic Hwf Hdom Hfuel.
  - by exists pic.
  - destruct (Hrec pic a Hwf ltac:(apply Hdom; by left) Hfuel) as (pic1 & H1).
    pose proof (marks_object_ext _ _ _ (Hmarks _ _ _ H1)) as Hext.
    destruct (mark_ext_budget _ _ _ Hext Hwf Hfuel) as (Hwf1 & Hfuel1 & Hd1).
    destruct (IH pic1 Hwf1) as (pic' & Hrest); [|done|].
    { intros c Hc. rewrite Hd1. apply Hdom. by right. }
    exists pic'. simpl. by rewrite H1.
Qed.

Lemma gc_mark_object_total (fuel : nat) :
  ∀ pic obj,
    graph_wf (objects pic) → obj ∈ dom (objects pic) →
    (unmarked_count pic < fuel)%nat →
    ∃ pic', gc_mark_object fuel pic obj = Ret pic'.
Proof.
  induction fuel as [|fuel IH]; intros pic obj Hwf Hdom Hfuel; [lia|].
  rewrite gc_mark_object_unfold.
  destruct (is_marked (heap pic) obj) eqn:Hm; [by eexists|].
  apply elem_of_dom in Hdom as [o Ho]. rewrite Ho.
  destruct (proj1 Hwf obj o Ho) as [Ht Hc]. rewrite Ht.
  assert (∃ pic', for_each (gc_mark_object fuel) (trace_children o)
                    (marked_state pic obj) = Ret pic') as Hl.
  { assert (mark_ext pic (marked_state pic obj)) as Hext
      by (apply mark_ext_marked_state, elem_of_dom; eauto).
    apply (for_each_mark_total fuel (gc_mark_object fuel)); auto.
    - intros ? ? ?. apply gc_mark_object_marks.
    - assert (unmarked_count (marked_state pic obj) < unmarked_count pic)%nat.
      { eapply (mark_ext_count_lt _ _ obj); auto.
        - apply elem_of_dom; eauto.
        - apply is_marked_marked_state. }
      lia. }
  destruct o; try done. by eexists.
Qed.

Lemma marks_list_total (fuel : nat) (l : list addr) pic0 pic :
  graph_wf (objects pic0) → (unmarked_count pic0 < fuel)%nat →
  mark_ext pic0 pic →
  (∀ a, a ∈ l → a ∈ dom (objects pic0)) →
  ∃ pic', for_each (gc_mark_object fuel) l pic = Ret pic' ∧ mark_ext pic0 pic'.
Proof.
  intros Hwf Hfuel Hext Hdom.
  destruct (mark_ext_budget _ _ _ Hext Hwf Hfuel) as (Hwf1 & Hfuel1 & Hd1).
  destruct (for_each_mark_total fuel (gc_mark_object fuel)
              (gc_mark_object_marks fuel) (gc_mark_object_total fuel)
              l pic Hwf1) as (pic' & Hrun); [|done|].
  { intros a Ha. rewrite Hd1. by apply Hdom. }
  exists pic'. split; [done|].
  eapply mark_ext_trans; [done|].
  by apply marks_list_ext with l, for_each_gc_mark_object with fuel.
Qed.

Lemma same_frame_roots pic pic' :
  same_frame pic pic' →
  cp pic' = cp pic ∧ stack pic' = stack pic ∧ ci pic' = ci pic
  ∧ arena pic' = arena pic ∧ arena_idx pic' = arena_idx pic
  ∧ ireps pic' = ireps pic
  ∧ value_ptrs [globals pic'; macros pic'; err pic'; features pic']
    = value_ptrs [globals pic; macros pic; err pic; features pic]
  ∧ ltable pic' = ltable pic.
Proof. intros (h & m & w & ->). by repeat split. Qed.

Lemma same_frame_tables pic pic' :
  same_frame pic pic' →
  oblist pic' = oblist pic ∧ gc_enable pic' = gc_enable pic
  ∧ arena pic' = arena pic ∧ arena_idx pic' = arena_idx pic
  ∧ arena_size pic' = arena_size pic ∧ userdata pic' = userdata pic
  ∧ memory pic' = memory pic ∧ roots pic' = roots pic.
Proof. intros (h & m & w & ->). by repeat split. Qed.

Lemma arena_loop_total (fuel : nat) pic0 (len : nat) :
  graph_wf (objects pic0) → (unmarked_count pic0 < fuel)%nat →
  ∀ (start : nat) pic,
    mark_ext pic0 pic →
    (∀ i, (start ≤ i < start + len)%nat →
       ∃ obj, arena pic0 !! i = Some (Some obj) ∧ obj ∈ dom (objects pic0)) →
    ∃ pic',
      for_each (fun pic j =>
        match arena pic !! Z.to_nat j with
        | Some (Some obj) => gc_mark_object fuel pic obj
        | _ => Undef
        end) ((fun i : nat => Z.of_nat i + 0) <$> seq start len) pic = Ret pic'
      ∧ mark_ext pic0 pic'.
Proof.
  intros Hwf Hfuel. induction len as [|len IH]; intros start pic Hext Hslots.
  - by exists pic.
  - destruct (Hslots start ltac:(lia)) as (obj & Hl & Hd).
    simpl. replace (Z.to_nat (Z.of_nat start + 0)) with start by lia.
    destruct (same_frame_roots _ _ (proj1 Hext)) as (_ & _ & _ & -> & _).
    rewrite Hl.
    destruct (marks_list_total fuel [obj] pic0 pic Hwf Hfuel Hext)
      as (pic1 & H1 & Hext1).
    { intros a Ha. apply list_elem_of_singleton in Ha. by subst. }
    rewrite <- for_each_single in H1. rewrite H1. simpl.
    apply IH; [done|]. intros i Hi. apply Hslots. lia.
Qed.

Lemma elem_of_arena_roots pic (i : nat) obj :
  (i < Z.to_nat (arena_idx pic))%nat → arena pic !! i = Some (Some obj) →
  obj ∈ arena_roots pic.
Proof.
  intros Hi Hl. unfold arena_roots. apply list_elem_of_omap.
  exists (Some obj). split; [|done].
  apply list_elem_of_lookup. exists i. by rewrite lookup_take_lt.
Qed.

Lemma mark_roots_total (fuel : nat) pic :
  graph_wf (objects pic) → roots_wf pic →
  (unmarked_count pic < fuel)%nat →
  ∃ pic', mark_roots fuel pic = Ret pic'.
Proof.
  intros Hwf [Hroots Harena] Hfuel. unfold mark_roots, gc_mark.
  assert (∀ l pic1, mark_ext pic pic1 → (∀ a, a ∈ l → a ∈ roots pic) →
            ∃ pic', for_each (gc_mark_object fuel) l pic1 = Ret pic'
                    ∧ mark_ext pic pic') as Hstep.
  { intros l pic1 Hext Hl. apply marks_list_total; auto. }
  unfold roots in Hstep.
  (* checkpoint *)
  rewrite mark_nullable_list.
  destruct (Hstep (option_list (cp pic)) pic (mark_ext_refl pic))
    as (pic1 & -> & Hext1); [intros a; rewrite !elem_of_app; auto|]. simpl.
  destruct (same_frame_roots _ _ (proj1 Hext1)) as (_ & -> & _).
  (* stack *)
  rewrite for_each_values.
  destruct (Hstep (value_ptrs (stack pic)) pic1 Hext1)
    as (pic2 & -> & Hext2); [intros a; rewrite !elem_of_app; auto|]. simpl.
  destruct (same_frame_roots _ _ (proj1 Hext2)) as (_ & _ & -> & _).
  (* callinfo *)
  unfold mark_nullable. rewrite (for_each_omap _ id).
  destruct (Hstep (omap id (ci pic)) pic2 Hext2)
    as (pic3 & -> & Hext3); [intros a; rewrite !elem_of_app; auto|]. simpl.
  destruct (same_frame_roots _ _ (proj1 Hext3)) as (_ & _ & _ & _ & -> & _).
  (* arena *)
  unfold seqZ.
  destruct (arena_loop_total fuel pic (Z.to_nat (arena_idx pic)) Hwf Hfuel
              0%nat pic3 Hext3) as (pic4 & -> & Hext4).
  { intros i Hi. destruct (Harena i ltac:(lia)) as (obj & Hl).
    exists obj. split; [done|]. apply Hroots. unfold roots.
    rewrite !elem_of_app. do 3 right. left.
    eapply elem_of_arena_roots; [|done]. lia. }
  simpl.
  destruct (same_frame_roots _ _ (proj1 Hext4))
    as (_ & _ & _ & _ & _ & -> & _ & _).
  (* ireps *)
  rewrite (for_each_flat_map _ id), flat_map_concat_map, map_id.
  destruct (Hstep (concat (ireps pic)) pic4 Hext4)
    as (pic5 & -> & Hext5); [intros a; rewrite !elem_of_app; auto 10|]. simpl.
  (* globals, macros, err, features *)
  assert (∀ a, a ∈ value_ptrs [globals pic; macros pic; err pic; features pic] →
            a ∈ roots pic) as Hvals
    by (intros a; unfold roots; rewrite !elem_of_app; auto 10).
  rewrite gc_mark_with_values.
  destruct (marks_list_total fuel (value_ptrs [globals pic5]) pic pic5
              Hwf Hfuel Hext5) as (pic6 & -> & Hext6).
  { intros a Ha. apply Hroots, Hvals.
    destruct (same_frame_roots _ _ (proj1 Hext5))
      as (_ & _ & _ & _ & _ & _ & <- & _).
    rewrite (value_ptrs_cons (globals pic5)), elem_of_app. by left. }
  simpl. rewrite gc_mark_with_values.
  destruct (marks_list_total fuel (value_ptrs [macros pic6]) pic pic6
              Hwf Hfuel Hext6) as (pic7 & -> & Hext7).
  { intros a Ha. apply Hroots, Hvals.
    destruct (same_frame_roots _ _ (proj1 Hext6))
      as (_ & _ & _ & _ & _ & _ & <- & _).
    rewrite (value_ptrs_cons (globals pic6)), (value_ptrs_cons (macros pic6)),
      !elem_of_app. auto. }
  simpl. rewrite gc_mark_with_values.
  destruct (marks_list_total fuel (value_ptrs [err pic7]) pic pic7
              Hwf Hfuel Hext7) as (pic8 & -> & Hext8).
  { intros a Ha. apply Hroots, Hvals.
    destruct (same_frame_roots _ _ (proj1 Hext7))
      as (_ & _ & _ & _ & _ & _ & <- & _).
    rewrite (value_ptrs_cons (globals pic7)), (value_ptrs_cons (macros pic7)),
      (value_ptrs_cons (err pic7)), !elem_of_app. auto. }
  simpl. rewrite gc_mark_with_values.
  destruct (marks_list_total fuel (value_ptrs [features pic8]) pic pic8
              Hwf Hfuel Hext8) as (pic9 & -> & Hext9).
  { intros a Ha. apply Hroots, Hvals.
    destruct (same_frame_roots _ _ (proj1 Hext8))
      as (_ & _ & _ & _ & _ & _ & <- & _).
    rewrite (value_ptrs_cons (globals pic8)), (value_ptrs_cons (macros pic8)),
      (value_ptrs_cons (err pic8)), !elem_of_app. auto. }
  simpl.
  (* library table *)
  destruct (same_frame_roots _ _ (proj1 Hext9))
    as (_ & _ & _ & _ & _ & _ & _ & ->).
  destruct (Hstep (flat_map (fun lib => [lib.1.1; lib.1.2; lib.2]) (ltable pic))
              pic9 Hext9) as (pic10 & H10 & _);
    [intros a; rewrite !elem_of_app; auto 10|].
  exists pic10. rewrite <- H10, <- for_each_flat_map. apply for_each_ext.
  intros s lib. simpl. monad_eq.
Qed.

Lemma weak_entry_total (fuel : nat) pic0 pic (j : Z) k v w hash prev :
  graph_wf (objects pic0) → (unmarked_count pic0 < fuel)%nat →
  mark_ext pic0 pic →
  objects pic !! w = Some (ObjWeak hash prev) →
  (k, v) ∈ hash →
  ∃ pic' j', weak_entry fuel (pic, j) (k, v) = Ret (pic', j').
Proof.
  intros Hwf Hfuel Hext Ho Hin. unfold weak_entry.
  destruct (is_marked (heap pic) k); [|by eexists _, _].
  destruct v; simpl; try by eexists _, _.
  destruct (is_marked (heap pic) a); simpl; [by eexists _, _|].
  destruct (mark_ext_budget _ _ _ Hext Hwf Hfuel) as (Hwf1 & Hfuel1 & _).
  destruct (gc_mark_object_total fuel pic a Hwf1) as (pic' & Hrun); [|done|].
  { by eapply (proj2 Hwf1). }
  unfold gc_mark, gc_mark_with; simpl. rewrite Hrun. by eexists _, _.
Qed.

Lemma weak_entries_total (fuel : nat) pic0 w hash prev
    (es : list (addr * pic_value)) :
  graph_wf (objects pic0) → (unmarked_count pic0 < fuel)%nat →
  ∀ pic (j : Z),
    (∀ e, e ∈ es → e ∈ hash) →
    mark_inv pic0 pic →
    is_marked (heap pic) w = true →
    objects pic !! w = Some (ObjWeak hash prev) →
    0 ≤ j → j + Z.of_nat (unmarked_count pic) < SIZE_MOD →
    ∃ pic' j', for_each (weak_entry fuel) es (pic, j) = Ret (pic', j').
Proof.
  intros Hwf Hfuel.
  induction es as [|[k v] es IH]; intros pic j Hsub Hinv Hw Ho Hj Hb.
  - by eexists _, _.
  - assert ((k, v) ∈ hash) as Hin by (apply Hsub; by left).
    destruct (weak_entry_total fuel pic0 pic j k v w hash prev Hwf Hfuel
                (proj1 Hinv) Ho Hin) as (pic1 & j1 & Hstep).
    destruct (weak_entry_inv _ _ _ _ _ _ _ _ _ _ _ Hinv Hw Ho Hin Hstep)
      as (Hinv1 & Hext1 & Hcase).
    destruct (mark_ext_weak _ _ _ _ _ Hext1 Hw Ho) as [Hw1 Ho1].
    destruct (IH pic1 j1) as (pic' & j' & Hrest); auto.
    { intros e He. apply Hsub. by right. }
    { destruct Hcase as [(-> & -> & _)|[-> Hlt]]; [done|].
      rewrite size_wrap_small by lia. lia. }
    { destruct Hcase as [(-> & -> & _)|[-> Hlt]]; [done|].
      rewrite size_wrap_small by lia. lia. }
    exists pic', j'.
    change (for_each (weak_entry fuel) ((k, v) :: es) (pic, j))
      with (weak_entry fuel (pic, j) (k, v) ≫= for_each (weak_entry fuel) es).
    by rewrite Hstep.
Qed.

Lemma weak_pass_total (fuel : nat) pic0 (n : nat) :
  graph_wf (objects pic0) → (unmarked_count pic0 < fuel)%nat →
  ∀ pic (weak : option addr) (ws : list addr) (j : Z),
    chain (objects pic) weak ws →
    (∀ w, w ∈ ws → is_marked (heap pic) w = true) →
    mark_inv pic0 pic →
    0 ≤ j → j + Z.of_nat (unmarked_count pic) < SIZE_MOD →
    (length ws ≤ n)%nat →
    ∃ pic' j', weak_pass n fuel pic weak j = Ret (pic', j').
Proof.
  intros Hwf Hfuel.
  induction n as [|n IH]; intros pic weak ws j Hc Hall Hinv Hj Hb Hlen.
  - destruct ws; [|simpl in Hlen; lia]. inversion Hc; subst.
    by eexists _, _.
  - inversion Hc as [|w hash prev ws' Ho Hc' Heq1 Heq2]; subst;
      [by eexists _, _|].
    simpl. rewrite Ho.
    assert (is_marked (heap pic) w = true) as Hw by (apply Hall; by left).
    destruct (weak_entries_total fuel pic0 w hash prev hash Hwf Hfuel pic j
                ltac:(done) Hinv Hw Ho Hj Hb) as (pic1 & j1 & Hes).
    destruct (weak_entries_inv fuel pic0 w hash prev hash pic j pic1 j1
                ltac:(done) Hinv Hw Ho Hj Hb Hes)
      as (Hinv1 & Hext1 & Hle1 & Hb1 & _).
    destruct (mark_ext_weak _ _ _ _ _ Hext1 Hw Ho) as [Hw1 Ho1].
    rewrite Hes. simpl. rewrite Ho1.
    assert (∀ w', w' ∈ ws' → is_marked (heap pic) w' = true) as Hall'
      by (intros w' Hw'; apply Hall; by right).
    apply (IH pic1 prev ws' j1); auto.
    + by apply (chain_mark_ext pic).
    + intros w' Hw'. eapply mark_ext_mono; eauto.
    + lia.
    + lia.
    + simpl in Hlen. lia.
Qed.

Lemma chain_length pic (ws : list addr) :
  chain_ok pic → chain (objects pic) (weaks pic) ws →
  (length ws ≤ size (objects pic))%nat.
Proof.
  intros (ws' & Hc' & Hnd & Hws) Hc.
  assert (ws = ws') as ->.
  { clear Hnd Hws. revert ws' Hc'.
    induction Hc as [|w hash prev ws Ho Hc IH]; intros ws' Hc';
      inversion Hc' as [|w' hash' prev' ws'' Ho' Hc'']; subst; [done|].
    rewrite Ho in Ho'. inversion Ho'; subst. f_equal. by apply IH. }
  rewrite <- size_dom, <- (size_list_to_set (C := gset addr) ws') by done.
  apply subseteq_size. intros w Hw. apply elem_of_list_to_set in Hw.
  apply Hws in Hw as (_ & hash & prev & Ho). apply elem_of_dom. eauto.
Qed.

Lemma weak_fixpoint_total (fuel : nat) pic0 (n : nat) :
  graph_wf (objects pic0) →
  (size (objects pic0) < fuel)%nat →
  ∀ pic,
    mark_inv pic0 pic →
    (unmarked_count pic < n)%nat →
    Z.of_nat (unmarked_count pic) < SIZE_MOD →
    ∃ pic', weak_fixpoint n fuel pic = Ret pic'.
Proof.
  intros Hwf Hsize.
  assert (unmarked_count pic0 < fuel)%nat as Hfuel
    by (pose proof (unmarked_count_le pic0); lia).
  induction n as [|n IH]; intros pic Hinv Hn Hb; [lia|]. simpl.
  pose proof Hinv as (Hext & _ & _ & _ & Hch & _).
  pose proof Hch as (ws & Hc & Hnd & Hws).
  assert (length ws ≤ fuel)%nat as Hlen.
  { pose proof (chain_length pic ws Hch Hc) as Hl.
    destruct Hext as (_ & Hs & _).
    assert (size (objects pic) = size (objects pic0)) as Heq
      by (by rewrite <- !size_dom, (same_shape_dom _ _ Hs)).
    lia. }
  assert (∀ w, w ∈ ws → is_marked (heap pic) w = true) as Hall
    by (intros w Hw; by apply Hws in Hw as [? _]).
  destruct (weak_pass_total fuel pic0 fuel Hwf Hfuel pic (weaks pic) ws 0
              Hc Hall Hinv ltac:(lia) ltac:(lia) Hlen) as (pic1 & j1 & Hpass).
  destruct (weak_pass_inv fuel pic0 fuel pic (weaks pic) ws 0 pic1 j1 Hc Hall
              Hinv ltac:(lia) ltac:(lia) Hpass)
    as (Hinv1 & Hext1 & Hle & Hb1 & _).
  rewrite Hpass. simpl.
  destruct (0 <? j1) eqn:Hj1; [|by eexists].
  apply Z.ltb_lt in Hj1. apply IH; [done|lia|lia].
Qed.

(** With a budget above the number of cells the mark phase of a
    well-formed heap returns. *)
Lemma gc_mark_phase_total (fuel : nat) pic :
  graph_wf (objects pic) → roots_wf pic →
  weaks pic = None →
  (∀ x, is_marked (heap pic) x = false) →
  (size (objects pic) < fuel)%nat →
  Z.of_nat (size (objects pic)) < SIZE_MOD →
  ∃ pic', gc_mark_phase fuel pic = Ret pic'.
Proof.
  intros Hwf Hroots Hweaks Hnone Hfuel Hsize. unfold gc_mark_phase.
  rewrite Hweaks. pose proof (unmarked_count_le pic) as Hle.
  destruct (mark_roots_total fuel pic Hwf Hroots ltac:(lia)) as (pic1 & H1).
  rewrite H1. simpl.
  pose proof (mark_roots_inv _ _ _ Hnone Hweaks H1) as Hinv.
  pose proof (mark_ext_count _ _ (proj1 Hinv)).
  apply (weak_fixpoint_total fuel pic); auto; lia.
Qed.

(** ** The frame of the mark phase *)

Lemma weak_entry_frame (fuel : nat) pic (j : Z) e pic' (j' : Z) :
  weak_entry fuel (pic, j) e = Ret (pic', j') → same_frame pic pic'.
Proof.
  destruct e as [k v]. unfold weak_entry.
  destruct (is_marked (heap pic) k);
    [|intros Hr; inversion Hr; apply same_frame_refl].
  destruct (pic_obj_ptr v) as [p|] eqn:Hv;
    [|intros Hr; inversion Hr; apply same_frame_refl].
  destruct (negb (is_marked (heap pic) p));
    [|intros Hr; inversion Hr; apply same_frame_refl].
  intros Hrun. apply bind_Ret_inv in Hrun as (pic1 & Hmark & Hr).
  inversion Hr; subst. unfold gc_mark, gc_mark_with in Hmark.
  rewrite Hv in Hmark. apply gc_mark_object_marks, marks_object_ext in Hmark.
  apply Hmark.
Qed.

Lemma weak_entries_frame (fuel : nat) (es : list (addr * pic_value)) :
  ∀ pic (j : Z) pic' (j' : Z),
    for_each (weak_entry fuel) es (pic, j) = Ret (pic', j') →
    same_frame pic pic'.
Proof.
  induction es as [|e es IH]; intros pic j pic' j' Hrun.
  - inversion Hrun; subst. apply same_frame_refl.
  - change (for_each (weak_entry fuel) (e :: es) (pic, j))
      with (weak_entry fuel (pic, j) e ≫= for_each (weak_entry fuel) es)
      in Hrun.
    apply bind_Ret_inv in Hrun as ([pic1 j1] & H1 & Hrest).
    eapply same_frame_trans; [by eapply weak_entry_frame|by eapply IH].
Qed.

Lemma weak_pass_frame (fuel : nat) (n : nat) :
  ∀ pic (weak : option addr) (j : Z) pic' (j' : Z),
    weak_pass n fuel pic weak j = Ret (pic', j') → same_frame pic pic'.
Proof.
  induction n as [|n IH]; intros pic weak j pic' j' Hrun.
  - destruct weak; [discriminate|]. inversion Hrun; subst.
    apply same_frame_refl.
  - destruct weak as [w|]; simpl in Hrun;
      [|inversion Hrun; subst; apply same_frame_refl].
    destruct (objects pic !! w) as [[]|]; try discriminate.
    apply bind_Ret_inv in Hrun as ([pic1 j1] & Hes & Hrest).
    destruct (objects pic1 !! w) as [[]|]; try discriminate.
    eapply same_frame_trans; [by eapply weak_entries_frame|by eapply IH].
Qed.

Lemma weak_fixpoint_frame (fuel : nat) (n : nat) :
  ∀ pic pic', weak_fixpoint n fuel pic = Ret pic' → same_frame pic pic'.
Proof.
  induction n as [|n IH]; intros pic pic' Hrun; [discriminate|].
  simpl in Hrun. apply bind_Ret_inv in Hrun as ([pic1 j1] & Hpass & Hrest).
  apply weak_pass_frame in Hpass.
  destruct (0 <? j1).
  - eapply same_frame_trans; [done|by apply IH].
  - by inversion Hrest; subst.
Qed.

Lemma gc_mark_phase_frame (fuel : nat) pic pic' :
  gc_mark_phase fuel pic = Ret pic' → same_frame pic pic'.
Proof.
  unfold gc_mark_phase. destruct (weaks pic); [discriminate|].
  intros Hrun. apply bind_Ret_inv in Hrun as (pic1 & Hroots & Hfix).
  eapply same_frame_trans; [|by eapply weak_fixpoint_frame].
  by apply mark_roots_marks, marks_list_frame in Hroots.
Qed.

(** ** The sweep phase *)

Lemma purge_weak_hash_idemp (h0 : heap_t) (hash : list (addr * pic_value)) :
  purge_weak_hash h0 (purge_weak_hash h0 hash) = purge_weak_hash h0 hash.
Proof.
  unfold purge_weak_hash. rewrite list_filter_filter.
  apply list_filter_iff. tauto.
Qed.

Lemma chain_insert_weak (m : gmap addr object) (w : addr)
    (hash hash' : list (addr * pic_value)) (prev head : option addr)
    (ws : list addr) :
  m !! w = Some (ObjWeak hash prev) →
  chain (<[w := ObjWeak hash' prev]> m) head ws → chain m head ws.
Proof.
  intros Hw Hc. induction Hc as [|w' h' p' ws Hl Hc IH]; [constructor|].
  destruct (decide (w' = w)) as [->|Hne].
  - rewrite lookup_insert_eq in Hl. inversion Hl; subst. by econstructor.
  - rewrite lookup_insert_ne in Hl by done. by econstructor.
Qed.

(** The weak purge walks the chain that starts at the chain head, purges
    every map on it by the marks it is given, and writes no other cell. *)
Lemma sweep_weaks_chain (n : nat) :
  ∀ pic pic', sweep_weaks n pic = Ret pic' →
    ∃ ws, chain (objects pic) (weaks pic) ws
      ∧ (∀ w hash prev, w ∈ ws →
           objects pic !! w = Some (ObjWeak hash prev) →
           objects pic' !! w
           = Some (ObjWeak (purge_weak_hash (heap pic) hash) prev))
      ∧ (∀ x, x ∉ ws → objects pic' !! x = objects pic !! x).
Proof.
  induction n as [|n IH]; intros pic pic' Hrun; simpl in Hrun.
  - destruct (weaks pic) eqn:Hw; [discriminate|]. inversion Hrun; subst.
    exists []. split; [constructor|]. split; [|done].
    intros w hash prev Hin. by apply elem_of_nil in Hin.
  - destruct (weaks pic) as [w|] eqn:Hw.
    2:{ inversion Hrun; subst. exists []. split; [constructor|].
        split; [|done]. intros w hash prev Hin. by apply elem_of_nil in Hin. }
    destruct (objects pic !! w) as [[]|] eqn:Ho; try discriminate.
    apply IH in Hrun as (ws & Hc & Hin & Hout). simpl in Hc, Hin, Hout.
    exists (w :: ws). split; [|split].
    + econstructor; [exact Ho|]. by eapply chain_insert_weak.
    + intros x hx px Hx Hox. destruct (decide (x = w)) as [->|Hne].
      * rewrite Ho in Hox. inversion Hox; subst hx px.
        destruct (decide (w ∈ ws)) as [Hw'|Hw'].
        -- rewrite (Hin w _ _ Hw' (lookup_insert_eq _ _ _)).
           by rewrite purge_weak_hash_idemp.
        -- rewrite (Hout w Hw'). by rewrite lookup_insert_eq.
      * apply elem_of_cons in Hx as [?|Hx]; [done|].
        apply (Hin x hx px Hx). by rewrite lookup_insert_ne.
    + intros x Hx. apply not_elem_of_cons in Hx as [Hne Hx].
      rewrite (Hout x Hx). by rewrite lookup_insert_ne.
Qed.

Lemma sweep_weaks_cells (n : nat) :
  ∀ pic pic', sweep_weaks n pic = Ret pic' →
    weaks pic' = None
    ∧ ∀ x, objects pic' !! x = objects pic !! x
           ∨ ∃ hash prev,
               objects pic !! x = Some (ObjWeak hash prev)
               ∧ objects pic' !! x
                 = Some (ObjWeak (purge_weak_hash (heap pic) hash) prev).
Proof.
  induction n as [|n IH]; intros pic pic' Hrun; simpl in Hrun.
  - destruct (weaks pic) eqn:Hw; [discriminate|]. inversion Hrun; subst.
    split; [done|]. by left.
  - destruct (weaks pic) as [w|] eqn:Hw.
    2:{ inversion Hrun; subst. split; [done|]. by left. }
    destruct (objects pic !! w) as [[]|] eqn:Ho; try discriminate.
    apply IH in Hrun as [Hnone Hcells]. split; [done|].
    intros x. simpl in Hcells.
    destruct (decide (x = w)) as [->|Hne].
    + right. exists hash, prev. split; [done|].
      destruct (Hcells w) as [Heq|(hash1 & prev1 & H1 & Heq)].
      * by rewrite Heq, lookup_insert_eq.
      * rewrite lookup_insert_eq in H1. inversion H1; subst.
        by rewrite Heq, purge_weak_hash_idemp.
    + destruct (Hcells x) as [Heq|(hash1 & prev1 & H1 & Heq)].
      * left. by rewrite Heq, lookup_insert_ne.
      * right. rewrite lookup_insert_ne in H1 by done. eauto.
Qed.

(** *** Finalizers *)

Lemma pic_free_frame pic (data : ptr) :
  pic_free pic data = set_userdata (userdata (pic_free pic data)) pic.
Proof.
  unfold pic_free, call_allocf.
  by destruct (allocf pic (userdata pic) data 0).
Qed.

Lemma gc_finalize_object_inv pic obj (rel : list release) pic' :
  gc_finalize_object pic obj = Ret (rel, pic') →
  ∃ o, objects pic !! obj = Some o ∧ finalizable o = true
       ∧ pic' = set_userdata (userdata pic') pic.
Proof.
  unfold gc_finalize_object. intros Hrun.
  destruct (objects pic !! obj) as [o|]; [|discriminate].
  exists o. split; [done|].
  assert (pic = set_userdata (userdata pic) pic) as Hid by (by destruct pic).
  destruct o as [| | | | | | | | | | |ty dat| | | | | |tag];
    try (inversion Hrun; subst rel pic'; split; [done|];
         first [exact Hid|apply pic_free_frame]).
  - destruct (dt_dtor ty); inversion Hrun; subst rel pic'; by split.
  - destruct tag; inversion Hrun; subst rel pic'; by split.
Qed.


(** A finalizer that does not return has met a cell that it cannot
    read: this is the only way in which it fails. *)
Lemma gc_finalize_object_fail pic obj (f : failure) :
  failure_of (gc_finalize_object pic obj) = Some f →
  gc_finalize_object pic obj = Undef
  ∧ ∀ o, objects pic !! obj = Some o → finalizable o = false.
Proof.
  unfold gc_finalize_object. destruct (objects pic !! obj) as [o|]; [|done].
  destruct o as [| | | | | | | | | | |ty dat| | | | | |tag]; try discriminate.
  - destruct (dt_dtor ty); discriminate.
  - destruct tag; try discriminate; intros _; (split; [done|]);
      by intros o [= <-].
Qed.

Lemma finalizer_calls_objects pic0 pic obj :
  objects pic = objects pic0 →
  finalizer_calls pic obj = finalizer_calls pic0 obj.
Proof.
  intros Ho. unfold finalizer_calls, gc_finalize_object. rewrite Ho.
  destruct (objects pic0 !! obj) as [o|]; [|done].
  destruct o as [| | | | | | | | | | |ty dat| | | | | |tag]; try done.
  - by destruct (dt_dtor ty).
  - by destruct tag.
Qed.

Lemma gc_finalize_object_set_heap (h : heap_t) pic obj :
  gc_finalize_object (set_heap h pic) obj
  = '(rel, p) ← gc_finalize_object pic obj; Ret (rel, set_heap h p).
Proof.
  unfold gc_finalize_object. simpl.
  destruct (objects pic !! obj) as [o|]; [|done].
  assert (∀ data, pic_free (set_heap h pic) data
                  = set_heap h (pic_free pic data)) as Hfree.
  { intros data. unfold pic_free, call_allocf. simpl.
    by destruct (allocf pic (userdata pic) data 0). }
  destruct o as [| | | | | | | | | | |ty dat| | | | | |tag]; simpl;
    try done; try (by rewrite Hfree).
  - by destruct (dt_dtor ty).
  - by destruct tag.
Qed.

Lemma finalize_set_heap (h : heap_t) pic obj :
  finalize (set_heap h pic) obj
  = finalize pic obj ≫= fun p => Ret (set_heap h p).
Proof.
  unfold finalize. rewrite gc_finalize_object_set_heap.
  by destruct (gc_finalize_object pic obj) as [[rel p]| | |].
Qed.

Lemma for_each_finalize_set_heap (h : heap_t) (l : list addr) :
  ∀ pic, for_each finalize l (set_heap h pic)
         = for_each finalize l pic ≫= fun p => Ret (set_heap h p).
Proof.
  induction l as [|x l IH]; intros pic; simpl; [done|].
  rewrite finalize_set_heap.
  destruct (finalize pic x) as [p| | |]; simpl; [|done..]. apply IH.
Qed.

Lemma finalize_inv pic obj pic' :
  finalize pic obj = Ret pic' →
  (∃ o, objects pic !! obj = Some o ∧ finalizable o = true)
  ∧ pic' = set_released (released pic ++ finalizer_calls pic obj)
             (set_userdata (userdata pic') pic).
Proof.
  unfold finalize, finalizer_calls. intros Hrun.
  destruct (gc_finalize_object pic obj) as [[rel p]| | |] eqn:Hf;
    try discriminate.
  destruct (gc_finalize_object_inv _ _ _ _ Hf) as (o & Ho & Hfin & Hp).
  split; [eauto|]. simpl in Hrun. inversion Hrun; subst pic'; clear Hrun.
  rewrite Hp. done.
Qed.

Lemma for_each_finalize_inv (l : list addr) :
  ∀ pic pic', for_each finalize l pic = Ret pic' →
    (∀ obj, obj ∈ l →
       ∃ o, objects pic !! obj = Some o ∧ finalizable o = true)
    ∧ pic' = set_released (released pic ++ flat_map (finalizer_calls pic) l)
               (set_userdata (userdata pic') pic).
Proof.
  induction l as [|x l IH]; intros pic pic' Hrun; simpl in Hrun.
  - inversion Hrun; subst. split.
    + intros obj Hin. by apply elem_of_nil in Hin.
    + simpl. rewrite app_nil_r. by destruct pic'.
  - apply bind_Ret_inv in Hrun as (pic1 & Hx & Hrun).
    destruct (finalize_inv _ _ _ Hx) as (Hox & H1).
    destruct (IH _ _ Hrun) as (Hall & H').
    assert (objects pic1 = objects pic) as Ho1 by (by rewrite H1).
    split.
    + intros obj Hin. apply elem_of_cons in Hin as [->|Hin]; [done|].
      rewrite <- Ho1. by apply Hall.
    + assert (flat_map (finalizer_calls pic1) l
              = flat_map (finalizer_calls pic) l) as Hfm.
      { apply flat_map_ext. intros obj. by apply finalizer_calls_objects. }
      rewrite Hfm in H'. clear Hfm Hall Hox Hx Hrun IH.
      remember (userdata pic') as u' eqn:Hu' in H' |- *. clear Hu'.
      remember (userdata pic1) as u1 eqn:Hu1 in H1. clear Hu1.
      subst pic1 pic'. simpl. by rewrite <- app_assoc.
Qed.


Lemma finalize_fail pic obj (f : failure) :
  failure_of (finalize pic obj) = Some f →
  finalize pic obj = Undef ∧ gc_finalize_object pic obj = Undef.
Proof.
  unfold finalize. intros Hfail.
  destruct (gc_finalize_object pic obj) as [[rel p]| | |] eqn:Hf;
    [done| |done|].
  - destruct (gc_finalize_object_fail pic obj (FPanic msg)) as [Hun _];
      [by rewrite Hf|]. congruence.
  - destruct (gc_finalize_object_fail pic obj FTimeout) as [Hun _];
      [by rewrite Hf|]. congruence.
Qed.

(** The finalizers of a list of objects fail only at an object that the
    finalizer cannot read. *)
Lemma for_each_finalize_fail (l : list addr) :
  ∀ pic (f : failure),
    failure_of (for_each finalize l pic) = Some f →
    for_each finalize l pic = Undef
    ∧ ∃ obj, obj ∈ l ∧ gc_finalize_object pic obj = Undef.
Proof.
  induction l as [|x l IH]; intros pic f Hfail; simpl in *; [done|].
  destruct (finalize pic x) as [pic1| | |] eqn:Hx; simpl in *.
  - destruct (finalize_inv _ _ _ Hx) as (_ & H1).
    destruct (IH _ _ Hfail) as (Hun & obj & Hin & Hobj).
    split; [done|]. exists obj. split; [by right|].
    assert (objects pic1 = objects pic) as Ho1 by (by rewrite H1).
    revert Hobj. unfold gc_finalize_object. rewrite Ho1.
    destruct (objects pic !! obj) as [o|]; [|done].
    destruct o as [| | | | | | | | | | |ty dat| | | | | |tag]; try done.
    + by destruct (dt_dtor ty).
    + by destruct tag.
  - destruct (finalize_fail pic x (FPanic msg)) as [Hun _];
      [by rewrite Hx|]. congruence.
  - split; [done|]. exists x. split; [by left|].
    by destruct (finalize_fail pic x FUndef) as [_ ?]; [by rewrite Hx|].
  - destruct (finalize_fail pic x FTimeout) as [Hun _];
      [by rewrite Hx|]. congruence.
Qed.

(** *** The page loop *)

Lemma for_each_finalize_unmarked (l : list addr) :
  ∀ pic, for_each finalize_unmarked l pic
         = for_each finalize
             (filter (fun x => is_marked (heap pic) x = false) l) pic.
Proof.
  induction l as [|x l IH]; intros pic; simpl; [done|].
  destruct (is_marked (heap pic) x) eqn:Hm.
  - assert (finalize_unmarked pic x = Ret pic) as ->
      by (unfold finalize_unmarked; by rewrite Hm).
    rewrite filter_cons_False by (by rewrite Hm). simpl. apply IH.
  - assert (finalize_unmarked pic x = finalize pic x) as ->
      by (unfold finalize_unmarked; by rewrite Hm).
    rewrite filter_cons_True by done. simpl.
    destruct (finalize pic x) as [pic1| | |] eqn:Hx; simpl; [|done..].
    rewrite IH. destruct (finalize_inv _ _ _ Hx) as (_ & ->). done.
Qed.

Lemma for_each_cons {A S : Type} (f : S → A → outcome S) (x : A) (l : list A)
    (s : S) :
  for_each f (x :: l) s = f s x ≫= for_each f l.
Proof. done. Qed.

Lemma sweep_loop (pages : list heap_page) :
  ∀ (i t : Z) pic,
    for_each (fun '(inuse, total, pic) page =>
                '(n, pic) ← gc_sweep_page pic page;
                Ret (size_wrap (inuse + n), size_wrap (total + PAGE_UNITS),
                     pic))
             pages (i, t, pic)
    = pic_f ← for_each finalize (sweep_dead (heap pic) pages) pic;
      let '(i', t', h') :=
        foldl (fun '(inuse, total, h) page =>
                 let '(n, h) := page_sweep h page in
                 (size_wrap (inuse + n), size_wrap (total + PAGE_UNITS), h))
              (i, t, heap pic) pages in
      Ret (i', t', set_heap h' pic_f).
Proof.
  induction pages as [|page pages IH]; intros i t pic.
  - simpl. by destruct pic.
  - rewrite for_each_cons. cbn [sweep_dead foldl]. unfold gc_sweep_page.
    rewrite for_each_finalize_unmarked, for_each_app.
    destruct (for_each finalize _ pic) as [pic1| | |] eqn:Hf; simpl; [|done..].
    destruct (for_each_finalize_inv _ _ _ Hf) as (_ & H1).
    assert (heap pic1 = heap pic) as -> by (by rewrite H1).
    destruct (page_sweep (heap pic) page) as [n h] eqn:Hps. simpl.
    rewrite IH. simpl. rewrite for_each_finalize_set_heap.
    destruct (for_each finalize (sweep_dead h pages) pic1) as [pic2| | |];
      simpl; [|done..].
    by destruct (foldl _ _ pages) as [[i' t'] h'].
Qed.

(** The page loop is the finalization of the unmarked objects, in the
    order of the pages, followed by the sweep of the back-end's data. *)
Lemma sweep_pages_unfold pic :
  sweep_pages pic
  = pic_f ← for_each finalize
              (sweep_dead (heap pic) (heap_pages (heap pic))) pic;
    let '(inuse, total, h) := sweep_heap (heap pic) (heap_pages (heap pic)) in
    Ret (inuse, total, set_heap h pic_f).
Proof. unfold sweep_pages, sweep_heap. apply sweep_loop. Qed.

Lemma sweep_heap_total (h : heap_t) (pages : list heap_page) :
  (sweep_heap h pages).1.2
  = size_wrap (PAGE_UNITS * Z.of_nat (length pages)).
Proof.
  unfold sweep_heap.
  assert (∀ (pages : list heap_page) (i t : Z) (h : heap_t),
            0 ≤ t < SIZE_MOD →
            (foldl (fun '(inuse, total, h) page =>
               let '(n, h) := page_sweep h page in
               (size_wrap (inuse + n), size_wrap (total + PAGE_UNITS), h))
               (i, t, h) pages).1.2
            = size_wrap (t + PAGE_UNITS * Z.of_nat (length pages))) as Hfold.
  { clear. induction pages as [|page pages IH]; intros i t h Ht.
    - simpl. rewrite Z.mul_0_r, Z.add_0_r. symmetry. by apply size_wrap_small.
    - simpl. destruct (page_sweep h page) as [n h'].
      rewrite IH by apply size_wrap_range.
      unfold size_wrap. rewrite Zplus_mod_idemp_l. f_equal. lia. }
  apply (Hfold pages 0 0 h). by vm_compute.
Qed.

Lemma sweep_pages_inv pic (inuse total : Z) pic' :
  sweep_pages pic = Ret (inuse, total, pic') →
  ∃ pic_f,
    for_each finalize (sweep_dead (heap pic) (heap_pages (heap pic))) pic
    = Ret pic_f
    ∧ pic' = set_heap (heap pic') pic_f
    ∧ sweep_heap (heap pic) (heap_pages (heap pic)) = (inuse, total, heap pic')
    ∧ total = size_wrap (PAGE_UNITS * Z.of_nat (length (heap_pages (heap pic)))).
Proof.
  rewrite sweep_pages_unfold. intros Hrun.
  apply bind_Ret_inv in Hrun as (pic_f & Hf & Hr).
  pose proof (sweep_heap_total (heap pic) (heap_pages (heap pic))) as Ht.
  destruct (sweep_heap _ _) as [[i t] h]. simpl in Ht.
  inversion Hr; subst inuse total pic'; clear Hr.
  exists pic_f. by repeat split.
Qed.

Lemma sweep_pages_frame pic (inuse total : Z) pic' :
  sweep_pages pic = Ret (inuse, total, pic') →
  pic' = set_heap (heap pic')
           (set_released
              (released pic
               ++ flat_map (finalizer_calls pic)
                    (sweep_dead (heap pic) (heap_pages (heap pic))))
              (set_userdata (userdata pic') pic)).
Proof.
  intros Hrun. apply sweep_pages_inv in Hrun as (pic_f & Hf & Hp & _).
  apply for_each_finalize_inv in Hf as (_ & Hf).
  rewrite Hp. rewrite Hf at 1. done.
Qed.


Lemma sweep_pages_fail pic (f : failure) :
  failure_of (sweep_pages pic) = Some f →
  sweep_pages pic = Undef
  ∧ ∃ obj, obj ∈ sweep_dead (heap pic) (heap_pages (heap pic))
           ∧ gc_finalize_object pic obj = Undef.
Proof.
  rewrite sweep_pages_unfold. intros Hfail.
  set (dead := sweep_dead (heap pic) (heap_pages (heap pic))) in *.
  destruct (for_each finalize dead pic) as [pic_f| | |] eqn:Hf.
  - simpl in Hfail. by destruct (sweep_heap _ _) as [[i t] h].
  - destruct (for_each_finalize_fail dead pic (FPanic msg)) as (Hun & _);
      [by rewrite Hf|]. congruence.
  - split; [done|].
    by destruct (for_each_finalize_fail dead pic FUndef) as (_ & ?);
      [by rewrite Hf|].
  - destruct (for_each_finalize_fail dead pic FTimeout) as (Hun & _);
      [by rewrite Hf|]. congruence.
Qed.

Lemma finalizer_calls_cells pic pic1 obj :
  (objects pic1 !! obj = objects pic !! obj
   ∨ ∃ hash prev hash' prev',
       objects pic !! obj = Some (ObjWeak hash prev)
       ∧ objects pic1 !! obj = Some (ObjWeak hash' prev')) →
  finalizer_calls pic1 obj = finalizer_calls pic obj.
Proof.
  unfold finalizer_calls, gc_finalize_object.
  intros [->|(hash & prev & hash' & prev' & -> & ->)]; [|done].
  destruct (objects pic !! obj) as [o|]; [|done].
  destruct o as [| | | | | | | | | | |ty dat| | | | | |tag]; try done.
  - by destruct (dt_dtor ty).
  - by destruct tag.
Qed.

(** The four steps of a sweep that returns. *)
Lemma gc_sweep_phase_steps (fuel : nat) pic pic' :
  gc_sweep_phase fuel pic = Ret pic' →
  ∃ ws pic1 inuse total pic3,
    sweep_weaks fuel pic = Ret pic1
    ∧ chain (objects pic) (weaks pic) ws
    ∧ weaks pic1 = None ∧ heap pic1 = heap pic
    ∧ (∀ w hash prev, w ∈ ws →
         objects pic !! w = Some (ObjWeak hash prev) →
         objects pic1 !! w
         = Some (ObjWeak
                   (filter (fun e => is_marked (heap pic) e.1 = true) hash)
                   prev))
    ∧ (∀ x, x ∉ ws → objects pic1 !! x = objects pic !! x)
    ∧ sweep_oblist pic1
      = set_oblist (filter (fun e => symbol_kept (heap pic) e = true)
                           (oblist pic)) pic1
    ∧ sweep_pages (sweep_oblist pic1) = Ret (inuse, total, pic3)
    ∧ (∃ pic_f,
         for_each finalize (sweep_dead (heap pic) (heap_pages (heap pic)))
           (sweep_oblist pic1) = Ret pic_f
         ∧ pic3 = set_heap (heap pic3) pic_f)
    ∧ released pic3
      = released pic
        ++ flat_map (finalizer_calls pic)
             (sweep_dead (heap pic) (heap_pages (heap pic)))
    ∧ sweep_heap (heap pic) (heap_pages (heap pic)) = (inuse, total, heap pic3)
    ∧ total = size_wrap (PAGE_UNITS * Z.of_nat (length (heap_pages (heap pic))))
    ∧ (PIC_PAGE_REQUEST_THRESHOLD total ≤ inuse →
         ∃ h, heap_morecore (heap pic3) = Ret h ∧ pic' = set_heap h pic3)
    ∧ (inuse < PIC_PAGE_REQUEST_THRESHOLD total → pic' = pic3).
Proof.
  unfold gc_sweep_phase. intros Hrun.
  apply bind_Ret_inv in Hrun as (pic1 & Hweak & Hrun).
  apply bind_Ret_inv in Hrun as ([[inuse total] pic3] & Hpages & Hrun).
  destruct (sweep_weaks_frame _ _ _ Hweak) as [Hheap Hframe].
  destruct (same_frame_tables _ _ Hframe) as (Hob & _).
  destruct (sweep_weaks_chain _ _ _ Hweak) as (ws & Hc & Hin & Hout).
  destruct (sweep_weaks_cells _ _ _ Hweak) as [Hnone Hcells].
  exists ws, pic1, inuse, total, pic3.
  split; [done|]. split; [done|]. split; [done|]. split; [done|].
  split; [done|]. split; [done|]. split.
  { unfold sweep_oblist. by rewrite Hheap, Hob. }
  split; [done|].
  pose proof (sweep_pages_frame _ _ _ _ Hpages) as Hfr.
  destruct (sweep_pages_inv _ _ _ _ Hpages) as (pic_f & Hf & H3 & Hsh & Htot).
  simpl in Hf, Hsh, Htot, Hfr. rewrite Hheap in Hf, Hsh, Htot, Hfr.
  split; [by exists pic_f|]. split.
  { rewrite Hfr. simpl.
    assert (released pic1 = released pic) as ->
      by (destruct Hframe as (h & m & w & ->); done).
    f_equal. apply flat_map_ext. intros obj.
    apply finalizer_calls_cells. simpl.
    destruct (Hcells obj) as [?|(hash & prev & ? & ?)]; [by left|].
    right. by exists hash, prev, (purge_weak_hash (heap pic) hash), prev. }
  split; [done|]. split; [done|].
  unfold growth_check in Hrun. split.
  - intros Hle. apply Z.leb_le in Hle. rewrite Hle in Hrun.
    apply bind_Ret_inv in Hrun as (h & Hmore & Hr). exists h.
    split; [done|]. by inversion Hr.
  - intros Hlt. apply Z.leb_gt in Hlt. rewrite Hlt in Hrun. by inversion Hrun.
Qed.

(** A sweep that does not return ends where its first failing step
    ends: in the weak purge; or in the page loop, at a finalizer that
    meets a cell it cannot read; or in the page request of the growth
    check. *)
Lemma gc_sweep_phase_fail (fuel : nat) pic (f : failure) :
  failure_of (gc_sweep_phase fuel pic) = Some f →
  failure_of (sweep_weaks fuel pic) = Some f
  ∨ ∃ pic1,
      sweep_weaks fuel pic = Ret pic1
      ∧ ((f = FUndef
          ∧ ∃ obj, obj ∈ sweep_dead (heap pic) (heap_pages (heap pic))
                   ∧ gc_finalize_object (sweep_oblist pic1) obj = Undef)
         ∨ ∃ inuse total pic3,
             sweep_pages (sweep_oblist pic1) = Ret (inuse, total, pic3)
             ∧ PIC_PAGE_REQUEST_THRESHOLD total ≤ inuse
             ∧ failure_of (heap_morecore (heap pic3)) = Some f).
Proof.
  unfold gc_sweep_phase. intros Hfail.
  destruct (sweep_weaks fuel pic) as [pic1| | |] eqn:Hweak;
    [|by left..].
  right. exists pic1. split; [done|]. simpl in Hfail.
  destruct (sweep_weaks_frame _ _ _ Hweak) as [Hheap _].
  destruct (sweep_pages (sweep_oblist pic1)) as [[[inuse total] pic3]| | |]
    eqn:Hpages.
  - right. exists inuse, total, pic3. split; [done|].
    simpl in Hfail. unfold growth_check in Hfail.
    destruct (Z.leb_spec (PIC_PAGE_REQUEST_THRESHOLD total) inuse);
      [|discriminate].
    split; [done|]. by destruct (heap_morecore (heap pic3)).
  - destruct (sweep_pages_fail (sweep_oblist pic1) (FPanic msg))
      as [Hun _]; [by rewrite Hpages|]. congruence.
  - left. simpl in Hfail. inversion Hfail; subst f. split; [done|].
    destruct (sweep_pages_fail (sweep_oblist pic1) FUndef)
      as [_ (obj & Hin & Hobj)]; [by rewrite Hpages|].
    simpl in Hin. rewrite Hheap in Hin. eauto.
  - destruct (sweep_pages_fail (sweep_oblist pic1) FTimeout)
      as [Hun _]; [by rewrite Hpages|]. congruence.
Qed.

(** C6: within one [gc_sweep_phase] the weak purge comes first: it
    drains the chain, purges every map on it by the marks of the mark
    phase and leaves the back-end's heap alone.  The symbol purge comes
    next, reading the same marks.  The page loop runs on the result: it
    hands every object that it finds unmarked to [gc_finalize_object], in
    the order of the pages, which adds the finalizers' external calls to
    the log, and yields [inuse] and [total].  The growth check comes last
    and calls [heap_morecore] once when the threshold of [total] is at
    most [inuse], and not at all otherwise.  A sweep that does not return
    ends in the first of these steps that does not. *)
Theorem gc_sweep_phase_order (fuel : nat) pic :
  (∀ pic', gc_sweep_phase fuel pic = Ret pic' →
   ∃ ws pic1 inuse total pic3,
     sweep_weaks fuel pic = Ret pic1
     ∧ chain (objects pic) (weaks pic) ws
     ∧ weaks pic1 = None ∧ heap pic1 = heap pic
     ∧ (∀ w hash prev, w ∈ ws →
          objects pic !! w = Some (ObjWeak hash prev) →
          objects pic1 !! w
          = Some (ObjWeak
                    (filter (fun e => is_marked (heap pic) e.1 = true) hash)
                    prev))
     ∧ (∀ x, x ∉ ws → objects pic1 !! x = objects pic !! x)
     ∧ sweep_oblist pic1
       = set_oblist (filter (fun e => symbol_kept (heap pic) e = true)
                            (oblist pic)) pic1
     ∧ sweep_pages (sweep_oblist pic1) = Ret (inuse, total, pic3)
     ∧ (∃ pic_f,
          for_each finalize (sweep_dead (heap pic) (heap_pages (heap pic)))
            (sweep_oblist pic1) = Ret pic_f
          ∧ pic3 = set_heap (heap pic3) pic_f)
     ∧ released pic3
       = released pic
         ++ flat_map (finalizer_calls pic)
              (sweep_dead (heap pic) (heap_pages (heap pic)))
     ∧ sweep_heap (heap pic) (heap_pages (heap pic))
       = (inuse, total, heap pic3)
     ∧ total
       = size_wrap (PAGE_UNITS * Z.of_nat (length (heap_pages (heap pic))))
     ∧ (PIC_PAGE_REQUEST_THRESHOLD total ≤ inuse →
          ∃ h, heap_morecore (heap pic3) = Ret h ∧ pic' = set_heap h pic3)
     ∧ (inuse < PIC_PAGE_REQUEST_THRESHOLD total → pic' = pic3))
  ∧ (∀ f, failure_of (gc_sweep_phase fuel pic) = Some f →
     failure_of (sweep_weaks fuel pic) = Some f
     ∨ ∃ pic1,
         sweep_weaks fuel pic = Ret pic1
         ∧ ((f = FUndef
             ∧ ∃ obj, obj ∈ sweep_dead (heap pic) (heap_pages (heap pic))
                      ∧ gc_finalize_object (sweep_oblist pic1) obj = Undef)
            ∨ ∃ inuse total pic3,
                sweep_pages (sweep_oblist pic1) = Ret (inuse, total, pic3)
                ∧ PIC_PAGE_REQUEST_THRESHOLD total ≤ inuse
                ∧ failure_of (heap_morecore (heap pic3)) = Some f)).
Proof.
  split; [apply gc_sweep_phase_steps|apply gc_sweep_phase_fail].
Qed.

Lemma live_ext pic pic' (x : addr) :
  roots pic = roots pic' → same_shape (objects pic) (objects pic') →
  live pic x → live pic' x.
Proof.
  intros Hr Hs.
  induction 1 as [a Ha|a o c Ha IHa Ho Hc|w hash prev k p Hw IHw Ho Hin Hk IHk].
  - apply live_root. by rewrite <- Hr.
  - destruct (same_shape_lookup _ _ _ _ Hs Ho) as (o' & Ho' & Hsh).
    apply (live_child pic' a o' c); [done..|].
    by rewrite (shape_children _ _ Hsh).
  - destruct (same_shape_lookup _ _ _ _ Hs Ho) as (o' & Ho' & Hsh).
    apply shape_weak_hash in Hsh as [prev' ->].
    by apply (live_weak pic' w hash prev' k p).
Qed.

Lemma gc_sweep_phase_tables (fuel : nat) pic pic' :
  gc_sweep_phase fuel pic = Ret pic' →
  ∃ pic1, sweep_weaks fuel pic = Ret pic1
    ∧ objects pic' = objects pic1
    ∧ oblist pic'
      = filter (fun e => symbol_kept (heap pic) e = true) (oblist pic).
Proof.
  intros Hrun.
  destruct (gc_sweep_phase_steps _ _ _ Hrun)
    as (ws & pic1 & inuse & total & pic3 & Hweak & _ & _ & Hheap & _ & _
        & Hob & Hpages & _ & _ & _ & _ & Hgrow & Hkeep).
  exists pic1. split; [done|].
  apply sweep_pages_frame in Hpages. rewrite Hob in Hpages.
  assert (objects pic3 = objects pic1
          ∧ oblist pic3
            = filter (fun e => symbol_kept (heap pic) e = true) (oblist pic))
    as [Ho3 Hs3] by (by rewrite Hpages).
  destruct (Z_lt_le_dec inuse (PIC_PAGE_REQUEST_THRESHOLD total)) as [Hlt|Hle].
  - by rewrite (Hkeep Hlt).
  - destruct (Hgrow Hle) as (h & _ & ->). done.
Qed.

Lemma pic_gc_enabled_inv (fuel : nat) pic pic' :
  gc_enable pic = true → pic_gc fuel pic = Ret pic' →
  ∃ pic_m,
    gc_mark_phase fuel (set_heap (gc_init (heap pic)) pic) = Ret pic_m
    ∧ gc_sweep_phase fuel pic_m = Ret pic'.
Proof.
  intros Hen Hrun. unfold pic_gc in Hrun. rewrite Hen in Hrun.
  by apply bind_Ret_inv in Hrun.
Qed.

(** ** Panics

    Nothing in the mark phase, in the purges or in a finalizer calls
    [pic_panic]: a collection panics only in the page request of its
    growth check. *)

Lemma no_panic_bind {A C : Type} (m : outcome A) (f : A → outcome C) :
  no_panic m → (∀ a, no_panic (f a)) → no_panic (m ≫= f).
Proof.
  intros Hm Hf msg. destruct m as [a| | |]; simpl; try done.
  - apply Hf.
  - intros _. by apply (Hm msg0).
Qed.

Lemma no_panic_for_each {A S : Type} (f : S → A → outcome S) (l : list A) :
  (∀ s x, no_panic (f s x)) → ∀ s, no_panic (for_each f l s).
Proof.
  intros Hf. induction l as [|x l IH]; intros s; [done|].
  rewrite for_each_cons. by apply no_panic_bind.
Qed.

Lemma no_panic_gc_mark_with
    (rec : pic_state U → addr → outcome (pic_state U)) pic v :
  (∀ pic obj, no_panic (rec pic obj)) → no_panic (gc_mark_with rec pic v).
Proof. intros Hrec. unfold gc_mark_with. by destruct (pic_obj_ptr v). Qed.

Lemma no_panic_mark_nullable
    (rec : pic_state U → addr → outcome (pic_state U)) pic (p : option addr) :
  (∀ pic obj, no_panic (rec pic obj)) → no_panic (mark_nullable rec pic p).
Proof. intros Hrec. unfold mark_nullable. by destruct p. Qed.

Ltac no_panic_step IH :=
  first
    [ done
    | apply IH
    | apply no_panic_gc_mark_with; intros ? ?
    | apply no_panic_mark_nullable; intros ? ?
    | apply no_panic_for_each; intros ? ?
    | apply no_panic_bind; [|intros ?] ].

Lemma gc_mark_object_no_panic (fuel : nat) :
  ∀ pic obj, no_panic (gc_mark_object fuel pic obj).
Proof.
  induction fuel as [|fuel IH]; intros pic obj; simpl; [done|].
  destruct (is_marked (heap pic) obj); [done|].
  destruct (objects _ !! obj) as [o|]; [|done].
  destruct o as [| | | | | | | | | | |ty dat| | | | | |tag];
    try (repeat no_panic_step IH).
  - destruct (dt_mark ty); repeat no_panic_step IH.
  - by destruct tag.
Qed.

Lemma gc_mark_no_panic (fuel : nat) pic v : no_panic (gc_mark fuel pic v).
Proof. apply no_panic_gc_mark_with, gc_mark_object_no_panic. Qed.

Lemma weak_entry_no_panic (fuel : nat) (st : pic_state U * Z)
    (e : addr * pic_value) :
  no_panic (weak_entry fuel st e).
Proof.
  destruct st as [pic j], e as [key val]. unfold weak_entry.
  destruct (is_marked (heap pic) key); [|done].
  destruct (pic_obj_ptr val); [|done].
  destruct (negb _); [|done].
  apply no_panic_bind; [apply gc_mark_no_panic|done].
Qed.

Lemma weak_pass_no_panic (n fuel : nat) :
  ∀ pic (weak : option addr) (j : Z), no_panic (weak_pass n fuel pic weak j).
Proof.
  induction n as [|n IH]; intros pic weak j; simpl;
    destruct weak as [w|]; try done.
  destruct (objects pic !! w) as [[]|]; try done.
  apply no_panic_bind.
  - apply no_panic_for_each. intros. apply weak_entry_no_panic.
  - intros [pic1 j1].
    destruct (objects pic1 !! w) as [[]|]; first [done|apply IH].
Qed.

Lemma weak_fixpoint_no_panic (n fuel : nat) :
  ∀ pic, no_panic (weak_fixpoint n fuel pic).
Proof.
  induction n as [|n IH]; intros pic; simpl; [done|].
  apply no_panic_bind; [apply weak_pass_no_panic|].
  intros [pic1 j]. destruct (0 <? j); [apply IH|done].
Qed.

Lemma gc_mark_phase_no_panic (fuel : nat) pic :
  no_panic (gc_mark_phase fuel pic).
Proof.
  unfold gc_mark_phase. destruct (weaks pic); [done|].
  apply no_panic_bind; [|intros; apply weak_fixpoint_no_panic].
  unfold mark_roots.
  repeat first
    [ apply gc_mark_no_panic
    | apply gc_mark_object_no_panic
    | apply no_panic_mark_nullable; intros ? ?
    | apply no_panic_for_each; intros ? ?
    | apply no_panic_bind; [|intros ?] ].
  by destruct (arena _ !! _) as [[]|]; [apply gc_mark_object_no_panic|..].
Qed.

Lemma sweep_weaks_no_panic (n : nat) : ∀ pic, no_panic (sweep_weaks n pic).
Proof.
  induction n as [|n IH]; intros pic; simpl; destruct (weaks pic) as [w|];
    try done.
  destruct (objects pic !! w) as [[]|]; first [done|apply IH].
Qed.

(** A collection that panics has panicked in [heap_morecore]. *)
Lemma pic_gc_panic (fuel : nat) pic (msg : string) :
  pic_gc fuel pic = Panic msg →
  ∃ pic_r : pic_state U, call_heap_morecore pic_r = Panic msg.
Proof.
  unfold pic_gc. destruct (gc_enable pic); simpl; [|discriminate].
  destruct (gc_mark_phase fuel _) as [pic_m| | |] eqn:Hmark; simpl;
    try discriminate.
  2:{ intros [= ->]. by destruct (gc_mark_phase_no_panic _ _ _ Hmark). }
  intros Hsweep.
  destruct (gc_sweep_phase_fail fuel pic_m (FPanic msg))
    as [Hweak|(pic1 & _ & [[? _]|(inuse & total & pic3 & _ & _ & Hmore)])];
    [by rewrite Hsweep| |done|].
  - destruct (sweep_weaks fuel pic_m) eqn:Hw; try discriminate.
    inversion Hweak; subst. by destruct (sweep_weaks_no_panic _ _ _ Hw).
  - exists pic3. unfold call_heap_morecore.
    destruct (heap_morecore (heap pic3)); try discriminate.
    by inversion Hmore.
Qed.

(** ** The attempts of an allocation *)

Lemma failure_of_rew {A : Type} (m m' : outcome A) (f : failure) :
  m = m' → failure_of m' = Some f → failure_of m = Some f.
Proof. by intros ->. Qed.

Ltac attempts_inv :=
  repeat match goal with
  | H : ∃ _, _ |- _ => destruct H
  | H : _ ∧ _ |- _ => destruct H
  | H : _ ∨ _ |- _ => destruct H
  | H1 : ?x = _, H2 : ?x = _ |- _ => rewrite H1 in H2
  | H1 : ?x = _, H2 : failure_of ?x = _ |- _ => rewrite H1 in H2; simpl in H2
  | _ => progress simplify_eq
  end.

(** C3, as the code has it: [pic_obj_alloc_unsafe] returns the cell of
    the first [heap_alloc] that succeeds among: one on the state as given
    (after a collection under [GC_STRESS]), one after [pic_gc], one after
    [heap_morecore], with the requested tag written; and it panics with
    its own message when the third fails.  But the collection and the
    page request are calls that may not return, and then the allocation
    ends as they do: a call that does not return ends in the first step
    that does not. *)
Theorem pic_obj_alloc_unsafe_attempts (fuel : nat) pic (size : Z)
    (type : pic_type) :
  (∀ obj pic',
     pic_obj_alloc_unsafe fuel pic size type = Ret (obj, pic') ↔
     ∃ pic0 pic_a,
       (if GC_STRESS then pic_gc fuel pic else Ret pic) = Ret pic0
       ∧ pic' = init_header pic_a obj type
       ∧ (call_heap_alloc pic0 size = (Some obj, pic_a)
          ∨ ∃ pic1 pic2,
              call_heap_alloc pic0 size = (None, pic1)
              ∧ pic_gc fuel pic1 = Ret pic2
              ∧ (call_heap_alloc pic2 size = (Some obj, pic_a)
                 ∨ ∃ pic3 pic4,
                     call_heap_alloc pic2 size = (None, pic3)
                     ∧ call_heap_morecore pic3 = Ret pic4
                     ∧ call_heap_alloc pic4 size = (Some obj, pic_a))))
  ∧ (∀ f,
     failure_of (pic_obj_alloc_unsafe fuel pic size type) = Some f ↔
     failure_of (if GC_STRESS then pic_gc fuel pic else Ret pic) = Some f
     ∨ ∃ pic0 pic1,
         (if GC_STRESS then pic_gc fuel pic else Ret pic) = Ret pic0
         ∧ call_heap_alloc pic0 size = (None, pic1)
         ∧ (failure_of (pic_gc fuel pic1) = Some f
            ∨ ∃ pic2 pic3,
                pic_gc fuel pic1 = Ret pic2
                ∧ call_heap_alloc pic2 size = (None, pic3)
                ∧ (failure_of (call_heap_morecore pic3) = Some f
                   ∨ ∃ pic4 pic5,
                       call_heap_morecore pic3 = Ret pic4
                       ∧ call_heap_alloc pic4 size = (None, pic5)
                       ∧ f = FPanic "GC memory exhausted")))
  ∧ (∀ obj pic',
     pic_obj_alloc_unsafe fuel pic size type = Ret (obj, pic') →
     obj_tt <$> objects pic' !! obj = Some type).
Proof.
  split; [|split].
  - intros obj pic'. unfold pic_obj_alloc_unsafe.
    destruct (if GC_STRESS then pic_gc fuel pic else Ret pic)
      as [pic0| | |]; simpl; [|split; [done|by intros (? & ? & ? & _)]..].
    destruct (call_heap_alloc pic0 size) as [[o1|] pic1] eqn:H1; simpl;
      [split; intros ?; attempts_inv; solve [eauto 10]|].
    destruct (pic_gc fuel pic1) as [pic2| | |] eqn:H2; simpl;
      [|split; intros ?; attempts_inv; solve [eauto 10]..].
    destruct (call_heap_alloc pic2 size) as [[o3|] pic3] eqn:H3; simpl;
      [split; intros ?; attempts_inv; solve [eauto 15]|].
    destruct (call_heap_morecore pic3) as [pic4| | |] eqn:H4; simpl;
      [|split; intros ?; attempts_inv; solve [eauto 10]..].
    destruct (call_heap_alloc pic4 size) as [[o5|] pic5] eqn:H5; simpl;
      split; intros ?; attempts_inv; solve [eauto 20].
  - intros f. unfold pic_obj_alloc_unsafe.
    destruct (if GC_STRESS then pic_gc fuel pic else Ret pic)
      as [pic0| | |]; simpl; [|split; intros ?; attempts_inv; solve [eauto]..].
    destruct (call_heap_alloc pic0 size) as [[o1|] pic1] eqn:H1; simpl;
      [split; intros ?; attempts_inv; solve [eauto 10]|].
    destruct (pic_gc fuel pic1) as [pic2| | |] eqn:H2; simpl;
      [|split; intros ?; attempts_inv;
        solve [eauto 10 using failure_of_rew]..].
    destruct (call_heap_alloc pic2 size) as [[o3|] pic3] eqn:H3; simpl;
      [split; intros ?; attempts_inv; solve [eauto 15]|].
    destruct (call_heap_morecore pic3) as [pic4| | |] eqn:H4; simpl;
      [|split; intros ?; attempts_inv;
        solve [eauto 20 using failure_of_rew]..].
    destruct (call_heap_alloc pic4 size) as [[o5|] pic5] eqn:H5; simpl;
      split; intros ?; attempts_inv; solve [eauto 20].
  - intros obj pic' Hrun. unfold pic_obj_alloc_unsafe in Hrun.
    apply bind_Ret_inv in Hrun as (pic0 & _ & Hrun).
    apply bind_Ret_inv in Hrun as ([obj0 pic1] & _ & Hr).
    inversion Hr; subst. unfold init_header. simpl.
    by rewrite lookup_insert_eq.
Qed.

Lemma alloc_exhausted_gives_up (fuel : nat) pic (size : Z) (type : pic_type) :
  alloc_exhausted fuel pic size →
  pic_obj_alloc_unsafe fuel pic size type = Panic "GC memory exhausted".
Proof.
  intros (pic0 & pic1 & pic2 & pic3 & pic4 & pic5
          & H0 & H1 & H2 & H3 & H4 & H5).
  unfold pic_obj_alloc_unsafe. rewrite H0. simpl.
  rewrite H1. simpl. rewrite H2. simpl. rewrite H3. simpl.
  rewrite H4. simpl. by rewrite H5.
Qed.

(** Where a panic of an allocation comes from. *)
Lemma pic_obj_alloc_unsafe_panic (fuel : nat) pic (size : Z) (type : pic_type)
    (msg : string) :
  pic_obj_alloc_unsafe fuel pic size type = Panic msg →
  (msg = "GC memory exhausted"%string ∧ alloc_exhausted fuel pic size)
  ∨ ∃ pic_r : pic_state U, call_heap_morecore pic_r = Panic msg.
Proof.
  unfold pic_obj_alloc_unsafe, alloc_exhausted.
  destruct (if GC_STRESS then pic_gc fuel pic else Ret pic)
    as [pic0| | |] eqn:H0; simpl; try discriminate.
  2:{ intros [= ->]. right. destruct GC_STRESS; [|discriminate].
      by eapply pic_gc_panic. }
  destruct (call_heap_alloc pic0 size) as [[o1|] pic1] eqn:H1; simpl;
    [discriminate|].
  destruct (pic_gc fuel pic1) as [pic2| | |] eqn:H2; simpl; try discriminate.
  2:{ intros [= ->]. right. by eapply pic_gc_panic. }
  destruct (call_heap_alloc pic2 size) as [[o3|] pic3] eqn:H3; simpl;
    [discriminate|].
  destruct (call_heap_morecore pic3) as [pic4| | |] eqn:H4; simpl;
    try discriminate.
  2:{ intros [= ->]. right. by exists pic3. }
  destruct (call_heap_alloc pic4 size) as [[o5|] pic5] eqn:H5; simpl;
    [discriminate|].
  intros [= <-]. left. split; [done|].
  by exists pic0, pic1, pic2, pic3, pic4, pic5.
Qed.

(** C2, as the code has it: the message of [pic_obj_alloc_unsafe] is
    "GC memory exhausted", raised exactly when [heap_alloc] has failed
    for the third time, after a collection and a page request that both
    returned.  With a back-end whose page request panics as [pic_malloc]
    does, an allocation that panics otherwise has panicked in a page
    request, of the growth check of a collection or its own, with the
    message "memory exhausted".  The message "(GC) memory exhausted" is
    never produced. *)
Theorem alloc_exhausted_panics (fuel : nat) pic (size : Z) (type : pic_type) :
  (∀ (h : heap_t) msg, heap_morecore h = Panic msg →
     msg = "memory exhausted"%string) →
  (pic_obj_alloc_unsafe fuel pic size type = Panic "GC memory exhausted"
   ↔ alloc_exhausted fuel pic size)
  ∧ (∀ msg, pic_obj_alloc_unsafe fuel pic size type = Panic msg →
       (msg = "GC memory exhausted"%string ∧ alloc_exhausted fuel pic size)
       ∨ (msg = "memory exhausted"%string
          ∧ ∃ pic_r : pic_state U,
              call_heap_morecore pic_r = Panic "memory exhausted"))
  ∧ pic_obj_alloc_unsafe fuel pic size type ≠ Panic "(GC) memory exhausted".
Proof.
  intros Hmore.
  assert (∀ msg, pic_obj_alloc_unsafe fuel pic size type = Panic msg →
            (msg = "GC memory exhausted"%string ∧ alloc_exhausted fuel pic size)
            ∨ (msg = "memory exhausted"%string
               ∧ ∃ pic_r : pic_state U,
                   call_heap_morecore pic_r = Panic "memory exhausted"))
    as Hcases.
  { intros msg Hrun.
    destruct (pic_obj_alloc_unsafe_panic _ _ _ _ _ Hrun)
      as [?|(pic_r & Hr)]; [by left|]. right.
    assert (msg = "memory exhausted"%string) as ->.
    { unfold call_heap_morecore in Hr.
      destruct (heap_morecore (heap pic_r)) eqn:Hh; try discriminate.
      inversion Hr; subst. by eapply Hmore. }
    split; [done|]. by exists pic_r. }
  split; [|split; [done|]].
  - split; [|apply alloc_exhausted_gives_up].
    intros Hrun. by destruct (Hcases _ Hrun) as [[_ ?]|[? _]].
  - intros Hrun. by destruct (Hcases _ Hrun) as [[? _]|[? _]].
Qed.

(** C8: a collection that returns leaves in the symbol table exactly the
    entries whose symbol was null or marked when the sweep began, so no
    entry of an unmarked, and hence of an unreachable, symbol survives, and
    with unique names its name is no longer bound; the purge is the
    sweep's, the finalizer of a symbol does nothing at all. *)
Theorem symbol_purge (fuel : nat) pic pic' :
  gc_enable pic = true →
  pic_gc fuel pic = Ret pic' →
  ∃ pic_m,
    gc_mark_phase fuel (set_heap (gc_init (heap pic)) pic) = Ret pic_m
    ∧ oblist pic'
      = filter (fun e => symbol_kept (heap pic_m) e = true) (oblist pic)
    ∧ (∀ name sym, is_marked (heap pic_m) sym = false →
         (name, Some sym) ∉ oblist pic')
    ∧ (∀ name sym, NoDup (oblist pic).*1 →
         (name, Some sym) ∈ oblist pic →
         is_marked (heap pic_m) sym = false →
         name ∉ (oblist pic').*1)
    ∧ ((∀ x, is_marked (gc_init (heap pic)) x = false) →
       Z.of_nat (size (objects pic)) < SIZE_MOD →
       ∀ name sym, ¬ live pic sym → (name, Some sym) ∉ oblist pic')
    ∧ (∀ (pic0 : pic_state U) sym str,
         objects pic0 !! sym = Some (ObjSymbol str) →
         gc_finalize_object pic0 sym = Ret ([], pic0)).
Proof.
  intros Hen Hrun.
  destruct (pic_gc_enabled_inv _ _ _ Hen Hrun) as (pic_m & Hmark & Hsweep).
  exists pic_m. split; [done|].
  destruct (gc_sweep_phase_tables _ _ _ Hsweep) as (pic1 & _ & _ & Hob).
  destruct (same_frame_tables _ _ (gc_mark_phase_frame _ _ _ Hmark))
    as (Hob_m & _).
  rewrite Hob_m in Hob. simpl in Hob.
  assert (∀ name sym, is_marked (heap pic_m) sym = false →
            (name, Some sym) ∉ oblist pic') as Hgone.
  { intros name sym Hun. rewrite Hob. intros Hin.
    apply list_elem_of_filter in Hin as [Hkept _].
    unfold symbol_kept in Hkept; simpl in Hkept. congruence. }
  split; [done|]. split; [done|]. split; [|split].
  - intros name sym Hnd Hin Hun Hname.
    apply list_elem_of_fmap in Hname as ([name' sym'] & Heq & Hin').
    simpl in Heq. subst name'. rewrite Hob in Hin'.
    apply list_elem_of_filter in Hin' as [Hkept Hin'].
    assert (sym' = Some sym) as ->.
    { clear -Hnd Hin Hin'. induction (oblist pic) as [|[n s] l IH];
        [by apply elem_of_nil in Hin|].
      simpl in Hnd. apply NoDup_cons in Hnd as [Hn Hnd].
      apply elem_of_cons in Hin as [Hin|Hin], Hin' as [Hin'|Hin'].
      - congruence.
      - inversion Hin; subst. exfalso. apply Hn.
        apply list_elem_of_fmap. by exists (n, sym').
      - inversion Hin'; subst. exfalso. apply Hn.
        apply list_elem_of_fmap. by exists (n, Some sym).
      - by apply IH. }
    unfold symbol_kept in Hkept; simpl in Hkept. congruence.
  - intros Hnone Hsize name sym Hdead. apply Hgone.
    destruct (is_marked (heap pic_m) sym) eqn:Hm; [|done].
    exfalso. apply Hdead.
    apply (gc_mark_phase_live fuel (set_heap (gc_init (heap pic)) pic) pic_m
             Hnone Hsize Hmark) in Hm.
    eapply live_ext; [| |exact Hm]; [done|apply same_shape_refl].
  - intros pic0 sym str Ho. unfold gc_finalize_object. by rewrite Ho.
Qed.

(** C1, as the code has it: on a well-formed heap the mark phase
    returns with exactly the live objects marked, liveness being the least
    set that holds the roots, the children of its members, and the value
    of every entry of a live weak map whose key is live.  The weak purge
    of the sweep then leaves in each live weak map the entries whose key
    is live, in their order; the object values of the entries it leaves
    are live, hence marked when the pages are swept.  A weak map that is
    not live is not visited, and the rest of the sweep does not touch the
    entries. *)
Theorem weak_key_liveness (fuel : nat) pic :
  graph_wf (objects pic) → roots_wf pic →
  weaks pic = None →
  (∀ x, is_marked (heap pic) x = false) →
  (size (objects pic) < fuel)%nat →
  Z.of_nat (size (objects pic)) < SIZE_MOD →
  ∃ pic_m pic_s,
    gc_mark_phase fuel pic = Ret pic_m
    ∧ sweep_weaks fuel pic_m = Ret pic_s
    ∧ heap pic_s = heap pic_m
    ∧ weaks pic_s = None
    ∧ (∀ x, is_marked (heap pic_m) x = true ↔ live pic x)
    ∧ (∀ w hash prev,
         live pic w → objects pic !! w = Some (ObjWeak hash prev) →
         ∃ hash' prev',
           objects pic_s !! w = Some (ObjWeak hash' prev')
           ∧ hash' = filter (fun e => is_marked (heap pic_m) e.1 = true) hash
           ∧ (∀ k v, (k, v) ∈ hash' ↔ (k, v) ∈ hash ∧ live pic k)
           ∧ (∀ k p, (k, pic_obj_value p) ∈ hash' →
                live pic p ∧ is_marked (heap pic_m) p = true))
    ∧ (∀ w, ¬ live pic w → objects pic_s !! w = objects pic_m !! w)
    ∧ (∀ pic', gc_sweep_phase fuel pic_m = Ret pic' →
         objects pic' = objects pic_s).
Proof.
  intros Hwf Hroots Hweaks Hnone Hfuel Hsize.
  destruct (gc_mark_phase_total fuel pic Hwf Hroots Hweaks Hnone Hfuel Hsize)
    as (pic_m & Hmark).
  destruct (gc_mark_phase_inv _ _ _ Hnone Hsize Hmark) as (Hinv & Heph).
  pose proof (gc_mark_phase_live _ _ _ Hnone Hsize Hmark) as Hlive.
  pose proof Hinv as (Hext & _ & _ & _ & Hch & _).
  pose proof Hch as (ws & Hc & Hnd & Hws).
  pose proof Hext as (_ & Hs & _).
  assert (length ws ≤ fuel)%nat as Hlen.
  { pose proof (chain_length pic_m ws Hch Hc).
    assert (size (objects pic_m) = size (objects pic)) as Heq
      by (by rewrite <- !size_dom, (same_shape_dom _ _ Hs)).
    lia. }
  destruct (sweep_weaks_spec fuel pic_m ws Hc Hnd Hlen)
    as (pic_s & Hsweep & Hnil & Hother & Hpurged).
  exists pic_m, pic_s. split; [done|]. split; [done|].
  split; [by apply (sweep_weaks_frame _ _ _ Hsweep)|].
  split; [done|]. split; [done|]. split; [|split].
  - intros w hash prev Hw Ho.
    destruct (same_shape_lookup _ _ _ _ Hs Ho) as (o' & Ho' & Hsh).
    apply shape_weak_hash in Hsh as [prev' ->].
    assert (is_marked (heap pic_m) w = true) as Hwm by (by apply Hlive).
    assert (w ∈ ws) as Hin by (apply Hws; eauto).
    exists (purge_weak_hash (heap pic_m) hash), prev'.
    split; [by apply Hpurged|]. split; [done|]. split.
    + intros k v. unfold purge_weak_hash. rewrite list_elem_of_filter.
      simpl. rewrite Hlive. tauto.
    + intros k p Hkp. unfold purge_weak_hash in Hkp.
      apply list_elem_of_filter in Hkp as [Hk Hkp]. simpl in Hk.
      assert (is_marked (heap pic_m) p = true) as Hp
        by (by apply (Heph w hash prev' k p)).
      split; [by apply Hlive|done].
  - intros w Hdead. apply Hother. intros Hin. apply Hdead, Hlive.
    by apply Hws in Hin as [? _].
  - intros pic' Hrun.
    destruct (gc_sweep_phase_tables _ _ _ Hrun) as (pic1 & Hweak & Ho & _).
    rewrite Hsweep in Hweak. by inversion Hweak; subst.
Qed.

(** ** The executable conditions *)

Lemma forallb_elem_of {A : Type} (f : A → bool) (l : list A) :
  forallb f l = true → ∀ x, x ∈ l → f x = true.
Proof.
  intros Hall x Hx. apply (proj1 (forallb_forall f l) Hall).
  by apply list_elem_of_In.
Qed.

Lemma graph_wfb_spec (m : gmap addr object) :
  graph_wfb m = true → graph_wf m.
Proof.
  intros Hall.
  assert (∀ x o, m !! x = Some o → cell_ok m o = true) as Hcell.
  { intros x o Ho.
    apply (forallb_elem_of _ _ Hall (x, o)). by apply elem_of_map_to_list. }
  split.
  - intros x o Ho. specialize (Hcell x o Ho). unfold cell_ok in Hcell.
    apply andb_true_iff in Hcell as [[Ht Hc]%andb_true_iff _].
    split; [done|]. intros c Hin. apply elem_of_dom.
    pose proof (forallb_elem_of _ _ Hc c Hin) as Hb.
    by apply bool_decide_eq_true in Hb.
  - intros w hash prev k p Ho Hin. specialize (Hcell w _ Ho).
    unfold cell_ok in Hcell. apply andb_true_iff in Hcell as [_ Hh].
    apply elem_of_dom.
    pose proof (forallb_elem_of _ _ Hh (k, pic_obj_value p) Hin) as Hb.
    by apply bool_decide_eq_true in Hb.
Qed.

Lemma roots_wfb_spec pic : roots_wfb pic = true → roots_wf pic.
Proof.
  unfold roots_wfb.
  intros [[Hr Hlen]%andb_true_iff Hslots]%andb_true_iff. split.
  - intros r Hin. apply elem_of_dom.
    pose proof (forallb_elem_of _ _ Hr r Hin) as Hb.
    by apply bool_decide_eq_true in Hb.
  - intros i Hi. apply Nat.leb_le in Hlen.
    destruct (lookup_lt_is_Some_2 (arena pic) i ltac:(lia)) as [slot Hl].
    assert (is_Some slot) as [obj ->].
    { assert (slot ∈ take (Z.to_nat (arena_idx pic)) (arena pic)) as Hin
        by (apply list_elem_of_lookup; exists i; by rewrite lookup_take_lt).
      pose proof (forallb_elem_of _ _ Hslots slot Hin) as Hb.
      by apply bool_decide_eq_true in Hb. }
    by exists obj.
Qed.

(** * Further properties of gc.c *)

(** ** The allocator shim *)

Lemma pic_realloc_cases pic (p : ptr) (size : Z) :
  pic_malloc pic size = pic_realloc pic NULL size
  ∧ (∀ q pic', pic_realloc pic p size = Ret (q, pic') →
       (0 < size → q ≠ NULL)
       ∧ allocf pic (userdata pic) p size = (q, userdata pic')
       ∧ pic' = set_userdata (userdata pic') pic)
  ∧ (pic_realloc pic p size = Panic "memory exhausted"
     ↔ 0 < size ∧ (allocf pic (userdata pic) p size).1 = NULL)
  ∧ ((∃ q pic', pic_realloc pic p size = Ret (q, pic'))
     ∨ pic_realloc pic p size = Panic "memory exhausted").
Proof.
  split; [done|]. unfold pic_realloc, call_allocf.
  destruct (allocf pic (userdata pic) p size) as [q u] eqn:Ha. simpl.
  destruct (Z.eqb_spec q NULL) as [->|Hq]; simpl.
  - destruct (Z.ltb_spec 0 size) as [Hs|Hs]; simpl.
    + split; [intros ? ? [=]|]. split; [by split|by right].
    + split.
      { intros q' pic' [= <- <-]. split; [lia|done]. }
      split; [|left; eauto]. split; [intros [=]|]. intros [? _]; lia.
  - split.
    { intros q' pic' [= <- <-]. by split. }
    split; [|left; eauto]. split; [intros [=]|]. by intros [_ ?].
Qed.

(** X1: [pic_malloc] is [pic_realloc] of a null block.  A call that
    returns hands back a non-null block for a positive size and changes
    nothing but the allocator's own data; a call that does not return is
    the panic "memory exhausted", for a positive size that the allocator
    answered with null; a request of size 0 never panics. *)
Theorem pic_realloc_outcome pic (p : ptr) (size : Z) :
  pic_malloc pic size = pic_realloc pic NULL size
  ∧ (∀ q pic', pic_realloc pic p size = Ret (q, pic') →
       (0 < size → q ≠ NULL)
       ∧ allocf pic (userdata pic) p size = (q, userdata pic')
       ∧ pic' = set_userdata (userdata pic') pic)
  ∧ (pic_realloc pic p size = Panic "memory exhausted"
     ↔ 0 < size ∧ (allocf pic (userdata pic) p size).1 = NULL)
  ∧ ((∃ q pic', pic_realloc pic p size = Ret (q, pic'))
     ∨ pic_realloc pic p size = Panic "memory exhausted").
Proof. apply pic_realloc_cases. Qed.

(** ** More on the root arena *)

Lemma gc_protect_window pic obj pic' :
  arena_ok pic → gc_protect pic obj = Ret pic' →
  arena_ok pic'
  ∧ arena_idx pic' = arena_idx pic + 1
  ∧ arena_window pic' = arena_window pic ++ [Some obj]
  ∧ arena_roots pic' = arena_roots pic ++ [obj].
Proof.
  intros Hok Hrun.
  destruct (gc_protect_inv _ _ _ Hok Hrun) as (Hok' & Hidx & Hslot & Htake).
  split; [done|]. split; [done|].
  assert (arena_window pic' = arena_window pic ++ [Some obj]) as Hw.
  { unfold arena_window. rewrite Hidx.
    replace (Z.to_nat (arena_idx pic + 1)) with (S (Z.to_nat (arena_idx pic)))
      by (destruct Hok; lia).
    by rewrite (take_S_r _ _ _ Hslot), Htake. }
  split; [done|]. unfold arena_roots. fold (arena_window pic').
  fold (arena_window pic). rewrite Hw, omap_app. done.
Qed.

Lemma gc_protect_frame pic obj pic' :
  gc_protect pic obj = Ret pic' →
  ∃ u base slots size idx,
    pic' = set_arena_idx idx (set_arena base slots size (set_userdata u pic)).
Proof.
  unfold gc_protect. intros Hrun.
  apply bind_Ret_inv in Hrun as (pic1 & Hgrow & Hstore).
  assert (∃ u base slots size,
            pic1 = set_arena base slots size (set_userdata u pic))
    as (u & base & slots & size & ->).
  { destruct (arena_size pic <=? arena_idx pic).
    - apply bind_Ret_inv in Hgrow as ([p pic0] & Hre & Hr).
      apply pic_realloc_inv in Hre as (u & _ & -> & _).
      inversion Hr; subst. by eexists _, _, _, _.
    - inversion Hgrow; subst.
      exists (userdata pic1), (arena_base pic1), (arena pic1), (arena_size pic1).
      by destruct pic1. }
  destruct (_ <? _); [|discriminate]. inversion Hstore; subst.
  by eexists _, _, _, _, _.
Qed.

(** X2: a push that returns appends the object to the root window: the
    roots that were in the window are still there, in their order, also
    when the array had to grow, the index has grown by one, and nothing
    outside the arena and the allocator's data has changed. *)
Theorem gc_protect_pushes pic obj pic' :
  arena_ok pic →
  gc_protect pic obj = Ret pic' →
  arena_ok pic'
  ∧ arena_idx pic' = arena_idx pic + 1
  ∧ arena_window pic' = arena_window pic ++ [Some obj]
  ∧ arena_roots pic' = arena_roots pic ++ [obj]
  ∧ objects pic' = objects pic ∧ heap pic' = heap pic
  ∧ weaks pic' = weaks pic ∧ oblist pic' = oblist pic
  ∧ stack pic' = stack pic ∧ gc_enable pic' = gc_enable pic.
Proof.
  intros Hok Hrun.
  destruct (gc_protect_window _ _ _ Hok Hrun) as (? & ? & ? & ?).
  destruct (gc_protect_frame _ _ _ Hrun) as (u & base & slots & size & idx & ->).
  done.
Qed.

(** X3: when the index is at or beyond the capacity that one growth step
    reaches, as it can be after [pic_leave] with too large a mark, a push
    never returns: the store would fall outside the array, unless the
    reallocation has panicked before. *)
Theorem gc_protect_beyond_capacity pic obj :
  0 ≤ arena_size pic →
  2 * arena_size pic + 1 ≤ arena_idx pic →
  gc_protect pic obj = Undef
  ∨ gc_protect pic obj = Panic "memory exhausted".
Proof.
  intros Hsize Hidx. unfold gc_protect.
  replace (arena_size pic <=? arena_idx pic) with true
    by (symmetry; apply Z.leb_le; lia).
  set (size' := size_wrap (arena_size pic * 2 + 1)).
  set (bytes := size_wrap (SIZEOF_OBJPTR * size')).
  destruct (pic_realloc_cases pic (arena_base pic) bytes)
    as (_ & Hret & _ & [(q & pic0 & Hre)|Hpanic]).
  2:{ right. by rewrite Hpanic. }
  left. rewrite Hre. simpl.
  destruct (Hret q pic0 Hre) as (_ & _ & ->). simpl.
  rewrite length_resize.
  assert (bytes / SIZEOF_OBJPTR ≤ arena_idx pic) as Hle.
  { assert (0 ≤ size' ≤ arena_size pic * 2 + 1) as Hs'.
    { unfold size', size_wrap. split; [apply Z.mod_pos_bound; by vm_compute|].
      apply Z.mod_le; [lia|by vm_compute]. }
    assert (0 ≤ bytes ≤ SIZEOF_OBJPTR * size') as Hb.
    { unfold bytes, size_wrap. split; [apply Z.mod_pos_bound; by vm_compute|].
      apply Z.mod_le; [unfold SIZEOF_OBJPTR; lia|by vm_compute]. }
    unfold SIZEOF_OBJPTR in *.
    assert (bytes / 8 ≤ size') by (apply Z.div_le_upper_bound; lia). lia. }
  replace (arena_idx pic <? Z.of_nat (Z.to_nat (bytes / SIZEOF_OBJPTR)))
    with false; [done|].
  symmetry. apply Z.ltb_ge. lia.
Qed.

(** X13: a program of pushes and scopes, run from an arena in order,
    leaves every root that was in the window where it was: the window it
    ends with begins with the window it started from. *)
Theorem run_ops_keeps_window (ops : list arena_op) pic pic' :
  arena_ok pic →
  run_ops ops pic = Ret pic' →
  arena_ok pic'
  ∧ arena_idx pic ≤ arena_idx pic'
  ∧ take (length (arena_window pic)) (arena_window pic') = arena_window pic.
Proof.
  intros Hok Hrun.
  destruct (run_ops_extends ops) with (pic := pic) (pic' := pic')
    as (Hok' & Hle & Htake); [|done..|].
  { apply Forall_forall. intros op _ ? ?. apply run_op_extends. }
  split; [done|]. split; [done|]. unfold arena_window.
  destruct Hok as [[? ?] _]. rewrite length_take_le by lia.
  rewrite take_take. rewrite Nat.min_l by lia. done.
Qed.

(** ** The tracer, exactly *)

Lemma reach_unmarked_weaken pic pic' (a x : addr) :
  (∀ y, is_marked (heap pic') y = false → is_marked (heap pic) y = false) →
  same_shape (objects pic') (objects pic) →
  reach_unmarked pic' a x → reach_unmarked pic a x.
Proof.
  intros Hm Hs. induction 1 as [a Ha|a c x Ha He _ IH].
  - apply reach_here. by apply Hm.
  - eapply reach_step; [by apply Hm| |exact IH]. by eapply edge_shape.
Qed.

Lemma mark_ext_unmarked pic pic' (y : addr) :
  mark_ext pic pic' →
  is_marked (heap pic') y = false → is_marked (heap pic) y = false.
Proof.
  intros Hext Hy. destruct (is_marked (heap pic) y) eqn:Hy0; [|done].
  apply (mark_ext_mono _ _ _ Hext) in Hy0. congruence.
Qed.

(** Every new mark is reached from the traced object along objects that
    were unmarked. *)
Lemma marks_sound_unmarked :
  (∀ pic obj pic', marks_object pic obj pic' →
     ∀ x, is_marked (heap pic') x = true →
       is_marked (heap pic) x = true ∨ reach_unmarked pic obj x)
  ∧ (∀ pic l pic', marks_list pic l pic' →
     ∀ x, is_marked (heap pic') x = true →
       is_marked (heap pic) x = true
       ∨ ∃ a, a ∈ l ∧ reach_unmarked pic a x).
Proof.
  apply marks_mutind.
  - intros. by left.
  - intros pic obj hash prev Hm _ x. unfold pushed_state; simpl.
    rewrite is_marked_mark. intros [Hx|Hx]%orb_true_iff; [|by left].
    apply bool_decide_eq_true in Hx as <-. right. by apply reach_here.
  - intros pic obj o pic' Hm Ho _ _ Hl IH x Hx.
    destruct (IH x Hx) as [Hx1|(c & Hc & Hreach)].
    + unfold marked_state in Hx1; simpl in Hx1.
      rewrite is_marked_mark in Hx1.
      apply orb_true_iff in Hx1 as [Hx1|Hx1]; [|by left].
      apply bool_decide_eq_true in Hx1 as <-. right. by apply reach_here.
    + right. eapply reach_step; [done|by exists o|].
      eapply reach_unmarked_weaken; [| |exact Hreach].
      * intros y. unfold marked_state; simpl. rewrite is_marked_mark.
        by intros [_ ?]%orb_false_iff.
      * apply same_shape_refl.
  - intros. by left.
  - intros pic obj pic1 l pic' Hobj IH1 _ IH2 x Hx.
    destruct (IH2 x Hx) as [Hx1|(c & Hc & Hreach)].
    + destruct (IH1 x Hx1) as [?|?]; [by left|].
      right. exists obj. split; [by left|done].
    + right. exists c. split; [by right|].
      pose proof (marks_object_ext _ _ _ Hobj) as Hext.
      eapply reach_unmarked_weaken; [| |exact Hreach].
      * intros y. by apply mark_ext_unmarked.
      * apply same_shape_sym, Hext.
Qed.

(** Everything that the traced object reaches along unmarked objects ends
    up marked. *)
Lemma marks_object_complete pic obj pic' (x : addr) :
  marks_object pic obj pic' →
  reach_unmarked pic obj x → is_marked (heap pic') x = true.
Proof.
  intros Hm Hreach.
  pose proof (marks_object_ext _ _ _ Hm) as (_ & Hs & _).
  set (P := filter (fun a => is_marked (heap pic) a = true)
                   (dom (objects pic))).
  assert (closed_except P pic') as Hcl.
  { apply (proj1 marks_closed _ _ _ Hm). intros a o c Ha HP Ho _.
    exfalso. apply HP, elem_of_filter. split; [done|].
    apply elem_of_dom. eauto. }
  assert (is_marked (heap pic') obj = true) as Hobj
    by apply (proj1 marks_target _ _ _ Hm).
  clear Hm. induction Hreach as [a Ha|a c x Ha (o & Ho & Hc) _ IH]; [done|].
  apply IH.
  destruct (same_shape_lookup _ _ _ _ Hs Ho) as (o' & Ho' & Hsh).
  apply (Hcl a o' c); [done| |done|by rewrite (shape_children _ _ Hsh)].
  intros Hin. apply elem_of_filter in Hin as [Hin _]. congruence.
Qed.

(** X6: on a well-formed heap, with a budget above the number of
    unmarked cells, [gc_mark_object] returns, cycles or not, and marks
    exactly the objects that the one it was given reaches along unmarked
    objects; it writes no cell that was marked, no field but the chain
    link of a weak map, and nothing outside the cells, the marks and the
    chain head. *)
Theorem gc_mark_object_spec (fuel : nat) pic obj :
  graph_wf (objects pic) →
  obj ∈ dom (objects pic) →
  (unmarked_count pic < fuel)%nat →
  ∃ pic',
    gc_mark_object fuel pic obj = Ret pic'
    ∧ (∀ x, is_marked (heap pic') x = true
            ↔ is_marked (heap pic) x = true ∨ reach_unmarked pic obj x)
    ∧ same_frame pic pic'
    ∧ same_shape (objects pic) (objects pic')
    ∧ (∀ x, is_marked (heap pic) x = true →
            objects pic' !! x = objects pic !! x).
Proof.
  intros Hwf Hdom Hfuel.
  destruct (gc_mark_object_total fuel pic obj Hwf Hdom Hfuel) as (pic' & Hrun).
  exists pic'. split; [done|].
  apply gc_mark_object_marks in Hrun.
  pose proof (marks_object_ext _ _ _ Hrun) as (Hf & Hs & Hm & _).
  split; [|split; [done|split; [done|]]].
  - intros x. split; [apply (proj1 marks_sound_unmarked _ _ _ Hrun)|].
    intros [Hx|Hx]; [by apply Hm|by eapply marks_object_complete].
  - intros x Hx. by apply Hm.
Qed.

(** ** The mark phase: conservation *)

Lemma elem_of_arena_roots_inv pic obj :
  obj ∈ arena_roots pic → obj ∈ roots pic.
Proof. intros Hin. unfold roots. rewrite !elem_of_app. auto. Qed.

(** X7: on a well-formed heap the mark phase returns with every object
    that a root reaches marked, with marks on cells only, with the chain
    holding exactly the marked weak maps, and with nothing written but
    marks, chain links and the chain head. *)
Theorem gc_mark_phase_conservation (fuel : nat) pic :
  graph_wf (objects pic) → roots_wf pic →
  weaks pic = None →
  (∀ x, is_marked (heap pic) x = false) →
  (size (objects pic) < fuel)%nat →
  Z.of_nat (size (objects pic)) < SIZE_MOD →
  ∃ pic',
    gc_mark_phase fuel pic = Ret pic'
    ∧ (∀ r x, r ∈ roots pic → rtc (edge (objects pic)) r x →
         is_marked (heap pic') x = true)
    ∧ (∀ x, is_marked (heap pic') x = true → x ∈ dom (objects pic))
    ∧ chain_ok pic'
    ∧ same_frame pic pic'
    ∧ same_shape (objects pic) (objects pic').
Proof.
  intros Hwf Hroots Hweaks Hnone Hfuel Hsize.
  destruct (gc_mark_phase_total fuel pic Hwf Hroots Hweaks Hnone Hfuel Hsize)
    as (pic' & Hrun).
  destruct (gc_mark_phase_inv _ _ _ Hnone Hsize Hrun)
    as ((Hext & _ & _ & _ & Hch & Hdom) & _).
  pose proof (gc_mark_phase_live _ _ _ Hnone Hsize Hrun) as Hlive.
  exists pic'. split; [done|]. split; [|split; [|split; [done|split]]].
  - intros r x Hr Hreach. apply Hlive.
    apply (live_reach pic r); [by apply live_root|done].
  - intros x Hx. destruct Hext as (_ & Hs & _).
    rewrite (same_shape_dom _ _ Hs). by apply Hdom.
  - apply Hext.
  - apply Hext.
Qed.

(** X8: protect, then collect: an object pushed with [pic_protect] is
    marked by the next mark phase, and so is everything it reaches. *)
Theorem protect_then_mark (fuel : nat) pic obj v pic1 :
  arena_ok pic →
  pic_protect pic (pic_obj_value obj) = Ret (v, pic1) →
  graph_wf (objects pic1) → roots_wf pic1 →
  weaks pic1 = None →
  (∀ x, is_marked (heap pic1) x = false) →
  (size (objects pic1) < fuel)%nat →
  Z.of_nat (size (objects pic1)) < SIZE_MOD →
  ∃ pic',
    gc_mark_phase fuel pic1 = Ret pic'
    ∧ is_marked (heap pic') obj = true
    ∧ ∀ x, rtc (edge (objects pic)) obj x → is_marked (heap pic') x = true.
Proof.
  intros Hok Hprot Hwf Hroots Hweaks Hnone Hfuel Hsize.
  unfold pic_protect in Hprot. simpl in Hprot.
  apply bind_Ret_inv in Hprot as (pic0 & Hpush & Hr).
  inversion Hr; subst v pic0; clear Hr.
  destruct (gc_protect_window _ _ _ Hok Hpush) as (_ & _ & _ & Hars).
  destruct (gc_protect_frame _ _ _ Hpush) as (u & base & slots & n & idx & Heq).
  assert (objects pic1 = objects pic) as Hobjs by (by rewrite Heq).
  assert (obj ∈ roots pic1) as Hroot.
  { apply elem_of_arena_roots_inv. rewrite Hars, elem_of_app. right. by left. }
  destruct (gc_mark_phase_total fuel pic1 Hwf Hroots Hweaks Hnone Hfuel Hsize)
    as (pic' & Hrun).
  pose proof (gc_mark_phase_live _ _ _ Hnone Hsize Hrun) as Hlive.
  exists pic'. split; [done|]. split.
  - apply Hlive. by apply live_root.
  - intros x Hreach. apply Hlive.
    apply (live_reach pic1 obj); [by apply live_root|]. by rewrite Hobjs.
Qed.

(** ** The weak purge, unconditionally *)

(** X9: whenever the weak purge of the sweep returns, the chain head is
    null again, as the next mark phase asserts; the marks, and everything
    but the cells and the chain head, are as before; and a cell is either
    as before or a weak map that has lost the entries whose key is
    unmarked, and only those, its other entries keeping their order. *)
Theorem sweep_weaks_result (n : nat) pic pic' :
  sweep_weaks n pic = Ret pic' →
  weaks pic' = None
  ∧ heap pic' = heap pic
  ∧ same_frame pic pic'
  ∧ ∀ x, objects pic' !! x = objects pic !! x
         ∨ ∃ hash prev,
             objects pic !! x = Some (ObjWeak hash prev)
             ∧ objects pic' !! x
               = Some (ObjWeak
                         (filter (fun e => is_marked (heap pic) e.1 = true) hash)
                         prev).
Proof.
  intros Hrun. destruct (sweep_weaks_cells _ _ _ Hrun) as [Hnone Hcells].
  destruct (sweep_weaks_frame _ _ _ Hrun) as [Hheap Hframe]. done.
Qed.

(** ** What a collection and an allocation leave alone *)

Lemma same_roots_refl pic : same_roots pic pic.
Proof.
  exists (userdata pic), (released pic), (heap pic), (objects pic),
    (weaks pic), (oblist pic).
  by destruct pic.
Qed.

Lemma same_roots_trans pic1 pic2 pic3 :
  same_roots pic1 pic2 → same_roots pic2 pic3 → same_roots pic1 pic3.
Proof.
  intros (u1 & r1 & h1 & m1 & w1 & s1 & ->) (u2 & r2 & h2 & m2 & w2 & s2 & ->).
  by exists u2, r2, h2, m2, w2, s2.
Qed.

Lemma same_frame_same_roots pic pic' : same_frame pic pic' → same_roots pic pic'.
Proof.
  intros (h & m & w & ->).
  exists (userdata pic), (released pic), h, m, w, (oblist pic). by destruct pic.
Qed.

Lemma same_roots_fields pic pic' :
  same_roots pic pic' →
  roots pic' = roots pic ∧ arena pic' = arena pic
  ∧ arena_idx pic' = arena_idx pic ∧ arena_size pic' = arena_size pic
  ∧ arena_window pic' = arena_window pic
  ∧ gc_enable pic' = gc_enable pic.
Proof. intros (u & r & h & m & w & s & ->). by repeat split. Qed.

Lemma gc_sweep_phase_roots (fuel : nat) pic pic' :
  gc_sweep_phase fuel pic = Ret pic' →
  same_roots pic pic' ∧ weaks pic' = None.
Proof.
  intros Hrun.
  destruct (gc_sweep_phase_steps _ _ _ Hrun)
    as (ws & pic1 & inuse & total & pic3 & Hweak & _ & Hnone & _ & _ & _
        & Hob & Hpages & _ & _ & _ & _ & Hgrow & Hkeep).
  apply sweep_weaks_frame in Hweak as [_ Hframe].
  apply same_frame_same_roots in Hframe.
  apply sweep_pages_frame in Hpages. rewrite Hob in Hpages.
  assert (same_roots pic pic3 ∧ weaks pic3 = None) as [H3 Hw3].
  { rewrite Hpages. simpl. split; [|done].
    eapply same_roots_trans; [exact Hframe|].
    by eexists _, _, _, (objects pic1), (weaks pic1), _. }
  destruct (Z_lt_le_dec inuse (PIC_PAGE_REQUEST_THRESHOLD total)) as [Hlt|Hle].
  - by rewrite (Hkeep Hlt).
  - destruct (Hgrow Hle) as (h & _ & ->). split; [|done].
    eapply same_roots_trans; [exact H3|].
    exists (userdata pic3), (released pic3), h, (objects pic3), (weaks pic3),
      (oblist pic3).
    by destruct pic3.
Qed.

Lemma pic_gc_roots (fuel : nat) pic pic' :
  pic_gc fuel pic = Ret pic' →
  same_roots pic pic' ∧ (gc_enable pic = true → weaks pic' = None).
Proof.
  intros Hrun. destruct (gc_enable pic) eqn:Hen.
  - destruct (pic_gc_enabled_inv _ _ _ Hen Hrun) as (pic_m & Hmark & Hsweep).
    apply gc_mark_phase_frame, same_frame_same_roots in Hmark.
    apply gc_sweep_phase_roots in Hsweep as [Hsweep Hnone].
    split; [|done].
    eapply same_roots_trans; [|exact Hsweep].
    eapply same_roots_trans; [|exact Hmark].
    exists (userdata pic), (released pic), (gc_init (heap pic)),
      (objects pic), (weaks pic), (oblist pic).
    by destruct pic.
  - unfold pic_gc in Hrun. rewrite Hen in Hrun. inversion Hrun; subst.
    split; [apply same_roots_refl|discriminate].
Qed.


Lemma call_heap_alloc_roots pic (size : Z) (o : option addr) pic' :
  call_heap_alloc pic size = (o, pic') → same_roots pic pic'.
Proof.
  unfold call_heap_alloc. destruct (heap_alloc (heap pic) size) as [o' h].
  intros [= <- <-].
  exists (userdata pic), (released pic), h, (objects pic), (weaks pic),
    (oblist pic).
  by destruct pic.
Qed.

Lemma call_heap_morecore_roots pic pic' :
  call_heap_morecore pic = Ret pic' → same_roots pic pic'.
Proof.
  unfold call_heap_morecore. intros Hrun.
  apply bind_Ret_inv in Hrun as (h & _ & [= <-]).
  exists (userdata pic), (released pic), h, (objects pic), (weaks pic),
    (oblist pic).
  by destruct pic.
Qed.

Lemma init_header_roots pic obj (type : pic_type) :
  same_roots pic (init_header pic obj type).
Proof.
  unfold init_header. destruct PIC_USE_BITMAPGC.
  - exists (userdata pic), (released pic), (heap pic),
      (<[obj := ObjFresh type]> (objects pic)), (weaks pic), (oblist pic).
    by destruct pic.
  - exists (userdata pic), (released pic), (set_white (heap pic) obj),
      (<[obj := ObjFresh type]> (objects pic)), (weaks pic), (oblist pic).
    by destruct pic.
Qed.

Lemma pic_obj_alloc_unsafe_roots (fuel : nat) pic (size : Z) (type : pic_type)
    obj pic' :
  pic_obj_alloc_unsafe fuel pic size type = Ret (obj, pic') →
  same_roots pic pic' ∧ objects pic' !! obj = Some (ObjFresh type).
Proof.
  unfold pic_obj_alloc_unsafe. intros Hrun.
  apply bind_Ret_inv in Hrun as (pic0 & Hstress & Hrun).
  assert (same_roots pic pic0) as H0.
  { destruct GC_STRESS; [by apply pic_gc_roots in Hstress as [? _]|].
    inversion Hstress; subst. apply same_roots_refl. }
  apply bind_Ret_inv in Hrun as ([obj' pic5] & Halloc & Hr).
  inversion Hr; subst obj' pic'; clear Hr.
  assert (same_roots pic0 pic5) as H5.
  { destruct (call_heap_alloc pic0 size) as [[o1|] pic1] eqn:H1.
    { inversion Halloc; subst. by eapply call_heap_alloc_roots. }
    apply call_heap_alloc_roots in H1.
    apply bind_Ret_inv in Halloc as (pic2 & Hgc & Halloc).
    apply pic_gc_roots in Hgc as [Hgc _].
    destruct (call_heap_alloc pic2 size) as [[o3|] pic3] eqn:H3.
    { inversion Halloc; subst. apply call_heap_alloc_roots in H3.
      eauto using same_roots_trans. }
    apply call_heap_alloc_roots in H3.
    apply bind_Ret_inv in Halloc as (pic4 & Hmore & Halloc).
    apply call_heap_morecore_roots in Hmore.
    destruct (call_heap_alloc pic4 size) as [[o5|] pic5'] eqn:H5;
      [|discriminate].
    inversion Halloc; subst. apply call_heap_alloc_roots in H5.
    eauto using same_roots_trans. }
  split.
  - eapply same_roots_trans; [exact H0|].
    eapply same_roots_trans; [exact H5|]. apply init_header_roots.
  - unfold init_header. simpl. by rewrite lookup_insert_eq.
Qed.


(** X4: an allocation with [pic_obj_alloc] that returns has pushed the
    new cell: the root window is the one before with the cell at its end,
    so the cell is a root, and the cell carries the requested tag. *)
Theorem pic_obj_alloc_protects (fuel : nat) pic (size : Z) (type : pic_type)
    obj pic' :
  arena_ok pic →
  pic_obj_alloc fuel pic size type = Ret (obj, pic') →
  arena_window pic' = arena_window pic ++ [Some obj]
  ∧ arena_idx pic' = arena_idx pic + 1
  ∧ obj ∈ roots pic'
  ∧ objects pic' !! obj = Some (ObjFresh type).
Proof.
  intros Hok Hrun. unfold pic_obj_alloc in Hrun.
  apply bind_Ret_inv in Hrun as ([obj1 pic1] & Halloc & Hrun).
  apply bind_Ret_inv in Hrun as (pic2 & Hpush & Hr).
  inversion Hr; subst obj1 pic2; clear Hr.
  destruct (pic_obj_alloc_unsafe_roots _ _ _ _ _ _ Halloc) as [Hroots Ho].
  destruct (same_roots_fields _ _ Hroots) as (_ & Ha & Hi & _ & Hw & _).
  assert (arena_ok pic1) as Hok1 by (unfold arena_ok; by rewrite Ha, Hi).
  destruct (gc_protect_window _ _ _ Hok1 Hpush) as (_ & Hidx & Hwin & Hars).
  destruct (gc_protect_frame _ _ _ Hpush) as (u & base & slots & n & idx & Heq).
  split; [by rewrite Hwin, Hw|]. split; [by rewrite Hidx, Hi|]. split.
  - apply elem_of_arena_roots_inv. rewrite Hars, elem_of_app. right. by left.
  - by rewrite Heq.
Qed.

(** ** Collections of a well-formed heap *)

(** X11: a collection that returns unbinds no live symbol: an entry of
    the symbol table whose symbol is live, or null, is still there, and
    the table after the collection is the table before with entries left
    out, none added and none reordered. *)
Theorem live_symbol_stays_interned (fuel : nat) pic pic' :
  gc_enable pic = true →
  pic_gc fuel pic = Ret pic' →
  (∀ x, is_marked (gc_init (heap pic)) x = false) →
  Z.of_nat (size (objects pic)) < SIZE_MOD →
  (∀ name sym, (name, Some sym) ∈ oblist pic → live pic sym →
     (name, Some sym) ∈ oblist pic')
  ∧ (∀ name, (name, None) ∈ oblist pic → (name, None) ∈ oblist pic')
  ∧ oblist pic' `sublist_of` oblist pic.
Proof.
  intros Hen Hrun Hnone Hsize.
  destruct (pic_gc_enabled_inv _ _ _ Hen Hrun) as (pic_m & Hmark & Hsweep).
  destruct (gc_sweep_phase_tables _ _ _ Hsweep) as (pic1 & _ & _ & Hob).
  destruct (same_frame_tables _ _ (gc_mark_phase_frame _ _ _ Hmark))
    as (Hob_m & _).
  rewrite Hob_m in Hob. simpl in Hob. rewrite Hob.
  split; [|split].
  - intros name sym Hin Hlive. apply list_elem_of_filter. split; [|done].
    unfold symbol_kept. simpl.
    apply (gc_mark_phase_live fuel (set_heap (gc_init (heap pic)) pic) pic_m
             Hnone Hsize Hmark).
    eapply live_ext; [| |exact Hlive]; [done|apply same_shape_refl].
  - intros name Hin. by apply list_elem_of_filter.
  - apply sublist_filter.
Qed.








(** ** The page loop and the finalizers *)

Lemma sweep_heap_heap_after (h : heap_t) (pages : list heap_page) :
  (sweep_heap h pages).2 = heap_after h pages.
Proof.
  unfold sweep_heap, heap_after.
  assert (∀ (pages : list heap_page) (i t : Z) (h : heap_t),
            (foldl (fun '(inuse, total, h) page =>
               let '(n, h) := page_sweep h page in
               (size_wrap (inuse + n), size_wrap (total + PAGE_UNITS), h))
               (i, t, h) pages).2
            = foldl (fun h page => (page_sweep h page).2) h pages) as Hfold.
  { clear. induction pages as [|page pages IH]; intros i t h; [done|].
    simpl. destruct (page_sweep h page) as [n h']. apply IH. }
  apply Hfold.
Qed.



(** X15: a collection calls [pic_panic] nowhere but in the page request
    of its growth check: the mark phase, the weak purge and the
    finalizers never panic, and a collection that panics has panicked in
    [heap_morecore], with the collector switched on. *)
Theorem pic_gc_panics_in_morecore (fuel : nat) pic :
  no_panic (gc_mark_phase fuel pic)
  ∧ no_panic (sweep_weaks fuel pic)
  ∧ no_panic (sweep_pages pic)
  ∧ (∀ obj, no_panic (gc_finalize_object pic obj))
  ∧ (∀ msg, pic_gc fuel pic = Panic msg →
       gc_enable pic = true
       ∧ ∃ pic_r : pic_state U,
           heap_morecore (heap pic_r) = Panic msg
           ∧ call_heap_morecore pic_r = Panic msg).
Proof.
  split; [apply gc_mark_phase_no_panic|].
  split; [apply sweep_weaks_no_panic|]. split; [|split].
  - intros msg Hrun.
    destruct (sweep_pages_fail pic (FPanic msg)) as [Hun _];
      [by rewrite Hrun|]. congruence.
  - intros obj msg Hrun.
    destruct (gc_finalize_object_fail pic obj (FPanic msg)) as [Hun _];
      [by rewrite Hrun|]. congruence.
  - intros msg Hrun. split.
    + unfold pic_gc in Hrun. by destruct (gc_enable pic).
    + destruct (pic_gc_panic _ _ _ Hrun) as (pic_r & Hr). exists pic_r.
      split; [|done]. unfold call_heap_morecore in Hr.
      destruct (heap_morecore (heap pic_r)); simpl in Hr; by inversion Hr.
Qed.

Lemma failure_of_panic {A : Type} (m : outcome A) (msg : string) :
  failure_of m = Some (FPanic msg) → m = Panic msg.
Proof. destruct m; simpl; intros [=]; by subst. Qed.

Lemma failure_of_undef {A : Type} (m : outcome A) :
  failure_of m = Some FUndef → m = Undef.
Proof. by destruct m. Qed.

End Properties.

(** ** [pic_leave] and [pic_calloc] on concrete states *)

#[local] Existing Instance cell_backend.

(** C9: [pic_leave] stores whatever mark it is given; with a mark above
    the arena index the window grows, and the slots that come back into
    it are those that earlier pushes wrote. *)
Theorem pic_leave_unchecked :
  (∀ (B : Backend) (U : Type) (pic : pic_state U) (m : Z),
     arena_idx (pic_leave pic m) = m ∧ arena (pic_leave pic m) = arena pic)
  ∧ ∃ (pushed left : pic_state (Z * Z)) (m : Z),
      run_ops [Protect (pic_obj_value 1); Protect (pic_obj_value 2)] empty_pic
      = Ret pushed
      ∧ left = pic_leave pushed 0
      ∧ arena_idx left < m
      ∧ arena_window left = [] ∧ roots left = []
      ∧ arena_window (pic_leave left m) = [Some 1%positive; Some 2%positive]
      ∧ roots (pic_leave left m) = [1%positive; 2%positive].
Proof.
  split; [done|].
  eexists _, _, 2. split; [vm_compute; reflexivity|].
  split; [reflexivity|]. by vm_compute.
Qed.

(** C10: [pic_calloc] requests and clears the product of its arguments
    reduced modulo 2^64; it panics exactly when that number is positive
    and the allocator returns null; and there are arguments whose product
    is 2^64 + 4 for which it returns a block of which 4 bytes are
    cleared. *)
Theorem pic_calloc_wraps :
  (∀ (B : Backend) (U : Type) (pic : pic_state U) (count size : Z) (p : ptr)
     (u : U),
     let n := size_wrap (size * count) in
     allocf pic (userdata pic) NULL n = (p, u) →
     (p = NULL ∧ 0 < n → pic_calloc pic count size = Panic "memory exhausted")
     ∧ (¬ (p = NULL ∧ 0 < n) →
        ∃ pic', pic_calloc pic count size = Ret (p, pic')
          ∧ (∀ a, p ≤ a < p + n → memory pic' !! a = Some 0)
          ∧ (∀ a, ¬ (p ≤ a < p + n) → memory pic' !! a = memory pic !! a)))
  ∧ ∃ (count size : Z) (p : ptr) (pic' : pic_state (Z * Z)),
      SIZE_MOD ≤ size * count
      ∧ size_wrap (size * count) = 4
      ∧ pic_calloc empty_pic count size = Ret (p, pic')
      ∧ p ≠ NULL
      ∧ memory pic' = {[p := 0; p + 1 := 0; p + 2 := 0; p + 3 := 0]}.
Proof.
  split.
  - intros B U pic count size p u n Halloc. unfold pic_calloc, call_allocf.
    fold n. rewrite Halloc. split.
    + intros [-> Hn]. apply Z.ltb_lt in Hn. by rewrite Hn.
    + intros Hok.
      assert ((p =? NULL) && (0 <? n) = false) as ->.
      { apply andb_false_iff.
        destruct (Z.eqb_spec p NULL) as [->|?]; [|by left]. right.
        apply Z.ltb_ge. destruct (Z_lt_le_dec 0 n); [|done]. tauto. }
      eexists. split; [reflexivity|]. simpl. split.
      * intros a Ha. rewrite memset_zero_lookup. by rewrite decide_True.
      * intros a Ha. rewrite memset_zero_lookup. by rewrite decide_False.
  - exists (2 ^ 62 + 1), 4. eexists _, _.
    split; [by vm_compute|]. split; [reflexivity|].
    split; [vm_compute; reflexivity|]. split; [done|].
    apply map_eq. intros a. by vm_compute.
Qed.

(** ** The theorems on concrete interpreters *)

Lemma pic_protect_spec_witness :
  (∃ pic',
     pic_protect empty_pic (pic_obj_value 1)
     = Ret (pic_obj_value 1, pic')
     ∧ arena_size pic' = 2 * 0 + 1
     ∧ length (arena pic') = Z.to_nat (2 * 0 + 1)
     ∧ arena_idx pic' = 0 + 1
     ∧ arena pic' = arena empty_pic ++ Some 1%positive :: replicate (Z.to_nat 0) None)
  ∧ (∃ pic',
     pic_protect full_pic_marked (pic_obj_value 2)
     = Ret (pic_obj_value 2, pic')
     ∧ arena_size pic' = 2 * 2 + 1)
  ∧ pic_protect empty_pic (pic_int_value 7) = Ret (pic_int_value 7, empty_pic).
Proof.
  split; [|split].
  - destruct (pic_protect_spec empty_pic (pic_obj_value 1))
      as (_ & _ & _ & Hgrow).
    eapply (Hgrow 1%positive 0);
      [reflexivity|lia|reflexivity|reflexivity|reflexivity
      |reflexivity|reflexivity|discriminate].
  - destruct (pic_protect_spec full_pic_marked (pic_obj_value 2))
      as (_ & _ & _ & Hgrow).
    edestruct (Hgrow 2%positive 2) as (pic' & Hrun & Hsize & _);
      [reflexivity|lia|reflexivity|reflexivity|reflexivity
      |reflexivity|reflexivity|discriminate|].
    by exists pic'.
  - destruct (pic_protect_spec empty_pic (pic_int_value 7))
      as (_ & Himm & _).
    by apply Himm.
Defined.

Lemma arena_discipline_witness :
  ∃ pic',
    arena_ok empty_pic
    ∧ run_op (Scope [Protect (pic_obj_value 1);
                     Scope [Protect (pic_obj_value 2)];
                     Protect (pic_obj_value 2)]) empty_pic = Ret pic'
    ∧ arena_idx pic' = arena_idx empty_pic
    ∧ arena_window pic' = arena_window empty_pic.
Proof.
  assert (arena_ok empty_pic) as Hok by (split; [simpl; lia|reflexivity]).
  eexists. split; [exact Hok|]. split; [vm_compute; reflexivity|].
  destruct (arena_discipline empty_pic) as (_ & _ & _ & _ & Hscope).
  apply (Hscope [Protect (pic_obj_value 1);
                 Scope [Protect (pic_obj_value 2)];
                 Protect (pic_obj_value 2)]);
    [exact Hok|vm_compute; reflexivity].
Defined.

Lemma pic_gc_phases_witness :
  pic_gc 3 full_pic_nogc = Ret full_pic_nogc
  ∧ pic_gc 3 full_pic
    = gc_mark_phase 3 (set_heap (gc_init (heap full_pic)) full_pic)
        ≫= gc_sweep_phase 3.
Proof.
  split.
  - apply (pic_gc_phases 3 full_pic_nogc). reflexivity.
  - apply (pic_gc_phases 3 full_pic). reflexivity.
Defined.

Lemma pic_obj_alloc_unsafe_attempts_witness :
  (∃ pic', pic_obj_alloc_unsafe 3 empty_pic 4 PIC_TYPE_PAIR
           = Ret (1%positive, pic'))
  ∧ (∃ pic', pic_obj_alloc_unsafe 9 mixed_pic 4 PIC_TYPE_PAIR
             = Ret (7%positive, pic')
             ∧ obj_tt <$> objects pic' !! 7%positive = Some PIC_TYPE_PAIR)
  ∧ (∃ pic', pic_obj_alloc_unsafe 3 full_pic_nogc 4 PIC_TYPE_PAIR
             = Ret (3%positive, pic'))
  ∧ pic_obj_alloc_unsafe 9 mixed_pic 100 PIC_TYPE_PAIR
    = Panic "GC memory exhausted"
  ∧ pic_obj_alloc_unsafe 3 exhausted_pic 4 PIC_TYPE_PAIR
    = Panic "memory exhausted"
  ∧ pic_obj_alloc_unsafe 3 fresh_string_pic 100 PIC_TYPE_PAIR = Undef.
Proof.
  split; [|split; [|split; [|split; [|split]]]].
  - destruct (pic_obj_alloc_unsafe_attempts 3 empty_pic 4 PIC_TYPE_PAIR)
      as (Hret & _).
    eexists. apply Hret. eexists _, _.
    split; [vm_compute; reflexivity|]. split; [reflexivity|].
    left. vm_compute; reflexivity.
  - destruct (pic_obj_alloc_unsafe_attempts 9 mixed_pic 4 PIC_TYPE_PAIR)
      as (Hret & _ & Htag).
    assert (∃ pic', pic_obj_alloc_unsafe 9 mixed_pic 4 PIC_TYPE_PAIR
                    = Ret (7%positive, pic')) as [pic' Hrun].
    { eexists. apply Hret. eexists _, _.
      split; [vm_compute; reflexivity|]. split; [reflexivity|].
      right. eexists _, _. split; [vm_compute; reflexivity|].
      split; [vm_compute; reflexivity|]. left. vm_compute; reflexivity. }
    exists pic'. split; [done|]. by apply Htag.
  - destruct (pic_obj_alloc_unsafe_attempts 3 full_pic_nogc 4 PIC_TYPE_PAIR)
      as (Hret & _).
    eexists. apply Hret. eexists _, _.
    split; [vm_compute; reflexivity|]. split; [reflexivity|].
    right. eexists _, _. split; [vm_compute; reflexivity|].
    split; [vm_compute; reflexivity|].
    right. eexists _, _. split; [vm_compute; reflexivity|].
    split; vm_compute; reflexivity.
  - destruct (pic_obj_alloc_unsafe_attempts 9 mixed_pic 100 PIC_TYPE_PAIR)
      as (_ & Hfail & _).
    apply failure_of_panic, Hfail. right. eexists _, _.
    split; [vm_compute; reflexivity|]. split; [vm_compute; reflexivity|].
    right. eexists _, _. split; [vm_compute; reflexivity|].
    split; [vm_compute; reflexivity|].
    right. eexists _, _. split; [vm_compute; reflexivity|].
    split; [vm_compute; reflexivity|done].
  - destruct (pic_obj_alloc_unsafe_attempts 3 exhausted_pic 4 PIC_TYPE_PAIR)
      as (_ & Hfail & _).
    apply failure_of_panic, Hfail. right. eexists _, _.
    split; [vm_compute; reflexivity|]. split; [vm_compute; reflexivity|].
    left. vm_compute; reflexivity.
  - destruct (pic_obj_alloc_unsafe_attempts 3 fresh_string_pic 100
                PIC_TYPE_PAIR) as (_ & Hfail & _).
    apply failure_of_undef, Hfail. right. eexists _, _.
    split; [vm_compute; reflexivity|]. split; [vm_compute; reflexivity|].
    left. vm_compute; reflexivity.
Defined.

(** C3 as stated fails: with both cells of the only page live and no
    page left, the first attempt fails and the collection that follows
    panics in the page request of its growth check; no second and no
    third attempt is made. *)
Lemma panic_needs_three_failures_counterexample :
  ¬ panic_needs_three_failures 3 exhausted_pic 4 PIC_TYPE_PAIR.
Proof.
  intros Hclaim.
  destruct (Hclaim "memory exhausted"%string)
    as (pic0 & pic1 & pic2 & pic3 & pic4 & pic5 & H0 & H1 & H2 & _);
    [vm_compute; reflexivity|].
  vm_compute in H0. inversion H0; subst pic0; clear H0.
  vm_compute in H1. inversion H1; subst pic1; clear H1.
  vm_compute in H2. discriminate.
Qed.

Lemma cell_morecore_panic (h : CellHeap.t) (msg : string) :
  heap_morecore h = Panic msg → msg = "memory exhausted"%string.
Proof.
  simpl. unfold CellHeap.morecore. destruct (CellHeap.supply h); [|done].
  by intros [= <-].
Qed.

Lemma alloc_exhausted_mixed_pic : alloc_exhausted 9 mixed_pic 100.
Proof.
  do 6 eexists.
  split; [vm_compute; reflexivity|]. split; [vm_compute; reflexivity|].
  split; [vm_compute; reflexivity|]. split; [vm_compute; reflexivity|].
  split; vm_compute; reflexivity.
Qed.

Lemma alloc_exhausted_panics_witness :
  (∀ (h : CellHeap.t) msg, heap_morecore h = Panic msg →
     msg = "memory exhausted"%string)
  ∧ alloc_exhausted 9 mixed_pic 100
  ∧ pic_obj_alloc_unsafe 9 mixed_pic 100 PIC_TYPE_PAIR
    = Panic "GC memory exhausted"
  ∧ ¬ alloc_exhausted 3 exhausted_pic 4
  ∧ pic_obj_alloc_unsafe 3 exhausted_pic 4 PIC_TYPE_PAIR
    = Panic "memory exhausted".
Proof.
  split; [exact cell_morecore_panic|].
  split; [exact alloc_exhausted_mixed_pic|]. split; [|split].
  - destruct (alloc_exhausted_panics 9 mixed_pic 100 PIC_TYPE_PAIR
                cell_morecore_panic) as (Hiff & _).
    apply Hiff. exact alloc_exhausted_mixed_pic.
  - destruct (alloc_exhausted_panics 3 exhausted_pic 4 PIC_TYPE_PAIR
                cell_morecore_panic) as (Hiff & _).
    intros Hex. apply Hiff in Hex. vm_compute in Hex. discriminate.
  - destruct (alloc_exhausted_panics 3 exhausted_pic 4 PIC_TYPE_PAIR
                cell_morecore_panic) as (_ & Hcases & _).
    destruct (pic_obj_alloc_unsafe 3 exhausted_pic 4 PIC_TYPE_PAIR)
      as [r|msg| |] eqn:Hrun; try (vm_compute in Hrun; discriminate).
    destruct (Hcases msg eq_refl) as [[-> Hex]|[-> _]]; [|done].
    vm_compute in Hrun. discriminate.
Defined.

(** C2 as stated fails: where the third attempt fails the message is
    not "(GC) memory exhausted", and where the memory is exhausted, the
    only page full of live cells and no page to be had, the message is
    that of the page request. *)
Lemma alloc_exhausted_message_counterexample :
  (alloc_exhausted 9 mixed_pic 100
   ∧ pic_obj_alloc_unsafe 9 mixed_pic 100 PIC_TYPE_PAIR
     ≠ Panic "(GC) memory exhausted")
  ∧ pic_obj_alloc_unsafe 3 exhausted_pic 4 PIC_TYPE_PAIR
    = Panic "memory exhausted"
  ∧ pic_obj_alloc_unsafe 3 exhausted_pic 4 PIC_TYPE_PAIR
    ≠ Panic "(GC) memory exhausted".
Proof.
  split; [split; [exact alloc_exhausted_mixed_pic|by vm_compute]|].
  split; by vm_compute.
Qed.

Lemma mixed_pic_dead :
  sweep_dead (heap mixed_pic_marked) (heap_pages (heap mixed_pic_marked))
  = [5; 6; 7; 8]%positive.
Proof. by vm_compute. Qed.


Lemma gc_sweep_phase_order_witness :
  ∃ pic' pic1,
    gc_mark_phase 9 mixed_pic = Ret mixed_pic_marked
    ∧ gc_sweep_phase 9 mixed_pic_marked = Ret pic'
    ∧ sweep_weaks 9 mixed_pic_marked = Ret pic1
    ∧ chain (objects mixed_pic_marked) (weaks mixed_pic_marked) [1%positive]
    ∧ weaks pic1 = None
    ∧ objects pic1 !! 1%positive
      = Some (ObjWeak [(2%positive, pic_obj_value 3)] None)
    ∧ oblist (sweep_oblist pic1) = [("bar"%string, Some 4%positive)]
    ∧ sweep_dead (heap mixed_pic_marked) (heap_pages (heap mixed_pic_marked))
      = [5; 6; 7; 8]%positive
    ∧ released pic' = [Rope_decref 12; Data_dtor "buf" 4200]
    ∧ sweep_pages (sweep_oblist pic1) = Ret (16, 32, pic')
    ∧ gc_sweep_phase 3 fresh_string_pic = Undef
    ∧ ∃ obj,
        obj ∈ sweep_dead (heap fresh_string_pic)
                (heap_pages (heap fresh_string_pic))
        ∧ gc_finalize_object (sweep_oblist fresh_string_pic) obj = Undef.
Proof.
  destruct (gc_sweep_phase 9 mixed_pic_marked) as [pic'| | |] eqn:Hrun;
    try (vm_compute in Hrun; discriminate).
  destruct (gc_sweep_phase_order 9 mixed_pic_marked) as [Hsteps _].
  destruct (Hsteps pic' Hrun)
    as (ws & pic1 & inuse & total & pic3 & Hweak & Hc & Hnone & Hheap & Hin
        & _ & Hob & Hpages & _ & Hrel & Hsh & _ & _ & Hkeep).
  assert (ws = [1%positive]) as ->.
  { inversion Hc as [|w hash prev ws' Ho Hc' Hw Heq]; subst.
    vm_compute in Ho. inversion Ho; subst. by inversion Hc'. }
  assert (inuse = 16 ∧ total = 32) as [-> ->].
  { vm_compute in Hsh. by inversion Hsh. }
  rewrite (Hkeep ltac:(by vm_compute)) in *.
  exists pic3, pic1. split; [vm_compute; reflexivity|].
  split; [done|]. split; [done|]. split; [done|]. split; [done|].
  split.
  { rewrite (Hin 1%positive [(2%positive, pic_obj_value 3);
                             (6%positive, pic_obj_value 7)] None);
      [by vm_compute|constructor|by vm_compute]. }
  split; [by rewrite Hob|]. split; [exact mixed_pic_dead|].
  split; [rewrite Hrel, mixed_pic_dead; by vm_compute|]. split; [done|].
  split; [by vm_compute|].
  destruct (gc_sweep_phase_order 3 fresh_string_pic) as [_ Hfail].
  destruct (Hfail FUndef)
    as [Hw|(p1 & Hw & [[_ (obj & Hobj & Hun)]|(i & t & p3 & Hp & _)])].
  - by vm_compute.
  - vm_compute in Hw. discriminate.
  - exists obj. split; [done|].
    assert (p1 = fresh_string_pic) as <-
      by (vm_compute in Hw; by inversion Hw).
    done.
  - assert (p1 = fresh_string_pic) as ->
      by (vm_compute in Hw; by inversion Hw).
    vm_compute in Hp. discriminate.
Defined.

Lemma symbol_purge_witness :
  ∃ pic',
    gc_enable symbols_pic = true
    ∧ pic_gc 5 symbols_pic = Ret pic'
    ∧ oblist pic' = [("bar"%string, Some 4%positive)]
    ∧ (("foo"%string, Some 2%positive) ∉ oblist pic')
    ∧ ("foo"%string ∉ (oblist pic').*1).
Proof.
  destruct (pic_gc 5 symbols_pic) as [pic'| | |] eqn:Hrun;
    try (vm_compute in Hrun; discriminate).
  destruct (symbol_purge 5 symbols_pic pic' eq_refl Hrun)
    as (pic_m & Hmark & Hob & Hgone & Hname & _).
  vm_compute in Hmark. inversion Hmark; subst pic_m; clear Hmark.
  exists pic'. split; [done|]. split; [done|]. split; [|split].
  - rewrite Hob. by vm_compute.
  - by apply Hgone.
  - apply (Hname "foo"%string 2%positive).
    + vm_compute. apply NoDup_cons. split; [|apply NoDup_singleton].
      intros Hin. apply list_elem_of_singleton in Hin. discriminate.
    + vm_compute. constructor.
    + done.
Defined.

Lemma weak_key_liveness_witness :
  ∃ pic_m pic_s,
    gc_mark_phase 8 ephemeron_pic = Ret pic_m
    ∧ sweep_weaks 8 pic_m = Ret pic_s
    ∧ (∀ x, is_marked (heap pic_m) x = true ↔ live ephemeron_pic x)
    ∧ objects pic_s !! 1%positive
      = Some (ObjWeak [(2, pic_obj_value 3); (3, pic_obj_value 4);
                       (4, pic_obj_value 5)]%positive None)
    ∧ live ephemeron_pic 5 ∧ ¬ live ephemeron_pic 7.
Proof.
  destruct (weak_key_liveness 8 ephemeron_pic)
    as (pic_m & pic_s & Hmark & Hsweep & _ & _ & Hlive & _).
  - apply graph_wfb_spec. by vm_compute.
  - apply roots_wfb_spec. by vm_compute.
  - done.
  - done.
  - vm_compute. lia.
  - by vm_compute.
  - exists pic_m, pic_s. split; [done|]. split; [done|]. split; [done|].
    vm_compute in Hmark. inversion Hmark; subst pic_m; clear Hmark.
    vm_compute in Hsweep. inversion Hsweep; subst pic_s; clear Hsweep.
    split; [by vm_compute|]. split.
    + by apply Hlive.
    + intros H7. by apply Hlive in H7.
Defined.

(** C1 as stated fails: in [dead_weak_pic] the key 2 of the entry 2 -> 3
    is live, being protected, and yet the value 3 is not marked, because
    nothing reaches the weak map that holds the entry. *)
Lemma weak_value_iff_key_counterexample : ¬ weak_value_iff_key 4 dead_weak_pic.
Proof.
  destruct (gc_mark_phase 4 dead_weak_pic) as [pic_m| | |] eqn:Hmark;
    [|vm_compute in Hmark; discriminate ..].
  assert (is_marked (heap pic_m) 3 = false) as Hvalue.
  { vm_compute in Hmark. inversion Hmark; subst pic_m. by vm_compute. }
  destruct (sweep_weaks 4 pic_m) as [pic_s| | |] eqn:Hsweep;
    [|vm_compute in Hmark; inversion Hmark; subst pic_m;
      vm_compute in Hsweep; discriminate ..].
  assert (live dead_weak_pic 2) as Hkey.
  { apply live_root. vm_compute. constructor. }
  intros Hclaim.
  apply (Hclaim pic_m pic_s 1%positive [(2%positive, pic_obj_value 3)] None
           2%positive 3%positive Hmark Hsweep) in Hkey as [Hmarked _].
  - congruence.
  - by vm_compute.
  - constructor.
Qed.

(** ** The further properties on concrete interpreters *)

Lemma gc_protect_pushes_witness :
  ∃ pic',
    arena_ok full_pic
    ∧ gc_protect full_pic 1 = Ret pic'
    ∧ arena_size pic' = 5
    ∧ arena_idx pic' = 3
    ∧ arena_window pic' = [Some 1; Some 2; Some 1]%positive
    ∧ arena_roots pic' = [1; 2; 1]%positive
    ∧ objects pic' = objects full_pic.
Proof.
  assert (arena_ok full_pic) as Hok by (split; [simpl; lia|by vm_compute]).
  destruct (gc_protect full_pic 1) as [pic'| | |] eqn:Hrun;
    try (vm_compute in Hrun; discriminate).
  destruct (gc_protect_pushes full_pic 1%positive pic' Hok Hrun)
    as (_ & Hidx & Hwin & Hroots & Hobjs & _).
  exists pic'. split; [done|]. split; [done|].
  split; [vm_compute in Hrun; inversion Hrun; by subst pic'|].
  split; [done|]. split; [done|]. split; done.
Defined.

Lemma gc_protect_beyond_capacity_witness :
  0 ≤ arena_size (pic_leave empty_pic 5)
  ∧ 2 * arena_size (pic_leave empty_pic 5) + 1 ≤ arena_idx (pic_leave empty_pic 5)
  ∧ (gc_protect (pic_leave empty_pic 5) 1 = Undef
     ∨ gc_protect (pic_leave empty_pic 5) 1 = Panic "memory exhausted").
Proof.
  split; [simpl; lia|]. split; [simpl; lia|].
  apply (gc_protect_beyond_capacity (pic_leave empty_pic 5) 1%positive);
    simpl; lia.
Defined.

Lemma run_ops_keeps_window_witness :
  ∃ pic',
    arena_ok full_pic
    ∧ run_ops [Scope [Protect (pic_obj_value 1)]; Protect (pic_obj_value 2);
               Scope [Protect (pic_obj_value 1); Protect (pic_obj_value 1)]]
        full_pic = Ret pic'
    ∧ arena_idx full_pic ≤ arena_idx pic'
    ∧ take (length (arena_window full_pic)) (arena_window pic')
      = [Some 1; Some 2]%positive.
Proof.
  assert (arena_ok full_pic) as Hok by (split; [simpl; lia|by vm_compute]).
  destruct (run_ops [Scope [Protect (pic_obj_value 1)];
                     Protect (pic_obj_value 2);
                     Scope [Protect (pic_obj_value 1);
                            Protect (pic_obj_value 1)]] full_pic)
    as [pic'| | |] eqn:Hrun; try (vm_compute in Hrun; discriminate).
  destruct (run_ops_keeps_window _ full_pic pic' Hok Hrun) as (_ & Hle & Htake).
  exists pic'. split; [done|]. split; [done|]. split; [done|]. done.
Defined.

Lemma pic_obj_alloc_protects_witness :
  ∃ pic',
    arena_ok full_pic
    ∧ pic_obj_alloc 3 full_pic 4 PIC_TYPE_PAIR = Ret (3%positive, pic')
    ∧ arena_window pic' = [Some 1; Some 2; Some 3]%positive
    ∧ arena_idx pic' = 3
    ∧ 3%positive ∈ roots pic'
    ∧ objects pic' !! 3%positive = Some (ObjFresh PIC_TYPE_PAIR).
Proof.
  assert (arena_ok full_pic) as Hok by (split; [simpl; lia|by vm_compute]).
  eexists. split; [done|]. split; [vm_compute; reflexivity|].
  eapply (pic_obj_alloc_protects 3 full_pic 4 PIC_TYPE_PAIR 3%positive);
    [exact Hok|vm_compute; reflexivity].
Defined.


Lemma gc_mark_object_spec_witness :
  ∃ pic',
    gc_mark_object 5 cyclic_pic_marked3 1 = Ret pic'
    ∧ is_marked (heap pic') 1 = true
    ∧ is_marked (heap pic') 2 = true
    ∧ is_marked (heap pic') 4 = false
    ∧ ¬ reach_unmarked cyclic_pic_marked3 1 4
    ∧ objects pic' = objects cyclic_pic_marked3.
Proof.
  destruct (gc_mark_object_spec 5 cyclic_pic_marked3 1%positive)
    as (pic' & Hrun & Hmarks & _).
  - apply graph_wfb_spec. by vm_compute.
  - by vm_compute.
  - vm_compute. lia.
  - exists pic'. split; [done|].
    vm_compute in Hrun. inversion Hrun; subst pic'; clear Hrun.
    split; [by vm_compute|]. split; [by vm_compute|].
    split; [by vm_compute|]. split; [|by vm_compute].
    intros Hreach.
    assert (is_marked (heap cyclic_pic_marked3) 4 = true
            ∨ reach_unmarked cyclic_pic_marked3 1 4) as H4 by (by right).
    apply Hmarks in H4. by vm_compute in H4.
Defined.

Lemma gc_mark_phase_conservation_witness :
  ∃ pic',
    gc_mark_phase 6 cyclic_rooted_pic = Ret pic'
    ∧ is_marked (heap pic') 1 = true
    ∧ is_marked (heap pic') 2 = true
    ∧ is_marked (heap pic') 4 = true
    ∧ is_marked (heap pic') 5 = false
    ∧ weaks pic' = None.
Proof.
  destruct (gc_mark_phase_conservation 6 cyclic_rooted_pic)
    as (pic' & Hrun & Hreach & _).
  - apply graph_wfb_spec. by vm_compute.
  - apply roots_wfb_spec. by vm_compute.
  - done.
  - done.
  - vm_compute. lia.
  - by vm_compute.
  - exists pic'. split; [done|].
    split; [apply (Hreach 1%positive); [vm_compute; constructor|done]|].
    vm_compute in Hrun. inversion Hrun; subst pic'; clear Hrun.
    by vm_compute.
Defined.

Lemma protect_then_mark_witness :
  ∃ pic1 pic',
    arena_ok cyclic_pic
    ∧ pic_protect cyclic_pic (pic_obj_value 1) = Ret (pic_obj_value 1, pic1)
    ∧ gc_mark_phase 6 pic1 = Ret pic'
    ∧ is_marked (heap pic') 1 = true
    ∧ is_marked (heap pic') 4 = true.
Proof.
  assert (arena_ok cyclic_pic) as Hok by (split; [simpl; lia|by vm_compute]).
  edestruct (protect_then_mark 6 cyclic_pic 1%positive)
    as (pic' & Hrun & H1 & _).
  - exact Hok.
  - vm_compute; reflexivity.
  - apply graph_wfb_spec. by vm_compute.
  - apply roots_wfb_spec. by vm_compute.
  - done.
  - done.
  - vm_compute. lia.
  - by vm_compute.
  - eexists _, pic'. split; [done|]. split; [vm_compute; reflexivity|].
    split; [exact Hrun|]. split; [done|].
    vm_compute in Hrun. inversion Hrun; subst pic'; clear Hrun.
    by vm_compute.
Defined.

Lemma sweep_weaks_result_witness :
  ∃ pic_m pic_s,
    gc_mark_phase 8 ephemeron_pic = Ret pic_m
    ∧ weaks pic_m = Some 1%positive
    ∧ sweep_weaks 8 pic_m = Ret pic_s
    ∧ weaks pic_s = None
    ∧ heap pic_s = heap pic_m
    ∧ objects pic_s !! 2%positive = objects pic_m !! 2%positive.
Proof.
  destruct (gc_mark_phase 8 ephemeron_pic) as [pic_m| | |] eqn:Hmark;
    try (vm_compute in Hmark; discriminate).
  assert (weaks pic_m = Some 1%positive) as Hw
    by (vm_compute in Hmark; inversion Hmark; by subst pic_m).
  destruct (sweep_weaks 8 pic_m) as [pic_s| | |] eqn:Hsweep;
    try (vm_compute in Hmark; inversion Hmark; subst pic_m;
         vm_compute in Hsweep; discriminate).
  destruct (sweep_weaks_result 8 pic_m pic_s Hsweep)
    as (Hnone & Hheap & _ & Hcells).
  exists pic_m, pic_s. split; [done|]. split; [done|]. split; [done|].
  split; [done|]. split; [done|].
  destruct (Hcells 2%positive) as [Heq|(hash & prev & Hm & _)]; [done|].
  vm_compute in Hmark. inversion Hmark; subst pic_m. by vm_compute in Hm.
Defined.


Lemma live_symbol_stays_interned_witness :
  ∃ pic',
    gc_enable symbols_pic = true
    ∧ pic_gc 5 symbols_pic = Ret pic'
    ∧ live symbols_pic 4
    ∧ ("bar"%string, Some 4%positive) ∈ oblist pic'
    ∧ oblist pic' `sublist_of` oblist symbols_pic.
Proof.
  destruct (pic_gc 5 symbols_pic) as [pic'| | |] eqn:Hrun;
    try (vm_compute in Hrun; discriminate).
  assert (live symbols_pic 4) as Hlive.
  { apply live_root. vm_compute. constructor. }
  destruct (live_symbol_stays_interned 5 symbols_pic pic' eq_refl Hrun)
    as (Hkept & _ & Hsub).
  - done.
  - by vm_compute.
  - exists pic'. split; [done|]. split; [done|]. split; [done|].
    split; [|done]. apply Hkept; [|done]. vm_compute. do 2 constructor.
Defined.


